(** * pyhctsa: symbolic-dynamics and extreme-event operations

    A shallow embedding of [pyhctsa/Operations/ExtremeEvents.py] and
    [pyhctsa/Operations/Symbolic.py], together with the properties that
    the specification states about them.

    Conventions of the embedding.
    - A float is modelled by an exact rational ([Q]); the non-finite
      floats that numpy produces on a division by zero or on an empty
      reduction are the extra constructors of [fval].  The rounding of
      float64 is kept in one place, [th[0] -= 1] of [CoarseGrain]
      ([round_f64]): there it decides, for samples of large magnitude,
      whether the call returns or raises.
    - A Python call either returns or raises: [py A].
    - A 1-d numpy array is a [list]; a boolean mask is a [list bool].
    - A result dictionary is an insertion-ordered association list. *)

From Stdlib Require Import String Ascii DecimalString.
From Stdlib Require Import QArith Qround Qabs Qpower ZArith List Bool.
From Stdlib Require Import Lia Lqa Permutation Sorted Arith SetoidList SetoidPermutation.
Import ListNotations.

Local Open Scope string_scope.
Local Open Scope Q_scope.

(* ================================================================== *)
(** * Python values: exceptions and results *)

Module Py.

Inductive exn : Type :=
| ValueError (msg : string)
| ZeroDivisionError
| IndexError
| TypeError.

Inductive py (A : Type) : Type :=
| Ok (a : A)
| Raise (e : exn).

Arguments Ok {A} a.
Arguments Raise {A} e.

Definition bind {A B : Type} (c : py A) (k : A -> py B) : py B :=
  match c with
  | Ok a => k a
  | Raise e => Raise e
  end.

Definition raises {A : Type} (c : py A) : Prop :=
  exists e, c = Raise e.

Definition returns {A : Type} (c : py A) : Prop :=
  exists a, c = Ok a.

(** An insertion-ordered dictionary with string keys. *)
Definition dict (V : Type) : Type := list (string * V).

Fixpoint dict_get {V : Type} (k : string) (d : dict V) : option V :=
  match d with
  | [] => None
  | (k', v) :: d' => if String.eqb k k' then Some v else dict_get k d'
  end.

(** [d[k] = v]: overwrite in place when the key exists, append otherwise. *)
Fixpoint dict_set {V : Type} (k : string) (v : V) (d : dict V) : dict V :=
  match d with
  | [] => [(k, v)]
  | (k', v') :: d' =>
      if String.eqb k k' then (k, v) :: d' else (k', v') :: dict_set k v d'
  end.

(** [d.update(items)] *)
Definition dict_update {V : Type} (d : dict V) (items : list (string * V)) : dict V :=
  fold_left (fun acc kv => dict_set (fst kv) (snd kv) acc) items d.

Definition dict_keys {V : Type} (d : dict V) : list string := map fst d.

(** [str(n)] for a non-negative integer. *)
Definition string_of_nat (n : nat) : string :=
  NilEmpty.string_of_uint (Nat.to_uint n).

End Py.

Export Py.

Notation "x <- c ;; k" := (bind c (fun x => k))
  (at level 61, c at next level, right associativity).

(* ================================================================== *)
(** * Floats and the numpy primitives used by the operations *)

Module Np.

(** A float: finite (kept exact), not-a-number, or an infinity. *)
Inductive fval : Type :=
| Fin (q : Q)
| NaN
| PInf
| NInf.

Definition Qltb (x y : Q) : bool := negb (Qle_bool y x).
Definition Qeqb (x y : Q) : bool := Qeq_bool x y.

Definition Qnat (n : nat) : Q := inject_Z (Z.of_nat n).

(** [np.round]: to the nearest integer, halves to the even one. *)
Definition round_half_even (x : Q) : Z :=
  let f := Qfloor x in
  let d := x - inject_Z f in
  if Qltb d (1 # 2) then f
  else if Qltb (1 # 2) d then (f + 1)%Z
  else if Z.even f then f else (f + 1)%Z.

(** The floor of the base-2 logarithm of a positive rational. *)
Definition ilog2 (a : Q) : Z :=
  let k := (Z.log2 (Qnum a) - Z.log2 (Zpos (Qden a)))%Z in
  if Qle_bool (2 ^ k) a then k else (k - 1)%Z.

(** The result of a float64 operation whose exact result is [x]: the
    nearest double, halves to the even significand.  A double is an
    integer of at most 53 bits times a power of two whose exponent is
    not below -1074.  Overflow is left out: the one operation that is
    rounded here, [v - 1] on a double [v], stays in range.

    Rounding is kept where it decides which branch the program takes on
    a whole range of inputs; elsewhere a float is its exact value. *)
Definition round_f64 (x : Q) : Q :=
  if Qeqb x 0 then 0
  else
    let e := Z.max (ilog2 (Qabs x) - 52) (-1074) in
    let m := round_half_even (Qabs x / 2 ^ e) in
    (if Qltb x 0 then - (1) else 1) * (inject_Z m * 2 ^ e).

(** Equality of floats up to the representation of the rational. *)
Definition feq (x y : fval) : Prop :=
  match x, y with
  | Fin p, Fin q => p == q
  | NaN, NaN => True
  | PInf, PInf => True
  | NInf, NInf => True
  | _, _ => False
  end.

Definition is_nan (x : fval) : bool :=
  match x with NaN => true | _ => false end.

(** numpy true division of finite floats: a zero divisor gives a
    not-a-number or an infinity (with a warning), it does not raise. *)
Definition np_div (x d : Q) : fval :=
  if Qeqb d 0 then
    if Qeqb x 0 then NaN else if Qltb 0 x then PInf else NInf
  else Fin (x / d).

Definition fneg (x : fval) : fval :=
  match x with
  | Fin q => Fin (- q)
  | NaN => NaN
  | PInf => NInf
  | NInf => PInf
  end.

Definition fadd (x y : fval) : fval :=
  match x, y with
  | Fin p, Fin q => Fin (p + q)
  | NaN, _ | _, NaN => NaN
  | PInf, NInf | NInf, PInf => NaN
  | PInf, _ | _, PInf => PInf
  | NInf, _ | _, NInf => NInf
  end.

Definition fsub (x y : fval) : fval := fadd x (fneg y).

(** Division of a float by a finite float. *)
Definition fdivq (x : fval) (d : Q) : fval :=
  match x with
  | Fin p => np_div p d
  | NaN => NaN
  | PInf => if Qeqb d 0 then PInf else if Qltb 0 d then PInf else NInf
  | NInf => if Qeqb d 0 then NInf else if Qltb 0 d then NInf else PInf
  end.

(** Python's [int / int]: raises on a zero divisor. *)
Definition py_div (x d : Q) : py Q :=
  if Qeqb d 0 then Raise ZeroDivisionError else Ok (x / d).

Definition np_sum (x : list Q) : Q := fold_right Qplus 0 x.

Definition np_mean (x : list Q) : fval := np_div (np_sum x) (Qnat (length x)).

Fixpoint np_diff (x : list Q) : list Q :=
  match x with
  | a :: ((b :: _) as t) => (b - a) :: np_diff t
  | _ => []
  end.

Fixpoint np_diff_nat (x : list nat) : list Z :=
  match x with
  | a :: ((b :: _) as t) => (Z.of_nat b - Z.of_nat a)%Z :: np_diff_nat t
  | _ => []
  end.

(** Number of [True] entries of a mask ([np.sum] of a boolean array). *)
Definition count_true (m : list bool) : nat := length (filter (fun b => b) m).

(** [np.mean] of a boolean array. *)
Definition mean_mask (m : list bool) : fval :=
  np_div (Qnat (count_true m)) (Qnat (length m)).

(** [x[mask]] *)
Fixpoint select {A : Type} (mask : list bool) (x : list A) : list A :=
  match mask, x with
  | b :: mask', a :: x' => if b then a :: select mask' x' else select mask' x'
  | _, _ => []
  end.

(** [np.where(mask)[0]] *)
Fixpoint where_from (i : nat) (mask : list bool) : list nat :=
  match mask with
  | [] => []
  | b :: mask' => if b then i :: where_from (S i) mask' else where_from (S i) mask'
  end.

Definition np_where (mask : list bool) : list nat := where_from 0 mask.

(** Sorting (the order statistics of numpy are those of the sorted array). *)
Fixpoint insert_by {A : Type} (leb : A -> A -> bool) (a : A) (s : list A) : list A :=
  match s with
  | [] => [a]
  | b :: s' => if leb a b then a :: s else b :: insert_by leb a s'
  end.

Fixpoint sort_by {A : Type} (leb : A -> A -> bool) (x : list A) : list A :=
  match x with
  | [] => []
  | a :: x' => insert_by leb a (sort_by leb x')
  end.

Definition sort (x : list Q) : list Q := sort_by Qle_bool x.

Definition sort_nat (x : list nat) : list nat := sort_by Nat.leb x.

Definition np_max (x : list Q) : Q :=
  match x with
  | [] => 0
  | a :: x' => fold_left (fun m b => if Qltb m b then b else m) x' a
  end.

Definition np_min (x : list Q) : Q :=
  match x with
  | [] => 0
  | a :: x' => fold_left (fun m b => if Qltb b m then b else m) x' a
  end.

(** [np.quantile(x, p, method='hazen')] on a non-empty array: the
    virtual index is [n*p - 1/2], clipped to the array, and the value is
    interpolated linearly between the two neighbouring order statistics. *)
Definition hazen_index (n : nat) (p : Q) : Q := Qnat n * p - (1 # 2).

Definition quantile_sorted (s : list Q) (p : Q) : Q :=
  let n := length s in
  let h := hazen_index n p in
  if Qle_bool (Qnat n - 1) h then last s 0
  else if Qltb h 0 then hd 0 s
  else
    let j := Z.to_nat (Qfloor h) in
    let g := h - inject_Z (Qfloor h) in
    nth j s 0 + g * (nth (S j) s 0 - nth j s 0).

Definition np_quantile_hazen (x : list Q) (p : Q) : Q :=
  quantile_sorted (sort x) p.

(** [np.linspace(0, 1, k + 1)] *)
Definition linspace01 (k : nat) : list Q :=
  map (fun i => Qnat i / Qnat k) (seq 0 (S k)).

(** [np.median] *)
Definition np_median (x : list Q) : fval :=
  let s := sort x in
  let n := length s in
  match n with
  | O => NaN
  | _ =>
      if Nat.even n
      then Fin ((nth (n / 2 - 1) s 0 + nth (n / 2) s 0) / 2)
      else Fin (nth (n / 2) s 0)
  end.

Section Sqrt.

(** The square root of the numeric library is a parameter: its result
    is a float, hence a rational, and no property of it is needed. *)
Variable np_sqrt : Q -> Q.

(** [np.std(x, ddof=1)]: not-a-number below two samples. *)
Definition np_std1 (x : list Q) : fval :=
  match x with
  | [] | [_] => NaN
  | _ =>
      let n := Qnat (length x) in
      let m := np_sum x / n in
      Fin (np_sqrt (np_sum (map (fun v => (v - m) * (v - m)) x) / (n - 1)))
  end.

End Sqrt.

End Np.

Export Np.

(* ================================================================== *)
(** * ExtremeEvents.py *)

Module ExtremeEvents.

(** One pass of the loop [for i in range(1, N)]: [qprev] is [q[i-1]],
    the list holds [y[i], y[i+1], ...] (absolute values).  The result
    lists [q[i], ...] and [kicks[i], ...]. *)
Fixpoint barrier (a b qprev : Q) (ys : list Q) : list Q * list Q :=
  match ys with
  | [] => ([], [])
  | yi :: ys' =>
      let qi := if Qltb qprev yi then (1 + a) * yi else (1 - b) * qprev in
      let ki := if Qltb qprev yi then qi - qprev else 0 in
      let (qs, ks) := barrier a b qi ys' in
      (qi :: qs, ki :: ks)
  end.

(** The barrier [q] and the array [kicks] after the loop, for [N >= 1]. *)
Definition trajectory (a b : Q) (yabs : list Q) : list Q * list Q :=
  let (qs, ks) := barrier a b 1 (tl yabs) in
  (1 :: qs, 0 :: ks).

Section WithSqrt.

Variable np_sqrt : Q -> Q.

Definition MovingThreshold (y : list Q) (a b : Q) : py (dict fval) :=
  if Qltb b 0 || Qltb 1 b then
    Raise (ValueError "The decay proportion, b, should be between 0 and 1")
  else
    let N := length y in
    let y := map Qabs y in
    match N with
    | O => Raise IndexError (* q[0] = 1 on an empty array *)
    | S _ =>
        let (q, kicks) := trajectory a b y in
        let out :=
          [ ("meanq", np_mean q);
            ("medianq", np_median q);
            ("iqrq", Fin (np_quantile_hazen q (75 # 100) - np_quantile_hazen q (25 # 100)));
            ("maxq", Fin (np_max q));
            ("minq", Fin (np_min q));
            ("stdq", np_std1 np_sqrt q);
            ("meanqover", np_mean (map (fun qy => fst qy - snd qy) (combine q y)));
            ("pkick", np_div (np_sum kicks) (Qnat N - 1)) ] in
        let fkicks := np_where (map (fun k => Qltb 0 k) kicks) in
        let Ikicks := map inject_Z (np_diff_nat fkicks) in
        let out := dict_set "stdkicks" (np_std1 np_sqrt Ikicks) out in
        let out := dict_set "meankickf" (np_mean Ikicks) out in
        let out := dict_set "mediankicksf" (np_median Ikicks) out in
        Ok out
    end.

End WithSqrt.

End ExtremeEvents.

(* ================================================================== *)
(** * Symbolic.py *)

Module Symbolic.

(** ** CoarseGrain *)

(** [yth[mask] = v] *)
Fixpoint mask_assign (mask : list bool) (v : nat) (yth : list nat) : list nat :=
  match mask, yth with
  | b :: mask', s :: yth' => (if b then v else s) :: mask_assign mask' v yth'
  | _, _ => yth
  end.

(** [(y > lo) & (y <= hi)] *)
Definition in_bin (lo hi : Q) (y : list Q) : list bool :=
  map (fun v => Qltb lo v && Qle_bool v hi) y.

(** The thresholds: Hazen quantiles at [linspace(0, 1, k + 1)], then
    [th[0] -= 1].  The subtraction is a float64 one: on a lowest
    quantile of large magnitude it leaves the threshold where it was. *)
Definition quantile_thresholds (y : list Q) (k : nat) : list Q :=
  match map (np_quantile_hazen y) (linspace01 k) with
  | [] => []
  | t0 :: ts => round_f64 (t0 - 1) :: ts
  end.

(** The loop [for i in range(numGroups): yth[(y > th[i]) & (y <= th[i+1])] = i + 1]
    started from [np.zeros(N)]. *)
Definition assign_groups (th : list Q) (k : nat) (y : list Q) : list nat :=
  fold_left
    (fun yth i => mask_assign (in_bin (nth i th 0) (nth (S i) th 0) y) (S i) yth)
    (seq 0 k) (repeat O (length y)).

Definition quantile_symbols (y : list Q) (k : nat) : list nat :=
  assign_groups (quantile_thresholds y k) k y.

Definition Qge0 (v : Q) : bool := Qle_bool 0 v.

(** The quadrant masks of the 2-d embedding [(m1, m2)]. *)
Definition quadrant (n : nat) (m1 m2 : Q) : bool :=
  match n with
  | 1%nat => Qge0 m2 && Qge0 m1
  | 2%nat => Qge0 m2 && Qltb m1 0
  | 3%nat => Qltb m2 0 && Qltb m1 0
  | _ => Qltb m2 0 && Qge0 m1
  end.

Definition octant (n : nat) (m1 m2 : Q) : bool :=
  match n with
  | 1%nat => quadrant 1 m1 m2 && Qltb m2 m1
  | 2%nat => quadrant 1 m1 m2 && Qle_bool m1 m2
  | 3%nat => quadrant 2 m1 m2 && Qle_bool (- m1) m2
  | 4%nat => quadrant 2 m1 m2 && Qltb m2 (- m1)
  | 5%nat => quadrant 3 m1 m2 && Qle_bool m1 m2
  | 6%nat => quadrant 3 m1 m2 && Qltb m2 m1
  | 7%nat => quadrant 4 m1 m2 && Qltb m2 (- m1)
  | _ => quadrant 4 m1 m2 && Qle_bool (- m1) m2
  end.

(** [yth[r1] = 1; ...; yth[rn] = n] started from zeros. *)
Definition assign_regions (region : nat -> Q -> Q -> bool) (n : nat)
    (m1 m2 : list Q) : list nat :=
  fold_left
    (fun yth g =>
       mask_assign (map (fun p => region g (fst p) (snd p)) (combine m1 m2)) g yth)
    (seq 1 n) (repeat O (length m1)).

(** The delay of the embedding: [numGroups], capped at [N // 25]. *)
Definition embed_tau (N numGroups : nat) : nat :=
  if (N <? 25 * numGroups)%nat then (N / 25)%nat else numGroups.

(** The final consistency check. *)
Definition check_assigned (yth : list nat) : py (list nat) :=
  if existsb (Nat.eqb 0) yth then
    Raise (ValueError "All values in the sequence were not assigned to a group")
  else Ok yth.

(** [numGroups] is an integer here; the string ['tau'] (delay from the
    autocorrelation function, an external estimator) is not covered.
    [np.quantile] on an empty array raises. With a zero delay [y[:-tau]]
    is empty while [y[tau:]] is the whole series, and combining the two
    masks fails unless the series has at most one point. *)
Definition CoarseGrain (y : list Q) (howtocg : string) (numGroups : nat)
  : py (list nat) :=
  let N := length y in
  if negb (existsb (String.eqb howtocg)
             ["updown"; "quantile"; "embed2quadrants"; "embed2octants"]) then
    Raise (ValueError "Unknown coarse-graining method")
  else if String.eqb howtocg "updown" || String.eqb howtocg "quantile" then
    let y := if String.eqb howtocg "updown" then np_diff y else y in
    match y with
    | [] => Raise IndexError
    | _ => check_assigned (quantile_symbols y numGroups)
    end
  else
    let tau := embed_tau N numGroups in
    let m1 := match tau with O => [] | _ => firstn (N - tau) y end in
    let m2 := skipn tau y in
    if negb (length m1 =? length m2)%nat && negb (length m2 =? 1)%nat then
      Raise (ValueError "operands could not be broadcast together")
    else if String.eqb howtocg "embed2quadrants" then
      check_assigned (assign_regions quadrant 4 m1 m2)
    else
      check_assigned (assign_regions octant 8 m1 m2).

(** ** TransitionMatrix *)

(** Row [i] of the count matrix. *)
Definition transition_row (yth : list nat) (k i : nat) : list Q :=
  let ri := map (Nat.eqb (S i)) yth in
  if (count_true ri =? 0)%nat then repeat 0 k
  else
    let ri_next := false :: removelast ri in
    map (fun j => Qnat (count_true (map (Nat.eqb (S j)) (select ri_next yth))))
        (seq 0 k).

Definition transition_counts (yth : list nat) (k : nat) : list (list Q) :=
  map (transition_row yth k) (seq 0 k).

(** [T / (N - 1)] *)
Definition normalize (T : list (list Q)) (N : nat) : list (list fval) :=
  map (map (fun c => np_div c (Qnat N - 1))) T.

Definition entry (T : list (list fval)) (i j : nat) : fval :=
  nth j (nth i T []) NaN.

Definition fsum (x : list fval) : fval := fold_right fadd (Fin 0) x.

Definition fabs (x : fval) : fval :=
  match x with
  | Fin q => Fin (Qabs q)
  | NaN => NaN
  | _ => PInf
  end.

Definition is_finite (x : fval) : bool :=
  match x with Fin _ => true | _ => false end.

Section TransitionMatrix.

(** [scipy.signal.resample] (band-limited resampling), used only for a
    lag above 1, and the square root behind [np.std]. *)
Variable ssre : list Q -> nat -> list Q.
Variable np_sqrt : Q -> Q.

(** The normalized matrix [T], as the code builds it before deriving
    the summary statistics. The lag is an integer (the string ['ac'],
    which calls the external autocorrelation estimator, is not covered). *)
Definition TransitionMatrix_T (y : list Q) (howtocg : string) (numGroups tau : nat)
  : py (list (list fval)) :=
  if (numGroups <? 2)%nat then
    Raise (ValueError "Too few groups for coarse-graining")
  else
    let y := if (1 <? tau)%nat
             then ssre y (Z.to_nat (Qceiling (Qnat (length y) / Qnat tau)))
             else y in
    let N := length y in
    yth <- CoarseGrain y howtocg numGroups ;;
    Ok (normalize (transition_counts yth numGroups) N).

Definition std_fval (x : list fval) : fval :=
  if forallb is_finite x
  then np_std1 np_sqrt (map (fun v => match v with Fin q => q | _ => 0 end) x)
  else NaN.

(** The features that are rational functions of [T]. The eigenvalue
    features ([stdeig], [maxeig], [mineig], [maximeig], [sumdiagcov],
    [stdeigcov], [maxeigcov]) are floating-point linear algebra and are
    not part of the mapping modelled here; what is kept of
    [np.linalg.eigvals] is that it raises on a matrix with a non-finite
    entry. *)
Definition TransitionMatrix (y : list Q) (howtocg : string) (numGroups tau : nat)
  : py (dict fval) :=
  T <- TransitionMatrix_T y howtocg numGroups tau ;;
  let k := numGroups in
  let name p i := String.append p (string_of_nat i) in
  let entries :=
    if (k <=? 3)%nat then
      map (fun i => (name "T" (S i), entry T (i mod k) (i / k))) (seq 0 (k * k))
    else
      map (fun i => (name "TD" (S i), entry T i i)) (seq 0 k) in
  let diag := map (fun i => entry T i i) (seq 0 k) in
  let pairs := list_prod (seq 0 k) (seq 0 k) in
  let out := (entries ++
    [ ("ondiag", fsum diag);
      ("stddiag", std_fval diag);
      ("symdiff", fsum (map (fun p => fabs (fsub (entry T (fst p) (snd p))
                                                  (entry T (snd p) (fst p)))) pairs));
      ("symsumdiff",
        fsub (fsum (map (fun p => entry T (fst p) (snd p))
                        (filter (fun p => (snd p <? fst p)%nat) pairs)))
             (fsum (map (fun p => entry T (fst p) (snd p))
                        (filter (fun p => (fst p <? snd p)%nat) pairs)))) ])%list in
  if forallb (forallb is_finite) T then Ok out
  else Raise (ValueError "Array must not contain infs or NaNs").

End TransitionMatrix.

(** ** The binarizer *)

(** Modelled from the spec: the external binarizer
    [Utilities.utils.binarize], which is not part of the two source
    files. [diff] encodes a positive successive difference as 1 and
    anything else as 0 (one sample fewer than the series); [mean] and
    [median] encode a value above the mean (median) as 1 and anything
    else as 0; an unknown method name is a parameter error. *)
Definition binarize (y : list Q) (binarizeHow : string) : py (list nat) :=
  let step (x : list Q) := map (fun v => if Qltb 0 v then 1%nat else 0%nat) x in
  let above (c : fval) :=
    match c with
    | Fin m => step (map (fun v => v - m) y)
    | _ => repeat 0%nat (length y)
    end in
  if String.eqb binarizeHow "diff" then Ok (step (np_diff y))
  else if String.eqb binarizeHow "mean" then Ok (above (np_mean y))
  else if String.eqb binarizeHow "median" then Ok (above (np_median y))
  else Raise (ValueError "Unknown binary transformation setting").

(** ** Motifs *)

(** What a feature function hands back: a bare scalar or a mapping. *)
Inductive result : Type :=
| Scalar (v : fval)
| Mapping (out : dict fval).

Fixpoint mapM {A B : Type} (f : A -> py B) (l : list A) : py (list B) :=
  match l with
  | [] => Ok []
  | a :: l' => b <- f a ;; bs <- mapM f l' ;; Ok (b :: bs)
  end.

Definition logical_and (a b : list bool) : list bool :=
  map (fun p => fst p && snd p) (combine a b).

Definition fpos (v : fval) : bool :=
  match v with
  | Fin q => Qltb 0 q
  | PInf => true
  | _ => false
  end.

Section WithLog.

(** The logarithm of the numeric library is a parameter. *)
Variable np_log : Q -> Q.

(** [_f_entropy]: [-np.sum(x[x > 0] * np.log(x[x > 0]))] *)
Definition f_entropy (x : list fval) : fval :=
  fneg (fsum (map (fun v => match v with
                            | Fin q => Fin (q * np_log q)
                            | other => other
                            end)
                  (filter fpos x))).

(** From the masks of the words of one length to those of the next:
    each mask loses its last position and is split by the symbol that
    follows ([0] is written [d], [1] is written [u]). *)
Definition extend_words (words : list (string * list bool)) (ynext : list nat)
  : list (string * list bool) :=
  flat_map
    (fun w =>
       let r := removelast (snd w) in
       [ (String.append (fst w) "d", logical_and r (map (Nat.eqb 0) ynext));
         (String.append (fst w) "u", logical_and r (map (Nat.eqb 1) ynext)) ])
    words.

Definition record_words (words : list (string * list bool)) : dict fval :=
  map (fun w => (fst w, mean_mask (snd w))) words.

(** The keys written by [MotifTwo] are pairwise distinct, so each
    assignment [out[key] = value] appends to the mapping. *)
Definition MotifTwo (y : list Q) (binarizeHow : string) : py result :=
  yBin <- binarize y binarizeHow ;;
  let N := length yBin in
  if (N <? 5)%nat then Ok (Scalar NaN)
  else
    let r1 := map (Nat.eqb 1) yBin in
    let r0 := map (Nat.eqb 0) yBin in
    let u := mean_mask r1 in
    let d := mean_mask r0 in
    let w1 := [("d", r0); ("u", r1)] in
    let w2 := extend_words w1 (skipn 1 yBin) in
    let w3 := extend_words w2 (skipn 2 yBin) in
    let w4 := extend_words w3 (skipn 3 yBin) in
    let p2 := record_words w2 in
    let p3 := record_words w3 in
    let p4 := record_words w4 in
    Ok (Mapping
          ([("u", u); ("d", d); ("h", f_entropy [d; u])]
           ++ p2 ++ [("hh", f_entropy (map snd p2))]
           ++ p3 ++ [("hhh", f_entropy (map snd p3))]
           ++ p4 ++ [("hhhh", f_entropy (map snd p4))])%list).

(** [chr(97 + j)] for [j] in [range(3)] *)
Definition letter (j : nat) : string :=
  match j with
  | 0%nat => "a"
  | 1%nat => "b"
  | _ => "c"
  end.

(** [r[:-1] if len(r) > 0 and r[-1] == N - L else r] *)
Definition trim_last (N L : nat) (r : list nat) : list nat :=
  match r with
  | [] => r
  | _ => if (Z.of_nat (last r 0%nat) =? Z.of_nat N - Z.of_nat L)%Z
         then removelast r else r
  end.

(** From the start positions of the words of length [L] to those of
    length [L + 1]: [r[yt[r + L] == j + 1]] for each next symbol. The
    positions kept by [trim_last] are below [N - L], so the index
    [r + L] stays inside [yt]. *)
Definition extend_positions (yt : list nat) (N L : nat)
    (words : list (string * list nat)) : list (string * list nat) :=
  flat_map
    (fun w =>
       let r := trim_last N L (snd w) in
       map (fun j => (String.append (fst w) (letter j),
                      filter (fun idx => (nth (idx + L) yt 0 =? S j)%nat) r))
           (seq 0 3))
    words.

(** [len(r) / (N - L)], a division of Python integers. *)
Definition record_positions (N L : nat) (words : list (string * list nat))
  : py (dict fval) :=
  mapM (fun w =>
          p <- py_div (Qnat (length (snd w))) (inject_Z (Z.of_nat N - Z.of_nat L)) ;;
          Ok (fst w, Fin p))
       words.

Definition MotifThree (y : list Q) (cgHow : string) : py (dict fval) :=
  yt <- (if String.eqb cgHow "quantile" then CoarseGrain y "quantile" 3
         else if String.eqb cgHow "diffquant" then CoarseGrain (np_diff y) "quantile" 3
         else Raise (ValueError "Unknown coarse-graining method")) ;;
  let N := length yt in
  let w1 := map (fun i => (letter i, np_where (map (Nat.eqb (S i)) yt))) (seq 0 3) in
  p1 <- record_positions N 0 w1 ;;
  let w2 := extend_positions yt N 1 w1 in
  p2 <- record_positions N 1 w2 ;;
  let w3 := extend_positions yt N 2 w2 in
  p3 <- record_positions N 2 w3 ;;
  let w4 := extend_positions yt N 3 w3 in
  p4 <- record_positions N 3 w4 ;;
  Ok (p1 ++ [("h", f_entropy (map snd p1))]
      ++ p2 ++ [("hh", f_entropy (map snd p2))]
      ++ p3 ++ [("hhh", f_entropy (map snd p3))]
      ++ p4 ++ [("hhhh", f_entropy (map snd p4))])%list.

End WithLog.

(** ** BinaryStats *)

(** The run lengths of one symbol: differences of the positions of the
    other symbol in the padded sequence, those equal to 1 dropped, minus 1. *)
Definition stretches (boundary : list bool) : list Q :=
  map (fun v => inject_Z (v - 1))
      (filter (fun v => negb (v =? 1)%Z) (np_diff_nat (np_where boundary))).

Definition mean_eq (x : list Q) (v : Q) : fval :=
  mean_mask (map (fun a => Qeqb a v) x).

Section WithSqrt.

Variable np_sqrt : Q -> Q.

Definition BinaryStats (y : list Q) (binaryMethod : string) : py (dict fval) :=
  yBin <- binarize y binaryMethod ;;
  let N := length yBin in
  let ones (l : list nat) := Qnat (count_true (map (Nat.eqb 1) l)) in
  let pupstat2 := np_div (ones (skipn (N / 2) yBin)) (ones (firstn (N / 2) yBin)) in
  let stretch0 :=
    stretches (true :: map (fun b => negb (b =? 0)%nat) yBin ++ [true])%list in
  let stretch1 :=
    stretches (true :: map (fun b => (b =? 0)%nat) yBin ++ [true])%list in
  pstretch1 <- py_div (Qnat (length stretch1)) (Qnat N) ;;
  let stats0 :=
    match stretch0 with
    | [] =>
        [ ("longstretch0", Fin 0); ("longstretch0norm", Fin 0);
          ("meanstretch0", Fin 0); ("meanstretch0norm", Fin 0);
          ("stdstretch0", NaN); ("stdstretch0norm", NaN) ]
    | _ =>
        [ ("longstretch0", Fin (np_max stretch0));
          ("longstretch0norm", np_div (np_max stretch0) (Qnat N));
          ("meanstretch0", np_mean stretch0);
          ("meanstretch0norm", fdivq (np_mean stretch0) (Qnat N));
          ("stdstretch0", np_std1 np_sqrt stretch0);
          ("stdstretch0norm", fdivq (np_std1 np_sqrt stretch0) (Qnat N)) ]
    end in
  let stats1 :=
    match stretch1 with
    | [] =>
        [ ("longstretch1", Fin 0); ("longstretch1norm", Fin 0);
          ("meanstretch1", Fin 0); ("meanstretch1norm", Fin 0);
          ("stdstretch1", NaN) ]
    | _ =>
        [ ("longstretch1", Fin (np_max stretch1));
          ("longstretch1norm", np_div (np_max stretch1) (Qnat N));
          ("meanstretch1", np_mean stretch1);
          ("meanstretch1norm", fdivq (np_mean stretch1) (Qnat N));
          ("stdstretch1", np_std1 np_sqrt stretch1);
          ("stdstretch1norm", fdivq (np_std1 np_sqrt stretch1) (Qnat N)) ]
    end in
  let get k d := match dict_get k d with Some v => v | None => NaN end in
  Ok ([("pupstat2", pupstat2); ("pstretch1", Fin pstretch1)]
      ++ stats0 ++ stats1
      ++ [ ("meanstretchdiff",
             fdivq (fsub (get "meanstretch1" stats1) (get "meanstretch0" stats0)) (Qnat N));
           ("stdstretchdiff",
             fdivq (fsub (get "stdstretch1" stats1) (get "stdstretch0" stats0)) (Qnat N));
           ("diff21stretch1", fsub (mean_eq stretch1 2) (mean_eq stretch1 1));
           ("diff21stretch0", fsub (mean_eq stretch0 2) (mean_eq stretch0 1)) ])%list.

End WithSqrt.

(** ** Surprise *)

(** The [memory] argument: a Python integer (a number of samples) or a
    float (a proportion of the series length when strictly between 0
    and 1). Negative integers are not covered. *)
Inductive memory_t : Type :=
| MemInt (m : nat)
| MemFloat (p : Q).

(** [if (memory > 0) and (memory < 1): memory = int(np.round(memory*len(y)))] *)
Definition resolve_memory (memory : memory_t) (leny : nat) : memory_t :=
  match memory with
  | MemInt m => MemInt m
  | MemFloat p =>
      if Qltb 0 p && Qltb p 1
      then MemInt (Z.to_nat (round_half_even (p * Qnat leny)))
      else MemFloat p
  end.

(** [int(N - memory)], the size of the permutation that is drawn; a
    negative size gives an empty permutation. *)
Definition draw_size (N : nat) (memory : memory_t) : nat :=
  match memory with
  | MemInt m => (N - m)%nat
  | MemFloat p => Z.to_nat (Qfloor (Qnat N - p))
  end.

(** [np.sort(rs[0:min(numIters, len(rs) - 1)])] with [rs = perm + memory] *)
Definition sampled_indices (perm : list nat) (m numIters : nat) : list nat :=
  let rs := map (fun i => (i + m)%nat) perm in
  sort_nat (firstn (Nat.min numIters (length rs - 1)) rs).

(** [yth[i]] for a possibly negative index. *)
Definition py_get (yth : list nat) (i : Z) : nat :=
  if (i <? 0)%Z then nth (Z.to_nat (Z.of_nat (length yth) + i)) yth 0%nat
  else nth (Z.to_nat i) yth 0%nat.

(** [yth[t - memory : t]] *)
Definition memory_window (yth : list nat) (m t : nat) : list nat :=
  firstn m (skipn (t - m) yth).

Definition prob_dist (yth : list nat) (m t : nat) : fval :=
  np_div (Qnat (count_true (map (Nat.eqb (nth t yth 0%nat)) (memory_window yth m t))))
         (Qnat m).

Definition prob_T1 (yth : list nat) (m t : nat) : fval :=
  let memory_data := memory_window yth m t in
  let inmem :=
    np_where (map (Nat.eqb (py_get yth (Z.of_nat t - 1))) (removelast memory_data)) in
  match inmem with
  | [] => Fin 0
  | _ => mean_mask (map (fun i => (nth (i + 1) memory_data 0 =? nth t yth 0)%nat) inmem)
  end.

Definition prob_T2 (yth : list nat) (m t : nat) : fval :=
  let memory_data := memory_window yth m t in
  let inmem1 :=
    np_where (map (Nat.eqb (py_get yth (Z.of_nat t - 1)))
                  (removelast (tl memory_data))) in
  let inmem2 :=
    np_where (map (fun i => (nth i memory_data 0 =? py_get yth (Z.of_nat t - 2))%nat)
                  inmem1) in
  match inmem2 with
  | [] => Fin 0
  | _ =>
      np_div (Qnat (count_true
                      (map (fun i => (nth (i + 2) memory_data 0 =? nth t yth 0)%nat)
                           inmem2)))
             (Qnat (length inmem2))
  end.

(** One pass of the loop body; an unknown prior raises. *)
Definition prob (whatPrior : string) (yth : list nat) (m t : nat) : py fval :=
  if String.eqb whatPrior "dist" then Ok (prob_dist yth m t)
  else if String.eqb whatPrior "T1" then Ok (prob_T1 yth m t)
  else if String.eqb whatPrior "T2" then Ok (prob_T2 yth m t)
  else Raise (ValueError "Unknown method").

(** [store[store == 0] = 1] *)
Definition zero_to_one (v : fval) : fval :=
  match v with
  | Fin q => if Qeqb q 0 then Fin 1 else v
  | _ => v
  end.

Definition fmulq (c : Q) (v : fval) : fval :=
  match v with
  | Fin q => Fin (c * q)
  | NaN => NaN
  | PInf => if Qeqb c 0 then NaN else if Qltb 0 c then PInf else NInf
  | NInf => if Qeqb c 0 then NaN else if Qltb 0 c then NInf else PInf
  end.

Definition fdiv (x y : fval) : fval :=
  match y with
  | Fin d => fdivq x d
  | NaN => NaN
  | _ => match x with Fin _ => Fin 0 | _ => NaN end
  end.

Definition finite_part (x : list fval) : list Q :=
  flat_map (fun v => match v with Fin q => [q] | _ => [] end) x.

(** A reduction of numpy on an array without infinities: not-a-number
    as soon as one entry is, the rational reduction otherwise. *)
Definition reduce (f : list Q -> fval) (x : list fval) : fval :=
  if forallb is_finite x then f (finite_part x) else NaN.

(** [np.sort] on an array without infinities: not-a-numbers go last. *)
Definition fsort (x : list fval) : list fval :=
  (map Fin (sort (finite_part x))
   ++ repeat NaN (length x - length (finite_part x)))%list.

Definition clip (x lo hi : Q) : Q :=
  if Qltb x lo then lo else if Qltb hi x then hi else x.

(** [mstats.mquantiles(store, p, alphap=0.5, betap=0.5)[0]] *)
Definition mquantile (x : list fval) (p : Q) : fval :=
  let s := fsort x in
  let n := length s in
  match n with
  | 0%nat => NaN
  | 1%nat => nth 0 s NaN
  | _ =>
      let aleph := Qnat n * p + (1 # 2) in
      let k := Z.to_nat (Qfloor (clip aleph 1 (Qnat n - 1))) in
      let gamma := clip (aleph - Qnat k) 0 1 in
      fadd (fmulq (1 - gamma) (nth (k - 1) s NaN)) (fmulq gamma (nth k s NaN))
  end.

Section Surprise.

Variable np_log : Q -> Q.
Variable np_sqrt : Q -> Q.

(** [-(np.log(store))] *)
Definition info_gain (v : fval) : fval :=
  match v with
  | Fin q =>
      if Qltb q 0 then NaN
      else if Qeqb q 0 then PInf
      else Fin (- np_log q)
  | NaN => NaN
  | PInf => NInf
  | NInf => NaN
  end.

(** The information gains: the probabilities of the sampled indices,
    padded with the untouched zeros of [np.zeros([numIters, 1])]. *)
Definition gains (probs : list fval) (numIters : nat) : list fval :=
  map (fun v => info_gain (zero_to_one v))
      (probs ++ repeat (Fin 0) (numIters - length probs))%list.

(** The summary of the information gains. *)
Definition summarize (store : list fval) (numIters : nat) : py (dict fval) :=
  match store with
  | [] => Raise (ValueError "zero-size array to reduction operation maximum")
  | _ =>
      let positive := filter fpos store in
      let vmin := match positive with
                  | [] => NaN
                  | _ => Fin (np_min (finite_part positive))
                  end in
      let vmean := reduce np_mean store in
      let vstd := reduce (np_std1 np_sqrt) store in
      let std_is_zero := match vstd with Fin sd => Qeqb sd 0 | _ => false end in
      let tstat :=
        if std_is_zero then NaN
        else fabs (fdiv (fsub vmean (Fin 1))
                        (fdivq vstd (np_sqrt (Qnat numIters)))) in
      Ok [ ("min", vmin);
           ("max", reduce (fun x => Fin (np_max x)) store);
           ("mean", vmean);
           ("sum", reduce (fun x => Fin (np_sum x)) store);
           ("median", reduce np_median store);
           ("lq", mquantile store (1 # 4));
           ("uq", mquantile store (3 # 4));
           ("std", vstd);
           ("tstat", tstat) ]
  end.

(** Everything after the permutation has been drawn. With a memory
    that is still a float the first slice [yth[t - memory : t]] raises. *)
Definition Surprise_from_draw (yth : list nat) (whatPrior : string)
    (memory : memory_t) (numIters : nat) (perm : list nat) : py (dict fval) :=
  match memory with
  | MemInt m =>
      probs <- mapM (prob whatPrior yth m) (sampled_indices perm m numIters) ;;
      summarize (gains probs numIters) numIters
  | MemFloat _ =>
      match Nat.min numIters (length perm - 1) with
      | O => summarize (gains [] numIters) numIters
      | S _ =>
          if existsb (String.eqb whatPrior) ["dist"; "T1"; "T2"]
          then Raise TypeError
          else Raise (ValueError "Unknown method")
      end
  end.

(** The global generator of [np.random]: its state, how a seed sets it
    and how a permutation is drawn from it are parameters. *)
Variable rng : Type.
Variable np_random_seed : Z -> rng.
Variable np_random_permutation : nat -> rng -> list nat * rng.

(** [Surprise], threading the state of the global generator. A seed
    outside [0, 2^32) is refused by [np.random.seed]. *)
Definition Surprise (y : list Q) (whatPrior : string) (memory : memory_t)
    (numGroups : nat) (coarseGrainMethod : string) (numIters : nat)
    (randomSeed : option Z) (g : rng) : py (dict fval) * rng :=
  let memory := resolve_memory memory (length y) in
  match CoarseGrain y coarseGrainMethod numGroups with
  | Raise e => (Raise e, g)
  | Ok yth =>
      let N := length yth in
      let seeded :=
        match randomSeed with
        | None => Ok g
        | Some s => if ((0 <=? s) && (s <? 2 ^ 32))%Z then Ok (np_random_seed s)
                    else Raise (ValueError "Seed must be between 0 and 2**32 - 1")
        end in
      match seeded with
      | Raise e => (Raise e, g)
      | Ok g1 =>
          let (perm, g2) := np_random_permutation (draw_size N memory) g1 in
          (Surprise_from_draw yth whatPrior memory numIters perm, g2)
      end
  end.

End Surprise.

(** ** BinaryStretch *)

(** [np.diff] and [np.max] on an array of integers. *)
Fixpoint np_diff_Z (x : list Z) : list Z :=
  match x with
  | a :: ((b :: _) as t) => (b - a)%Z :: np_diff_Z t
  | _ => []
  end.

Definition np_max_Z (x : list Z) : Z :=
  match x with
  | [] => 0%Z
  | a :: x' => fold_left Z.max x' a
  end.

Section BinaryStretch.

(** [signChange(diffs, 1)], the positions at which the sequence changes
    sign, comes from the utilities outside the two source files: it is
    a parameter, a function of the sequence it is given. *)
Variable signChange : list Q -> list Z.

(** The branch of one symbol: the positions of the symbol, their
    successive differences less 1.5, the positions of the sign changes
    of these, and the largest gap between two sign changes over [N];
    [None], returned as 0, with fewer than two sign changes. *)
Definition stretch_statistic (N : nat) (x : list nat) (symbol : nat) : fval :=
  let indices := np_where (map (fun b => (b =? symbol)%nat) x) in
  let diffs := map (fun d => inject_Z d - (3 # 2)) (np_diff_nat indices) in
  let sign_changes := signChange diffs in
  if (1 <? length sign_changes)%nat
  then np_div (inject_Z (np_max_Z (np_diff_Z sign_changes))) (Qnat N)
  else Fin 0.

(** The series is binarized by [np.where(x > 0, 1, 0)]. *)
Definition BinaryStretch (x : list Q) (stretchWhat : string) : py fval :=
  let N := length x in
  let x := map (fun v => if Qltb 0 v then 1%nat else 0%nat) x in
  if String.eqb stretchWhat "lseq1" then Ok (stretch_statistic N x 1)
  else if String.eqb stretchWhat "lseq0" then Ok (stretch_statistic N x 0)
  else Raise (ValueError "Unknown input").

End BinaryStretch.

End Symbolic.

(* ================================================================== *)
(** * Notions used to state the properties *)

Module Notions.

(** [v] lies in group [i] (counted from 0) of the thresholds [th]. *)
Definition in_group (th : list Q) (i : nat) (v : Q) : Prop :=
  nth i th 0 < v /\ v <= nth (S i) th 0.

(** The smallest sample. *)
Definition smallest (y : list Q) : Q := hd 0 (sort y).

(** [th[0] -= 1] has put the lowest threshold below the smallest sample
    (the aim of that statement: the first point is included). *)
Definition first_point_included (y : list Q) : Prop :=
  round_f64 (smallest y - 1) < smallest y.

(** Every sample is below [2^53] in magnitude. *)
Definition moderate (y : list Q) : Prop :=
  Forall (fun v => Qabs v < 2 ^ 53) y.

(** One iteration of the quantile loop, seen from a single sample. *)
Definition symbol_step (th : list Q) (v : Q) (s i : nat) : nat :=
  if Qltb (nth i th 0) v && Qle_bool v (nth (S i) th 0) then S i else s.

(** The symbol that the quantile loop leaves on a sample of value [v]. *)
Definition symbol_of (th : list Q) (k : nat) (v : Q) : nat :=
  fold_left (symbol_step th v) (seq 0 k) 0%nat.

(** Number of occurrences of the symbol [g]. *)
Definition count_symbol (g : nat) (yth : list nat) : nat :=
  count_occ Nat.eq_dec yth g.

(** No two samples of the series have the same value. *)
Definition pairwise_distinct (y : list Q) : Prop := NoDupA Qeq y.

(** Every symbol of the alphabet [1..k] occurs [N/k] times, give or take one. *)
Definition equiprobable (N k : nat) (yth : list nat) : Prop :=
  forall g, (1 <= g <= k)%nat ->
    Qabs (Qnat (count_symbol g yth) - Qnat N / Qnat k) <= 1.

(** Number of samples not above [c]. *)
Definition count_le (c : Q) (y : list Q) : nat :=
  length (filter (fun v => Qle_bool v c) y).

(** The adjacent pairs [(yth[t-1], yth[t])] of a symbol sequence. *)
Definition adjacent (yth : list nat) : list (nat * nat) := combine yth (tl yth).

(** Number of adjacent pairs equal to [(a, b)]. *)
Definition count_pairs (a b : nat) (yth : list nat) : nat :=
  length (filter (fun p => Nat.eqb a (fst p) && Nat.eqb b (snd p)) (adjacent yth)).

(** Sum of all the entries of a matrix. *)
Definition total (T : list (list fval)) : fval := Symbolic.fsum (concat T).

(** The empirical second-order transition estimate on the memory
    window [yth[t-m : t]]: among the positions of the window where the
    context (symbol at [t-2], symbol at [t-1]) occurs and is followed by
    a symbol of the window, the fraction followed by the symbol at [t];
    0 when there is no such position. *)
Definition T2_contexts (w : list nat) (s2 s1 : nat) : list nat :=
  filter (fun j => Nat.eqb (nth j w 0%nat) s2 && Nat.eqb (nth (j + 1) w 0%nat) s1)
         (seq 0 (length w - 2)).

Definition T2_estimate (yth : list nat) (m t : nat) : fval :=
  let w := Symbolic.memory_window yth m t in
  let ctx := T2_contexts w (Symbolic.py_get yth (Z.of_nat t - 2))
                           (Symbolic.py_get yth (Z.of_nat t - 1)) in
  match ctx with
  | [] => Fin 0
  | _ =>
      np_div (Qnat (length (filter (fun j => Nat.eqb (nth (j + 2) w 0%nat)
                                                     (nth t yth 0%nat)) ctx)))
             (Qnat (length ctx))
  end.

(** A finite, non-negative float. *)
Definition nonneg (v : fval) : Prop := exists q, v = Fin q /\ 0 <= q.

(** A probability: a finite float between 0 and 1. *)
Definition unit_prob (v : fval) : Prop := exists p, v = Fin p /\ 0 <= p /\ p <= 1.

(** Finite or not-a-number: not an infinity. *)
Definition finite_or_nan (v : fval) : Prop :=
  match v with
  | Fin _ | NaN => True
  | _ => False
  end.

(** Not-a-number, or finite and positive. *)
Definition positive_or_nan (v : fval) : Prop :=
  v = NaN \/ exists q, v = Fin q /\ 0 < q.

(** The information gains that [Surprise] reports are non-negative:
    maximum, mean, sum, median and the two quartiles are finite and
    non-negative, and the minimum positive gain is positive when there
    is one (not-a-number otherwise). *)
Definition reported_gains_nonneg (out : dict fval) : Prop :=
  (forall key, In key ["max"; "mean"; "sum"; "median"; "lq"; "uq"] ->
     exists v, dict_get key out = Some v /\ nonneg v) /\
  (exists v, dict_get "min" out = Some v /\ positive_or_nan v).

(** The thresholds do not decrease. *)
Definition monotone (th : list Q) (k : nat) : Prop :=
  forall i, (i < k)%nat -> nth i th 0 <= nth (S i) th 0.

(** A symbol of the binary alphabet. *)
Definition binary (b : nat) : Prop := b = 0%nat \/ b = 1%nat.

(** The three regimes of the virtual index. *)
Inductive regime (s : list Q) (h : Q) (r : Q) : Prop :=
| AtTop : Qnat (length s) - 1 <= h -> r = last s 0 -> regime s h r
| AtBottom : h < 0 -> h < Qnat (length s) - 1 -> r = hd 0 s -> regime s h r
| Inside (j : nat) :
    0 <= h -> Qnat j <= h -> h < Qnat j + 1 -> (S j < length s)%nat ->
    j = Z.to_nat (Qfloor h) ->
    r = nth j s 0 + (h - Qnat j) * (nth (S j) s 0 - nth j s 0) ->
    regime s h r.

(** The start positions of the words of length [L]: increasing, and
    each leaves room for [L] symbols. *)
Definition positions_ok (N L : nat) (r : list nat) : Prop :=
  StronglySorted lt r /\ Forall (fun i => (i + L <= N)%nat) r.

(** One step of the loop, read at position [i] of the arrays: [prev]
    is the barrier before the step. *)
Definition step_ok (a b prev yi qi ki : Q) : Prop :=
  (prev < yi -> qi = (1 + a) * yi /\ ki = qi - prev) /\
  (yi <= prev -> qi = (1 - b) * prev /\ ki = 0).

(** The symbol that a sequence of masked assignments [yth[r_g] = g],
    [g = 1..n], leaves on the point [(m1, m2)]. *)
Definition region_symbol (region : nat -> Q -> Q -> bool) (n : nat) (m1 m2 : Q) : nat :=
  fold_left (fun s g => if region g m1 m2 then g else s) (seq 1 n) 0%nat.

(** The four quadrants of the plane, the axes included as the masks
    include them. *)
Definition in_quadrant (g : nat) (m1 m2 : Q) : Prop :=
  match g with
  | 1%nat => 0 <= m1 /\ 0 <= m2
  | 2%nat => m1 < 0 /\ 0 <= m2
  | 3%nat => m1 < 0 /\ m2 < 0
  | 4%nat => 0 <= m1 /\ m2 < 0
  | _ => False
  end.

(** The eight octants: each quadrant cut by a diagonal. *)
Definition in_octant (g : nat) (m1 m2 : Q) : Prop :=
  match g with
  | 1%nat => in_quadrant 1 m1 m2 /\ m2 < m1
  | 2%nat => in_quadrant 1 m1 m2 /\ m1 <= m2
  | 3%nat => in_quadrant 2 m1 m2 /\ - m1 <= m2
  | 4%nat => in_quadrant 2 m1 m2 /\ m2 < - m1
  | 5%nat => in_quadrant 3 m1 m2 /\ m1 <= m2
  | 6%nat => in_quadrant 3 m1 m2 /\ m2 < m1
  | 7%nat => in_quadrant 4 m1 m2 /\ m2 < - m1
  | 8%nat => in_quadrant 4 m1 m2 /\ - m1 <= m2
  | _ => False
  end.

(** The size of the alphabet of each coarse-graining method. *)
Definition alphabet (howtocg : string) (numGroups : nat) : nat :=
  if String.eqb howtocg "embed2quadrants" then 4
  else if String.eqb howtocg "embed2octants" then 8
  else numGroups.

(** The points [(y[t], y[t + tau])] of the two-dimensional embedding. *)
Definition delay_pairs (y : list Q) (tau : nat) : list (Q * Q) :=
  combine (firstn (length y - tau) y) (skipn tau y).

(** The four methods that [CoarseGrain] knows. *)
Definition methods : list string :=
  ["updown"; "quantile"; "embed2quadrants"; "embed2octants"].

(** Number of adjacent pairs that repeat their symbol. *)
Definition count_repeats (yth : list nat) : nat :=
  length (filter (fun p => Nat.eqb (fst p) (snd p)) (adjacent yth)).

(** A truth value as a count. *)
Definition b2n (b : bool) : nat := if b then 1%nat else 0%nat.

(** How many of the masks hold at position [t]. *)
Definition holders (masks : list (list bool)) (t : nat) : nat :=
  list_sum (map (fun m => b2n (nth t m false)) masks).

(** The masks have length [n] and exactly one of them holds at every position. *)
Definition partition_of (n : nat) (masks : list (list bool)) : Prop :=
  Forall (fun m => length m = n) masks /\
  forall t, (t < n)%nat -> holders masks t = 1%nat.

(** The keys of the binary words of length [L], in the order of [MotifTwo]. *)
Fixpoint word_keys (L : nat) : list string :=
  match L with
  | O => [EmptyString]
  | S L' => flat_map (fun w => [String.append w "d"; String.append w "u"]) (word_keys L')
  end.

(** The words of length [L] (1 to 4) with their masks, as [MotifTwo]
    builds them from the binarized sequence. *)
Definition motif_words (yBin : list nat) (L : nat) : list (string * list bool) :=
  let w1 := [("d", map (Nat.eqb 0) yBin); ("u", map (Nat.eqb 1) yBin)] in
  let w2 := Symbolic.extend_words w1 (skipn 1 yBin) in
  let w3 := Symbolic.extend_words w2 (skipn 2 yBin) in
  let w4 := Symbolic.extend_words w3 (skipn 3 yBin) in
  match L with
  | 1%nat => w1
  | 2%nat => w2
  | 3%nat => w3
  | _ => w4
  end.

(** The key of the entropy of the words of length [L] (1 to 4). *)
Definition entropy_key (L : nat) : string :=
  match L with
  | 1%nat => "h"
  | 2%nat => "hh"
  | 3%nat => "hhh"
  | _ => "hhhh"
  end.

(** How many of the position lists hold the position [t]. *)
Definition occupants (rs : list (list nat)) (t : nat) : nat :=
  list_sum (map (fun r => count_occ Nat.eq_dec r t) rs).

(** The position lists of the words of length [L] are in order and each
    start position that leaves room for [L] symbols is in exactly one. *)
Definition cover_of (N L : nat) (rs : list (list nat)) : Prop :=
  Forall (positions_ok N L) rs /\
  forall t, (t + L <= N)%nat -> occupants rs t = 1%nat.

(** The keys of the words of length [L] over [a, b, c], in the order of
    [MotifThree]. *)
Fixpoint letter_keys (L : nat) : list string :=
  match L with
  | O => [EmptyString]
  | S L' => flat_map (fun w => map (fun j => String.append w (Symbolic.letter j))
                                   (seq 0 3)) (letter_keys L')
  end.

(** The words of length [L] (1 to 4) with their start positions, as
    [MotifThree] builds them from the symbol sequence. *)
Definition position_words (yt : list nat) (L : nat) : list (string * list nat) :=
  let N := length yt in
  let w1 := map (fun i => (Symbolic.letter i, np_where (map (Nat.eqb (S i)) yt)))
                (seq 0 3) in
  let w2 := Symbolic.extend_positions yt N 1 w1 in
  let w3 := Symbolic.extend_positions yt N 2 w2 in
  let w4 := Symbolic.extend_positions yt N 3 w3 in
  match L with
  | 1%nat => w1
  | 2%nat => w2
  | 3%nat => w3
  | _ => w4
  end.

(** Sum of a list of integers. *)
Definition zsum (l : list Z) : Z := fold_right Z.add 0%Z l.

(** Number of [False] entries of a mask. *)
Definition count_false (m : list bool) : nat := length (filter negb m).

(** Number of adjacent pairs whose first symbol is [a]. *)
Definition count_from (a : nat) (yth : list nat) : nat :=
  length (filter (fun p => Nat.eqb a (fst p)) (adjacent yth)).

(** The empirical first-order transition estimate on the memory window
    [yth[t-m : t]]: among the adjacent pairs of the window that start
    with the symbol at [t-1], the fraction that continue with the symbol
    at [t]; 0 when there is no such pair. *)
Definition T1_estimate (yth : list nat) (m t : nat) : fval :=
  let w := Symbolic.memory_window yth m t in
  let s1 := nth (t - 1) yth 0%nat in
  match count_from s1 w with
  | O => Fin 0
  | _ => np_div (Qnat (count_pairs s1 (nth t yth 0%nat) w)) (Qnat (count_from s1 w))
  end.

End Notions.

(* ================================================================== *)
(** * Properties *)

(** ** Booleans of the rational comparisons *)

Lemma Qltb_true (x y : Q) : Qltb x y = true <-> x < y.
Proof.
  unfold Qltb. rewrite negb_true_iff.
  split; intro H.
  - apply Qnot_le_lt. intro Hle. apply Qle_bool_iff in Hle. congruence.
  - destruct (Qle_bool y x) eqn:E; [|reflexivity].
    apply Qle_bool_iff in E. exfalso. apply (Qlt_not_le _ _ H E).
Qed.

Lemma Qltb_false (x y : Q) : Qltb x y = false <-> y <= x.
Proof.
  unfold Qltb. rewrite negb_false_iff. apply Qle_bool_iff.
Qed.

Lemma Qle_bool_false (x y : Q) : Qle_bool x y = false <-> y < x.
Proof.
  split; intro H.
  - apply Qnot_le_lt. intro Hle. apply Qle_bool_iff in Hle. congruence.
  - destruct (Qle_bool x y) eqn:E; [|reflexivity].
    apply Qle_bool_iff in E. exfalso. apply (Qlt_not_le _ _ H E).
Qed.

Lemma Qeqb_true (x y : Q) : Qeqb x y = true <-> x == y.
Proof. apply Qeq_bool_iff. Qed.

Lemma Qeqb_false (x y : Q) : Qeqb x y = false <-> ~ x == y.
Proof.
  split; intro H.
  - intro E. apply Qeqb_true in E. congruence.
  - destruct (Qeqb x y) eqn:E; [|reflexivity].
    apply Qeqb_true in E. contradiction.
Qed.

Lemma Qnat_S (n : nat) : Qnat (S n) == Qnat n + 1.
Proof.
  unfold Qnat. rewrite Nat2Z.inj_succ. unfold Z.succ.
  rewrite inject_Z_plus. reflexivity.
Qed.

Lemma Qnat_nonneg (n : nat) : 0 <= Qnat n.
Proof.
  unfold Qnat. change 0 with (inject_Z 0). rewrite <- Zle_Qle. lia.
Qed.

Lemma Qnat_le (n m : nat) : (n <= m)%nat -> Qnat n <= Qnat m.
Proof. intro H. unfold Qnat. rewrite <- Zle_Qle. lia. Qed.

Lemma Qnat_lt (n m : nat) : (n < m)%nat -> Qnat n < Qnat m.
Proof. intro H. unfold Qnat. rewrite <- Zlt_Qlt. lia. Qed.

Lemma Qnat_plus (n m : nat) : Qnat (n + m) == Qnat n + Qnat m.
Proof. unfold Qnat. rewrite Nat2Z.inj_add, inject_Z_plus. reflexivity. Qed.

Lemma Qpower_succ_nat (x : Q) (k : nat) :
  x ^ Z.of_nat (S k) == x * x ^ Z.of_nat k.
Proof.
  rewrite Nat2Z.inj_succ. unfold Z.succ.
  rewrite Qpower_plus' by lia. change (x ^ 1) with x. apply Qmult_comm.
Qed.

(** ** MovingThreshold on a series of zeros *)

Module MovingThresholdProps.
Import ExtremeEvents.

Lemma np_sum_zeros (n : nat) : np_sum (repeat 0 n) == 0.
Proof.
  induction n as [|n IH]; simpl; [reflexivity|].
  rewrite IH. reflexivity.
Qed.

(** On zeros the barrier only decays: nothing is recorded in [kicks]
    and every step multiplies the barrier by [1 - b]. *)
Lemma barrier_zeros (a b : Q) (n : nat) :
  0 <= b -> b <= 1 ->
  forall qprev, 0 <= qprev ->
    snd (barrier a b qprev (repeat 0 n)) = repeat 0 n /\
    length (fst (barrier a b qprev (repeat 0 n))) = n /\
    forall i, (i < n)%nat ->
      nth i (fst (barrier a b qprev (repeat 0 n))) 0
      == (1 - b) ^ Z.of_nat (S i) * qprev.
Proof.
  intros Hb0 Hb1.
  induction n as [|n IH]; intros qprev Hq.
  - simpl. repeat split; intros; lia.
  - cbn [repeat barrier].
    assert (Hno : Qltb qprev 0 = false) by (apply Qltb_false; exact Hq).
    rewrite Hno.
    assert (Hq' : 0 <= (1 - b) * qprev).
    { apply Qmult_le_0_compat; [lra | exact Hq]. }
    destruct (IH _ Hq') as (Hk & Hl & Hv).
    destruct (barrier a b ((1 - b) * qprev) (repeat 0 n)) as [qs ks].
    cbn [fst snd] in *. subst ks. repeat split.
    + cbn [length]. now rewrite Hl.
    + intros [|i] Hi; cbn [nth].
      * rewrite Qpower_succ_nat. change (Z.of_nat 0) with 0%Z.
        cbn [Qpower]. ring.
      * rewrite Hv by lia. rewrite (Qpower_succ_nat _ (S i)). ring.
Qed.

Lemma trajectory_zeros (a b : Q) (n : nat) :
  0 <= b -> b <= 1 ->
  snd (trajectory a b (repeat 0 (S n))) = repeat 0 (S n) /\
  length (fst (trajectory a b (repeat 0 (S n)))) = S n /\
  forall i, (i < S n)%nat ->
    nth i (fst (trajectory a b (repeat 0 (S n)))) 0 == (1 - b) ^ Z.of_nat i.
Proof.
  intros Hb0 Hb1. unfold trajectory. simpl tl.
  assert (H1 : 0 <= 1) by lra.
  destruct (barrier_zeros a b n Hb0 Hb1 1 H1) as (Hk & Hl & Hv).
  destruct (barrier a b 1 (repeat 0 n)) as [qs ks].
  cbn [fst snd] in *. subst ks. repeat split.
  - cbn [length]. now rewrite Hl.
  - intros [|i] Hi; cbn [nth].
    + reflexivity.
    + rewrite Hv by lia. ring.
Qed.

(** What [MovingThreshold] reports for a valid [b] on a non-empty series. *)
Lemma MovingThreshold_returns (np_sqrt : Q -> Q) (y : list Q) (a b : Q) :
  0 <= b -> b <= 1 -> y <> [] ->
  exists out,
    MovingThreshold np_sqrt y a b = Ok out /\
    dict_get "meanq" out = Some (np_mean (fst (trajectory a b (map Qabs y)))) /\
    dict_get "pkick" out
    = Some (np_div (np_sum (snd (trajectory a b (map Qabs y))))
                   (Qnat (length y) - 1)).
Proof.
  intros Hb0 Hb1 Hy. unfold MovingThreshold.
  assert (E0 : Qltb b 0 = false) by (apply Qltb_false; exact Hb0).
  assert (E1 : Qltb 1 b = false) by (apply Qltb_false; exact Hb1).
  rewrite E0, E1. simpl orb. cbv iota.
  destruct y as [|y0 y']; [congruence|].
  cbn [length].
  destruct (trajectory a b (map Qabs (y0 :: y'))) as [q kicks].
  eexists. split; [reflexivity|]. split; reflexivity.
Qed.

End MovingThresholdProps.

(** C7. On a constant all-zero series of length [N >= 2], with [b] in
    [0, 1], [MovingThreshold] records no kick (the array [kicks] stays
    zero and no index has a positive kick), reports [pkick = 0], and its
    barrier is [q[i] = (1 - b)^i] at every index [i < N]. For
    [y = [0,0,0,0,0]], [a = 1], [b = 0.1] it reports as [meanq] the mean
    of [1, 0.9, 0.81, 0.729, 0.6561] and [pkick = 0]. *)
Theorem C7_MovingThreshold_zero_series
    (np_sqrt : Q -> Q) (N : nat) (a b : Q) :
  (2 <= N)%nat -> 0 <= b -> b <= 1 ->
  let y := repeat 0 N in
  let q := fst (ExtremeEvents.trajectory a b (map Qabs y)) in
  let kicks := snd (ExtremeEvents.trajectory a b (map Qabs y)) in
  kicks = repeat 0 N /\
  np_where (map (fun k => Qltb 0 k) kicks) = [] /\
  length q = N /\
  (forall i, (i < N)%nat -> nth i q 0 == (1 - b) ^ Z.of_nat i) /\
  (exists out pkick,
      ExtremeEvents.MovingThreshold np_sqrt y a b = Ok out /\
      dict_get "pkick" out = Some (Fin pkick) /\ pkick == 0) /\
  (exists out meanq pkick,
      ExtremeEvents.MovingThreshold np_sqrt [0; 0; 0; 0; 0] 1 (1 # 10) = Ok out /\
      dict_get "meanq" out = Some meanq /\
      feq meanq (np_mean [1; 9 # 10; 81 # 100; 729 # 1000; 6561 # 10000]) /\
      dict_get "pkick" out = Some (Fin pkick) /\ pkick == 0).
Proof.
  intros HN Hb0 Hb1 y q kicks.
  destruct N as [|n]; [lia|].
  assert (Hy : map Qabs y = repeat 0 (S n)).
  { unfold y. clear. induction (S n) as [|k IH]; simpl; [reflexivity|].
    now rewrite IH. }
  destruct (MovingThresholdProps.trajectory_zeros a b n Hb0 Hb1) as (Hk & Hl & Hv).
  unfold q, kicks. rewrite Hy.
  split; [exact Hk|]. split.
  { rewrite Hk. clear. unfold np_where. generalize 0%nat.
    induction (S n) as [|k IH]; intro i; simpl; [reflexivity|apply IH]. }
  split; [exact Hl|]. split; [exact Hv|]. split.
  - destruct (MovingThresholdProps.MovingThreshold_returns np_sqrt y a b Hb0 Hb1)
      as (out & Hout & _ & Hp).
    { unfold y. simpl. discriminate. }
    rewrite Hy, Hk in Hp.
    unfold np_div in Hp.
    assert (Hlen : length y = S n) by (unfold y; apply repeat_length).
    rewrite Hlen in Hp.
    assert (Hd : Qeqb (Qnat (S n) - 1) 0 = false).
    { apply Qeqb_false. rewrite Qnat_S.
      assert (0 < Qnat n) by (change 0 with (Qnat 0); apply Qnat_lt; lia).
      lra. }
    rewrite Hd in Hp.
    exists out. eexists. split; [exact Hout|]. split; [exact Hp|].
    rewrite MovingThresholdProps.np_sum_zeros. unfold Qdiv. ring.
  - eexists. eexists. eexists.
    split; [vm_compute; reflexivity|].
    split; [vm_compute; reflexivity|].
    split; [vm_compute; reflexivity|].
    split; [vm_compute; reflexivity|].
    reflexivity.
Qed.

Lemma C7_MovingThreshold_zero_series_witness :
  (2 <= 5)%nat /\ 0 <= 1 # 10 /\ 1 # 10 <= 1 /\
  (forall i, (i < 5)%nat ->
     nth i (fst (ExtremeEvents.trajectory 1 (1 # 10) (map Qabs (repeat 0 5%nat)))) 0
     == (1 - (1 # 10)) ^ Z.of_nat i).
Proof.
  split; [lia|]. split; [lra|]. split; [lra|].
  apply (C7_MovingThreshold_zero_series (fun v => v) 5 1 (1 # 10));
    [lia | lra | lra].
Defined.

(** ** Sorting and order statistics *)

Module SortProps.

Lemma insert_perm (a : Q) (s : list Q) :
  Permutation (insert_by Qle_bool a s) (a :: s).
Proof.
  induction s as [|b s IH]; cbn [insert_by].
  - apply Permutation_refl.
  - destruct (Qle_bool a b).
    + apply Permutation_refl.
    + eapply perm_trans; [apply perm_skip, IH | apply perm_swap].
Qed.

Lemma sort_perm (x : list Q) : Permutation (sort x) x.
Proof.
  unfold sort. induction x as [|a x IH]; cbn [sort_by].
  - apply perm_nil.
  - eapply perm_trans; [apply insert_perm | apply perm_skip, IH].
Qed.

Lemma sort_length (x : list Q) : length (sort x) = length x.
Proof. apply Permutation_length, sort_perm. Qed.

Lemma sort_In (x : list Q) (v : Q) : In v (sort x) <-> In v x.
Proof.
  split; apply Permutation_in; [apply sort_perm | apply Permutation_sym, sort_perm].
Qed.

Lemma insert_sorted (a : Q) (s : list Q) :
  StronglySorted Qle s -> StronglySorted Qle (insert_by Qle_bool a s).
Proof.
  induction s as [|b s IH]; intro Hs; cbn [insert_by].
  - constructor; constructor.
  - destruct (Qle_bool a b) eqn:E.
    + apply Qle_bool_iff in E.
      constructor; [exact Hs|].
      constructor; [exact E|].
      apply StronglySorted_inv in Hs. destruct Hs as [_ Hb].
      eapply Forall_impl; [|exact Hb].
      intros c Hc. eapply Qle_trans; eassumption.
    + assert (Hba : b <= a).
      { apply Qlt_le_weak, Qnot_le_lt. intro H. apply Qle_bool_iff in H. congruence. }
      apply StronglySorted_inv in Hs. destruct Hs as [Hs Hb].
      constructor; [apply IH, Hs|].
      eapply Permutation_Forall; [apply Permutation_sym, insert_perm|].
      constructor; assumption.
Qed.

Lemma sort_sorted (x : list Q) : StronglySorted Qle (sort x).
Proof.
  unfold sort. induction x as [|a x IH]; cbn [sort_by].
  - constructor.
  - apply insert_sorted, IH.
Qed.

Lemma sorted_nth_le (s : list Q) :
  StronglySorted Qle s ->
  forall i j, (i <= j)%nat -> (j < length s)%nat -> nth i s 0 <= nth j s 0.
Proof.
  induction 1 as [|a s Hs IH Ha]; intros i j Hij Hj.
  - simpl in Hj. lia.
  - destruct j as [|j].
    + assert (i = 0%nat) by lia. subst i. apply Qle_refl.
    + destruct i as [|i]; cbn [nth].
      * rewrite Forall_forall in Ha. apply Ha, nth_In. simpl in Hj. lia.
      * apply IH; simpl in Hj; lia.
Qed.

Lemma hd_nth (s : list Q) : hd 0 s = nth 0 s 0.
Proof. destruct s; reflexivity. Qed.

Lemma last_nth (s : list Q) : last s 0 = nth (length s - 1) s 0.
Proof.
  induction s as [|a s IH]; [reflexivity|].
  destruct s as [|b s]; [reflexivity|].
  change (last (a :: b :: s) 0) with (last (b :: s) 0).
  replace (length (a :: b :: s) - 1)%nat with (S (length (b :: s) - 1))
    by (simpl; lia).
  cbn [nth]. exact IH.
Qed.

Lemma sorted_bounds (s : list Q) (v : Q) :
  StronglySorted Qle s -> In v s -> hd 0 s <= v /\ v <= last s 0.
Proof.
  intros Hs Hv. destruct (In_nth _ _ 0 Hv) as (i & Hi & E).
  rewrite hd_nth, last_nth, <- E.
  split; apply sorted_nth_le; try assumption; lia.
Qed.

End SortProps.

(** ** The Hazen quantile *)

Module QuantileProps.
Import Notions SortProps.

Lemma Qnat_floor (h : Q) :
  0 <= h -> Qnat (Z.to_nat (Qfloor h)) = inject_Z (Qfloor h).
Proof.
  intro H. unfold Qnat. rewrite Z2Nat.id; [reflexivity|].
  change 0%Z with (Qfloor 0). apply Qfloor_resp_le, H.
Qed.

Lemma quantile_regime (s : list Q) (p : Q) :
  regime s (hazen_index (length s) p) (quantile_sorted s p).
Proof.
  unfold quantile_sorted.
  set (h := hazen_index (length s) p).
  destruct (Qle_bool (Qnat (length s) - 1) h) eqn:E1.
  - apply AtTop; [apply Qle_bool_iff, E1 | reflexivity].
  - assert (H1 : h < Qnat (length s) - 1).
    { apply Qnot_le_lt. intro H. apply Qle_bool_iff in H. congruence. }
    destruct (Qltb h 0) eqn:E2.
    + apply Qltb_true in E2. apply AtBottom; [assumption | assumption | reflexivity].
    + apply Qltb_false in E2.
      pose proof (Qnat_floor h E2) as Hj.
      apply (Inside s h _ (Z.to_nat (Qfloor h))); try assumption.
      * rewrite Hj. apply Qfloor_le.
      * rewrite Hj. pose proof (Qlt_floor h) as Hlt.
        rewrite inject_Z_plus in Hlt. exact Hlt.
      * assert (Hlt : Qnat (Z.to_nat (Qfloor h)) < Qnat (length s) - 1).
        { rewrite Hj. eapply Qle_lt_trans; [apply Qfloor_le | exact H1]. }
        unfold Qnat in Hlt.
        assert (Hz : (Z.of_nat (Z.to_nat (Qfloor h)) + 1 < Z.of_nat (length s))%Z).
        { rewrite Zlt_Qlt, inject_Z_plus. change (inject_Z 1) with 1. lra. }
        lia.
      * reflexivity.
      * rewrite Hj. reflexivity.
Qed.

(** A quantile of a sorted non-empty array lies between its ends, and
    inside the array between the two order statistics it interpolates. *)
Lemma inside_between (s : list Q) (h : Q) (j : nat) :
  StronglySorted Qle s -> Qnat j <= h -> h < Qnat j + 1 -> (S j < length s)%nat ->
  let r := nth j s 0 + (h - Qnat j) * (nth (S j) s 0 - nth j s 0) in
  nth j s 0 <= r /\ r <= nth (S j) s 0.
Proof.
  intros Hs H1 H2 Hj r. subst r.
  assert (Hd : nth j s 0 <= nth (S j) s 0) by (apply sorted_nth_le; [assumption|lia|lia]).
  set (a := nth j s 0) in *. set (b := nth (S j) s 0) in *.
  set (g := h - Qnat j).
  assert (Hg0 : 0 <= g) by (unfold g; lra).
  assert (Hg1 : g <= 1) by (unfold g; lra).
  split.
  - assert (0 <= g * (b - a)) by (apply Qmult_le_0_compat; lra). lra.
  - assert (0 <= (1 - g) * (b - a)) by (apply Qmult_le_0_compat; lra).
    assert (E : b - (a + g * (b - a)) == (1 - g) * (b - a)) by ring.
    lra.
Qed.

Lemma quantile_bounds (s : list Q) (p : Q) :
  StronglySorted Qle s -> s <> [] ->
  hd 0 s <= quantile_sorted s p /\ quantile_sorted s p <= last s 0.
Proof.
  intros Hs Hne.
  assert (Hlen : (0 < length s)%nat) by (destruct s; [congruence | simpl; lia]).
  assert (Hends : hd 0 s <= last s 0).
  { rewrite hd_nth, last_nth. apply sorted_nth_le; [assumption|lia|lia]. }
  destruct (quantile_regime s p) as [_ E | _ _ E | j _ H1 H2 Hj _ E]; rewrite E.
  - split; [exact Hends | apply Qle_refl].
  - split; [apply Qle_refl | exact Hends].
  - destruct (inside_between s _ j Hs H1 H2 Hj) as [Ha Hb].
    rewrite hd_nth, last_nth. split.
    + eapply Qle_trans; [|exact Ha]. apply sorted_nth_le; [assumption|lia|lia].
    + eapply Qle_trans; [exact Hb|]. apply sorted_nth_le; [assumption|lia|lia].
Qed.

Lemma hazen_index_mono (n : nat) (p p' : Q) :
  p <= p' -> hazen_index n p <= hazen_index n p'.
Proof.
  intro H. unfold hazen_index.
  assert (Qnat n * p <= Qnat n * p').
  { rewrite !(Qmult_comm (Qnat n)). apply Qmult_le_compat_r; [exact H | apply Qnat_nonneg]. }
  lra.
Qed.

(** The quantile is non-decreasing in the probability. *)
Lemma quantile_mono (s : list Q) (p p' : Q) :
  StronglySorted Qle s -> s <> [] -> p <= p' ->
  quantile_sorted s p <= quantile_sorted s p'.
Proof.
  intros Hs Hne Hp.
  pose proof (hazen_index_mono (length s) p p' Hp) as Hh.
  pose proof (quantile_bounds s p Hs Hne) as [Hlo Hhi].
  pose proof (quantile_bounds s p' Hs Hne) as [Hlo' Hhi'].
  destruct (quantile_regime s p') as [_ E' | Hneg' Hlt' E' | j' _ H1' H2' Hj' _ E'].
  - rewrite E'. exact Hhi.
  - destruct (quantile_regime s p) as [Htop _ | _ _ E | j H0 _ _ _ _ _].
    + lra.
    + rewrite E, E'. apply Qle_refl.
    + lra.
  - destruct (quantile_regime s p) as [Htop _ | _ _ E | j _ H1 H2 Hj _ E].
    + exfalso.
      assert (Hle : Qnat (S (S j')) <= Qnat (length s)) by (apply Qnat_le; lia).
      rewrite !Qnat_S in Hle. lra.
    + rewrite E. exact Hlo'.
    + destruct (inside_between s _ j Hs H1 H2 Hj) as [Ha Hb].
      destruct (inside_between s _ j' Hs H1' H2' Hj') as [Ha' Hb'].
      destruct (Nat.lt_trichotomy j j') as [Hlt | [Heq | Hgt]].
      * rewrite E. eapply Qle_trans; [exact Hb|].
        rewrite E'. eapply Qle_trans; [|exact Ha'].
        apply sorted_nth_le; [assumption|lia|lia].
      * subst j'. rewrite E, E'.
        assert (Hd : nth j s 0 <= nth (S j) s 0)
          by (apply sorted_nth_le; [assumption|lia|lia]).
        assert (Hm : (hazen_index (length s) p - Qnat j) * (nth (S j) s 0 - nth j s 0)
                     <= (hazen_index (length s) p' - Qnat j) * (nth (S j) s 0 - nth j s 0)).
        { apply Qmult_le_compat_r; lra. }
        lra.
      * exfalso.
        assert (Hq : Qnat (S j') <= Qnat j) by (apply Qnat_le; lia).
        rewrite Qnat_S in Hq. lra.
Qed.

End QuantileProps.
(** ** Rounding *)

Module RoundingProps.
Import Notions Symbolic.

Lemma floor_bounds (x : Q) :
  inject_Z (Qfloor x) <= x /\ x < inject_Z (Qfloor x) + 1.
Proof.
  split; [apply Qfloor_le|].
  pose proof (Qlt_floor x) as H. rewrite inject_Z_plus in H. exact H.
Qed.

(** Rounding moves a number by at most one half. *)
Lemma round_half_even_near (x : Q) :
  - (1 # 2) <= inject_Z (round_half_even x) - x /\
  inject_Z (round_half_even x) - x <= 1 # 2.
Proof.
  unfold round_half_even. destruct (floor_bounds x) as [Hlo Hhi].
  destruct (Qltb (x - inject_Z (Qfloor x)) (1 # 2)) eqn:E1.
  { apply Qltb_true in E1. split; lra. }
  apply Qltb_false in E1.
  destruct (Qltb (1 # 2) (x - inject_Z (Qfloor x))) eqn:E2.
  { rewrite inject_Z_plus. change (inject_Z 1) with 1. split; lra. }
  apply Qltb_false in E2.
  destruct (Z.even (Qfloor x)).
  - split; lra.
  - rewrite inject_Z_plus. change (inject_Z 1) with 1. split; lra.
Qed.

(** *** Powers of two *)

Lemma two_neq_0 : ~ 2 == 0.
Proof. intro H. discriminate H. Qed.

Lemma pow2_pos (e : Z) : 0 < 2 ^ e.
Proof. apply Qpower_0_lt. reflexivity. Qed.

Lemma pow2_succ (e : Z) : 2 ^ (e + 1) == 2 * 2 ^ e.
Proof. rewrite (Qpower_plus 2 e 1 two_neq_0). change (2 ^ 1) with 2. ring. Qed.

Lemma pow2_pred (e : Z) : 2 * 2 ^ (e - 1) == 2 ^ e.
Proof.
  rewrite <- pow2_succ. replace (e - 1 + 1)%Z with e by lia. reflexivity.
Qed.

Lemma pow2_le_1 (e : Z) : (e <= 0)%Z -> 2 ^ e <= 1.
Proof.
  intro H. change 1 with (2 ^ 0).
  apply Qpower_le_compat_l; [exact H | discriminate].
Qed.

Lemma pow2_lt_inv (n m : Z) : 2 ^ n < 2 ^ m -> (n < m)%Z.
Proof. intro H. apply (Qpower_lt_compat_l_inv 2); [exact H | reflexivity]. Qed.

Lemma pow2_inject (n : Z) : (0 <= n)%Z -> inject_Z (2 ^ n) == 2 ^ n.
Proof. intro H. rewrite (Zpower_Qpower 2 n H). reflexivity. Qed.

(** *** The base-2 logarithm *)

Lemma log2_bounds (n : Z) :
  (0 < n)%Z ->
  2 ^ Z.log2 n <= inject_Z n /\ inject_Z n < 2 * 2 ^ Z.log2 n.
Proof.
  intro Hn. destruct (Z.log2_spec n Hn) as [Hlo Hhi].
  pose proof (Z.log2_nonneg n) as H0.
  split.
  - rewrite <- pow2_inject by exact H0. rewrite <- Zle_Qle. exact Hlo.
  - rewrite <- pow2_succ. rewrite <- pow2_inject by lia.
    rewrite <- Zlt_Qlt. exact Hhi.
Qed.

Lemma ilog2_spec (a : Q) :
  0 < a -> 2 ^ ilog2 a <= a /\ a < 2 ^ (ilog2 a + 1).
Proof.
  intro Ha. unfold ilog2.
  set (ln := Z.log2 (Qnum a)). set (ld := Z.log2 (Z.pos (Qden a))).
  assert (Hn : (0 < Qnum a)%Z).
  { destruct a as [n d]. unfold Qlt in Ha. cbn in Ha |- *. lia. }
  destruct (log2_bounds (Qnum a) Hn) as [N1 N2]. fold ln in N1, N2.
  destruct (log2_bounds (Z.pos (Qden a)) ltac:(lia)) as [D1 D2]. fold ld in D1, D2.
  assert (Ea : a * inject_Z (Z.pos (Qden a)) == inject_Z (Qnum a)).
  { destruct a as [n d]. cbn [Qnum Qden]. rewrite (Qmake_Qdiv n d). field.
    intro H. discriminate H. }
  assert (Ek : 2 ^ (ln - ld) * 2 ^ ld == 2 ^ ln).
  { rewrite (Qpower_minus 2 ln ld two_neq_0). field.
    pose proof (pow2_pos ld). lra. }
  pose proof (pow2_pos ld) as Pd. pose proof (pow2_pos ln) as Pn.
  pose proof (pow2_pos (ln - ld)) as Pk.
  set (A := inject_Z (Qnum a)) in *. set (D := inject_Z (Z.pos (Qden a))) in *.
  set (R := 2 ^ ld) in *. set (P := 2 ^ ln) in *. set (T := 2 ^ (ln - ld)) in *.
  assert (HD : 0 < D) by lra.
  assert (Hlo : T < 2 * a).
  { apply (Qmult_lt_r _ _ R Pd).
    assert (a * D < a * (2 * R)) by (apply Qmult_lt_l; assumption).
    lra. }
  assert (Hhi : a < 2 * T).
  { apply (Qmult_lt_r _ _ D HD).
    assert (T * R <= T * D) by (apply Qmult_le_l; assumption).
    lra. }
  destruct (Qle_bool T a) eqn:E.
  - apply Qle_bool_iff in E. split; [exact E|].
    rewrite pow2_succ. fold T. exact Hhi.
  - apply Qle_bool_false in E.
    replace (ln - ld - 1 + 1)%Z with (ln - ld)%Z by lia. fold T.
    split; [|exact E].
    pose proof (pow2_pred (ln - ld)) as Hp. fold T in Hp. lra.
Qed.

Lemma ilog2_lt (a : Q) (n : Z) : 0 < a -> a < 2 ^ n -> (ilog2 a < n)%Z.
Proof.
  intros Ha Hn. destruct (ilog2_spec a Ha) as [Hlo _].
  apply pow2_lt_inv. lra.
Qed.

Lemma ilog2_ge (a : Q) (n : Z) : 0 < a -> 2 ^ n <= a -> (n <= ilog2 a)%Z.
Proof.
  intros Ha Hn. destruct (ilog2_spec a Ha) as [_ Hhi].
  assert (n < ilog2 a + 1)%Z by (apply pow2_lt_inv; lra). lia.
Qed.

(** *** The nearest double *)

Lemma round_f64_unfold (x : Q) (e : Z) :
  ~ x == 0 -> e = Z.max (ilog2 (Qabs x) - 52) (-1074) ->
  round_f64 x =
  (if Qltb x 0 then - (1) else 1) * (inject_Z (round_half_even (Qabs x / 2 ^ e)) * 2 ^ e).
Proof.
  intros Hx ->. unfold round_f64.
  apply Qeqb_false in Hx. rewrite Hx. reflexivity.
Qed.

(** The magnitude of the result is the scaled significand. *)
Lemma round_f64_scaled (x : Q) (e : Z) :
  ~ x == 0 -> e = Z.max (ilog2 (Qabs x) - 52) (-1074) ->
  let m := inject_Z (round_half_even (Qabs x / 2 ^ e)) in
  (x < 0 -> round_f64 x == - (m * 2 ^ e)) /\
  (0 < x -> round_f64 x == m * 2 ^ e) /\
  - ((1 # 2) * 2 ^ e) <= m * 2 ^ e - Qabs x <= (1 # 2) * 2 ^ e.
Proof.
  intros Hx He m. rewrite (round_f64_unfold x e Hx He). fold m.
  pose proof (pow2_pos e) as Pe.
  split; [|split].
  - intro H. apply Qltb_true in H. rewrite H. ring.
  - intro H. assert (H' : 0 <= x) by lra. apply Qltb_false in H'. rewrite H'. ring.
  - destruct (round_half_even_near (Qabs x / 2 ^ e)) as [Hlo Hhi]. fold m in Hlo, Hhi.
    assert (Eq : Qabs x / 2 ^ e * 2 ^ e == Qabs x) by (field; lra).
    set (q := Qabs x / 2 ^ e) in *. set (p := 2 ^ e) in *.
    assert (H1 : (m - q) * p <= (1 # 2) * p) by (apply Qmult_le_compat_r; lra).
    assert (H2 : (- (1 # 2)) * p <= (m - q) * p) by (apply Qmult_le_compat_r; lra).
    assert (E3 : (m - q) * p == m * p - q * p) by ring.
    clearbody m q p. split; lra.
Qed.

(** Below [2^53] in magnitude the doubles are at most 1 apart: rounding
    moves a number by at most one half. *)
Lemma round_f64_near (x : Q) :
  Qabs x < 2 ^ 53 ->
  - (1 # 2) <= round_f64 x - x /\ round_f64 x - x <= 1 # 2.
Proof.
  intro Hb.
  destruct (Qeq_dec x 0) as [E | Hx].
  { unfold round_f64. pose proof E as E'. apply Qeqb_true in E'. rewrite E'.
    split; lra. }
  assert (Ha : 0 < Qabs x).
  { pose proof (Qabs_nonneg x) as H0.
    destruct (Qle_lt_or_eq _ _ H0) as [H | H]; [exact H|].
    exfalso. apply Hx. destruct (Qlt_le_dec x 0) as [Hn | Hp].
    - rewrite (Qabs_neg x) in H by lra. lra.
    - rewrite (Qabs_pos x Hp) in H. lra. }
  pose proof (ilog2_lt (Qabs x) 53 Ha Hb) as HL.
  set (e := Z.max (ilog2 (Qabs x) - 52) (-1074)).
  assert (He : (e <= 0)%Z) by (unfold e; lia).
  pose proof (pow2_le_1 e He) as P1. pose proof (pow2_pos e) as P0.
  destruct (round_f64_scaled x e Hx eq_refl) as (Hneg & Hpos & Hnear).
  cbv zeta in Hneg, Hpos, Hnear. fold e in Hneg, Hpos, Hnear.
  set (m := inject_Z (round_half_even (Qabs x / 2 ^ e))) in *.
  set (p := 2 ^ e) in *.
  destruct (Qlt_le_dec x 0) as [Hn | Hp].
  - rewrite (Hneg Hn). rewrite (Qabs_neg x) in Hnear by lra. split; lra.
  - assert (Hp' : 0 < x) by lra.
    rewrite (Hpos Hp'). rewrite (Qabs_pos x Hp) in Hnear. split; lra.
Qed.

(** Just below [-2^53] the doubles are 2 apart and the nearest one is
    [-2^53] itself. *)
Lemma round_f64_edge (x : Q) :
  - (2 ^ 53) - 1 < x -> x <= - (2 ^ 53) -> round_f64 x == - (2 ^ 53).
Proof.
  intros Hlo Hhi.
  assert (P53 : 2 ^ 53 == 9007199254740992) by reflexivity.
  assert (P54 : 2 ^ 54 == 18014398509481984) by reflexivity.
  assert (Hx : ~ x == 0) by lra.
  assert (Ea : Qabs x == - x) by (apply Qabs_neg; lra).
  assert (Ha : 0 < Qabs x) by lra.
  assert (HL : ilog2 (Qabs x) = 53%Z).
  { pose proof (ilog2_lt (Qabs x) 54 Ha ltac:(lra)).
    pose proof (ilog2_ge (Qabs x) 53 Ha ltac:(lra)). lia. }
  destruct (round_f64_scaled x 1 Hx ltac:(rewrite HL; reflexivity)) as (Hneg & _ & _).
  cbv zeta in Hneg. rewrite (Hneg ltac:(lra)). clear Hneg.
  change (2 ^ 1) with 2.
  destruct (round_half_even_near (Qabs x / 2)) as [N1 N2].
  set (m := round_half_even (Qabs x / 2)) in *.
  assert (Eh : Qabs x / 2 == - x * (1 # 2)) by (rewrite Ea; field).
  assert (M1 : inject_Z (4503599627370496 - 1) < inject_Z m).
  { change (inject_Z (4503599627370496 - 1)) with 4503599627370495. lra. }
  assert (M2 : inject_Z m < inject_Z (4503599627370496 + 1)).
  { change (inject_Z (4503599627370496 + 1)) with 4503599627370497. lra. }
  rewrite <- Zlt_Qlt in M1, M2.
  assert (Em : m = 4503599627370496%Z) by lia.
  rewrite Em, P53. reflexivity.
Qed.

(** Subtracting 1 from a number below [2^53] in magnitude gives a
    smaller double. *)
Lemma decrement_effective (v : Q) :
  Qabs v < 2 ^ 53 -> round_f64 (v - 1) < v.
Proof.
  intro Hv. apply Qabs_Qlt_condition in Hv. destruct Hv as [Hlo Hhi].
  destruct (Qlt_le_dec (- (2 ^ 53)) (v - 1)) as [Hin | Hout].
  - assert (Hb : Qabs (v - 1) < 2 ^ 53).
    { apply Qabs_Qlt_condition. split; lra. }
    destruct (round_f64_near (v - 1) Hb) as [_ Hn]. lra.
  - rewrite (round_f64_edge (v - 1)) by lra. exact Hlo.
Qed.

Lemma round_half_even_int (x : Q) (n : Z) :
  x == inject_Z n -> round_half_even x = n.
Proof.
  intro E. unfold round_half_even.
  assert (Hf : Qfloor x = n) by (rewrite E; apply Qfloor_Z).
  rewrite Hf.
  assert (Hd : Qltb (x - inject_Z n) (1 # 2) = true) by (apply Qltb_true; lra).
  rewrite Hd. reflexivity.
Qed.

(** A double is left as it is: a significand of at most 53 bits, on
    the exponent of its binade or on the lowest exponent. *)
Lemma round_f64_exact (m e : Z) :
  (Z.abs m < 2 ^ 53)%Z ->
  ((2 ^ 52 <= Z.abs m)%Z /\ (-1074 <= e)%Z) \/ e = (-1074)%Z ->
  round_f64 (inject_Z m * 2 ^ e) == inject_Z m * 2 ^ e.
Proof.
  intros Hm Hn. set (x := inject_Z m * 2 ^ e).
  pose proof (pow2_pos e) as Pe.
  destruct (Z.eq_dec m 0) as [-> | Hm0].
  { unfold round_f64.
    assert (E : Qeqb x 0 = true) by (apply Qeqb_true; unfold x; ring).
    rewrite E. unfold x. ring. }
  assert (Ea : Qabs x == inject_Z (Z.abs m) * 2 ^ e).
  { unfold x. rewrite Qabs_Qmult. rewrite (Qabs_pos (2 ^ e)) by lra.
    apply Qmult_comp; [|reflexivity].
    destruct m as [|p|p]; reflexivity. }
  assert (Hpos : 0 < inject_Z (Z.abs m)).
  { change 0 with (inject_Z 0). rewrite <- Zlt_Qlt. lia. }
  assert (Hx : ~ x == 0).
  { intro E. rewrite E in Ea. change (Qabs 0) with 0 in Ea.
    assert (0 < inject_Z (Z.abs m) * 2 ^ e) by (apply Qmult_lt_0_compat; assumption).
    lra. }
  assert (Ha : 0 < Qabs x).
  { rewrite Ea. apply Qmult_lt_0_compat; assumption. }
  assert (Hup : Qabs x < 2 ^ (53 + e)).
  { rewrite Ea, (Qpower_plus 2 53 e two_neq_0).
    apply Qmult_lt_compat_r; [exact Pe|].
    rewrite <- (pow2_inject 53) by lia. rewrite <- Zlt_Qlt. exact Hm. }
  assert (He : e = Z.max (ilog2 (Qabs x) - 52) (-1074)).
  { pose proof (ilog2_lt (Qabs x) (53 + e) Ha Hup) as H1.
    destruct Hn as [[Hlo He] | ->]; [|lia].
    assert (Hdn : 2 ^ (52 + e) <= Qabs x).
    { rewrite Ea, (Qpower_plus 2 52 e two_neq_0).
      apply Qmult_le_compat_r; [|lra].
      rewrite <- (pow2_inject 52) by lia. rewrite <- Zle_Qle. exact Hlo. }
    pose proof (ilog2_ge (Qabs x) (52 + e) Ha Hdn) as H2. lia. }
  rewrite (round_f64_unfold x e Hx He).
  assert (Er : round_half_even (Qabs x / 2 ^ e) = Z.abs m).
  { apply round_half_even_int. rewrite Ea. field. lra. }
  rewrite Er.
  destruct (Qltb x 0) eqn:Es.
  - apply Qltb_true in Es.
    assert (Hneg : (m < 0)%Z).
    { destruct (Z_lt_le_dec m 0) as [H | H]; [exact H|]. exfalso.
      assert (0 <= inject_Z m) by (change 0 with (inject_Z 0); rewrite <- Zle_Qle; exact H).
      assert (0 <= x) by (unfold x; apply Qmult_le_0_compat; lra). lra. }
    rewrite (Z.abs_neq m) by lia. rewrite inject_Z_opp. unfold x. ring.
  - apply Qltb_false in Es.
    assert (Hnn : (0 <= m)%Z).
    { destruct (Z_lt_le_dec m 0) as [H | H]; [|exact H]. exfalso.
      assert (Hlt : inject_Z m < 0) by (change 0 with (inject_Z 0); rewrite <- Zlt_Qlt; exact H).
      assert (Hxx : x < 0).
      { unfold x. setoid_replace 0 with (0 * 2 ^ e) by ring.
        apply Qmult_lt_compat_r; assumption. }
      lra. }
    rewrite (Z.abs_eq m Hnn). unfold x. ring.
Qed.

(** The values that the decrement meets around [2^53] and at [1e17]. *)
Lemma round_f64_examples :
  round_f64 (1 - 1) == 0 /\
  round_f64 ((1 # 10) - 1) == - (8106479329266893 # 9007199254740992) /\
  round_f64 (2 ^ 53 - 1) == 2 ^ 53 - 1 /\
  round_f64 (2 ^ 53 + 1) == 2 ^ 53 /\
  round_f64 (2 ^ 53 + 3) == 2 ^ 53 + 4 /\
  round_f64 (- (2 ^ 53) - 1) == - (2 ^ 53) /\
  round_f64 (10 ^ 17 - 1) == 10 ^ 17.
Proof. repeat split; vm_compute; reflexivity. Qed.

End RoundingProps.

(** ** CoarseGrain with the quantile method *)

Module CoarseGrainProps.
Import Notions SortProps QuantileProps Symbolic.

Lemma in_group_test (th : list Q) (i : nat) (v : Q) :
  Qltb (nth i th 0) v && Qle_bool v (nth (S i) th 0) = true <-> in_group th i v.
Proof.
  unfold in_group. rewrite andb_true_iff, Qltb_true, Qle_bool_iff. reflexivity.
Qed.

Lemma in_group_dec (th : list Q) (i : nat) (v : Q) :
  {in_group th i v} + {~ in_group th i v}.
Proof.
  destruct (Qltb (nth i th 0) v && Qle_bool v (nth (S i) th 0)) eqn:E.
  - left. apply in_group_test, E.
  - right. intro H. apply in_group_test in H. congruence.
Qed.

(** *** The loop, sample by sample *)

Lemma mask_assign_step (th : list Q) (i : nat) (y : list Q) (f : Q -> nat) :
  mask_assign (in_bin (nth i th 0) (nth (S i) th 0) y) (S i) (map f y)
  = map (fun v => symbol_step th v (f v) i) y.
Proof.
  unfold in_bin, symbol_step.
  induction y as [|v y IH]; cbn [map mask_assign]; [reflexivity|].
  rewrite IH. reflexivity.
Qed.

Lemma assign_fold (th : list Q) (y : list Q) (l : list nat) :
  forall f : Q -> nat,
    fold_left
      (fun yth i => mask_assign (in_bin (nth i th 0) (nth (S i) th 0) y) (S i) yth)
      l (map f y)
    = map (fun v => fold_left (symbol_step th v) l (f v)) y.
Proof.
  induction l as [|i l IH]; intro f; cbn [fold_left].
  - reflexivity.
  - rewrite mask_assign_step. apply (IH (fun v => symbol_step th v (f v) i)).
Qed.

Lemma assign_groups_map (th : list Q) (k : nat) (y : list Q) :
  assign_groups th k y = map (symbol_of th k) y.
Proof.
  unfold assign_groups, symbol_of.
  replace (repeat 0%nat (length y)) with (map (fun _ : Q => 0%nat) y).
  - apply assign_fold.
  - induction y as [|v y IH]; cbn [map length repeat]; [reflexivity|].
    now rewrite IH.
Qed.

Lemma symbol_of_S (th : list Q) (k : nat) (v : Q) :
  symbol_of th (S k) v = symbol_step th v (symbol_of th k v) k.
Proof.
  unfold symbol_of. rewrite seq_S, fold_left_app. reflexivity.
Qed.

Lemma symbol_of_le (th : list Q) (k : nat) (v : Q) : (symbol_of th k v <= k)%nat.
Proof.
  induction k as [|k IH]; [apply Nat.le_refl|].
  rewrite symbol_of_S. unfold symbol_step.
  destruct (Qltb (nth k th 0) v && Qle_bool v (nth (S k) th 0)); lia.
Qed.

(** The symbol is the last group (in loop order) that holds the value. *)
Lemma symbol_of_spec (th : list Q) (k : nat) (v : Q) :
  match symbol_of th k v with
  | O => forall i, (i < k)%nat -> ~ in_group th i v
  | S i => (i < k)%nat /\ in_group th i v /\
           forall j, (i < j < k)%nat -> ~ in_group th j v
  end.
Proof.
  induction k as [|k IH].
  - cbn. intros i Hi. lia.
  - rewrite symbol_of_S. unfold symbol_step.
    destruct (Qltb (nth k th 0) v && Qle_bool v (nth (S k) th 0)) eqn:E.
    + split; [lia|]. split; [apply in_group_test, E|]. intros j Hj. lia.
    + assert (Hk : ~ in_group th k v).
      { intro H. apply in_group_test in H. congruence. }
      destruct (symbol_of th k v) as [|i].
      * intros i Hi. destruct (Nat.eq_dec i k) as [->|]; [exact Hk|].
        apply IH. lia.
      * destruct IH as (Hi & Hin & Hlast). split; [lia|]. split; [exact Hin|].
        intros j Hj. destruct (Nat.eq_dec j k) as [->|]; [exact Hk|].
        apply Hlast. lia.
Qed.

Lemma symbol_of_zero (th : list Q) (k : nat) (v : Q) :
  symbol_of th k v = 0%nat <-> forall i, (i < k)%nat -> ~ in_group th i v.
Proof.
  pose proof (symbol_of_spec th k v) as H.
  destruct (symbol_of th k v) as [|i].
  - split; [intros _; exact H | reflexivity].
  - split; [discriminate|]. intro Hno. destruct H as (Hi & Hin & _).
    exfalso. exact (Hno i Hi Hin).
Qed.

(** *** Groups cover the half-open range of the thresholds *)

Lemma groups_cover (th : list Q) (v : Q) (k : nat) :
  nth 0 th 0 < v -> v <= nth k th 0 -> exists i, (i < k)%nat /\ in_group th i v.
Proof.
  intro Hlo. induction k as [|k IH]; intro Hhi.
  - exfalso. apply (Qlt_not_le _ _ Hlo Hhi).
  - destruct (Qlt_le_dec (nth k th 0) v) as [Hk | Hk].
    + exists k. split; [lia|]. split; assumption.
    + destruct (IH Hk) as (i & Hi & Hin). exists i. split; [lia | exact Hin].
Qed.

Lemma monotone_le (th : list Q) (k : nat) :
  monotone th k -> forall i j, (i <= j)%nat -> (j <= k)%nat -> nth i th 0 <= nth j th 0.
Proof.
  intros Hm i j Hij. induction Hij as [|j Hij IH]; intro Hj.
  - apply Qle_refl.
  - eapply Qle_trans; [apply IH; lia | apply Hm; lia].
Qed.

Lemma groups_disjoint (th : list Q) (k : nat) (v : Q) (i j : nat) :
  monotone th k -> (i < k)%nat -> (j < k)%nat ->
  in_group th i v -> in_group th j v -> i = j.
Proof.
  intros Hm Hi Hj [Hi1 Hi2] [Hj1 Hj2].
  destruct (Nat.lt_trichotomy i j) as [Hlt | [Heq | Hgt]]; [|exact Heq|]; exfalso.
  - assert (nth (S i) th 0 <= nth j th 0) by (apply (monotone_le th k Hm); lia).
    lra.
  - assert (nth (S j) th 0 <= nth i th 0) by (apply (monotone_le th k Hm); lia).
    lra.
Qed.

Lemma symbol_of_unique (th : list Q) (k : nat) (v : Q) (i : nat) :
  monotone th k -> (i < k)%nat -> in_group th i v -> symbol_of th k v = S i.
Proof.
  intros Hm Hi Hin.
  pose proof (symbol_of_spec th k v) as H.
  destruct (symbol_of th k v) as [|j].
  - exfalso. exact (H i Hi Hin).
  - destruct H as (Hj & Hjn & _). f_equal.
    exact (groups_disjoint th k v j i Hm Hj Hi Hjn Hin).
Qed.

(** *** The thresholds *)

Lemma Qnat_0 : Qnat 0 = 0.
Proof. reflexivity. Qed.

Lemma Qnat_pos (k : nat) : (1 <= k)%nat -> 0 < Qnat k.
Proof. intro H. rewrite <- Qnat_0. apply Qnat_lt. lia. Qed.

Lemma frac_mono (i j k : nat) :
  (i <= j)%nat -> Qnat i / Qnat k <= Qnat j / Qnat k.
Proof.
  intro H. unfold Qdiv. apply Qmult_le_compat_r; [apply Qnat_le, H|].
  apply Qinv_le_0_compat, Qnat_nonneg.
Qed.

Lemma frac_0 (k : nat) : Qnat 0 / Qnat k == 0.
Proof. rewrite Qnat_0. unfold Qdiv. ring. Qed.

Lemma frac_1 (k : nat) : (1 <= k)%nat -> Qnat k / Qnat k == 1.
Proof.
  intro H. unfold Qdiv. apply Qmult_inv_r.
  pose proof (Qnat_pos k H). lra.
Qed.

Lemma quantile_at_0 (s : list Q) (p : Q) :
  s <> [] -> p == 0 -> quantile_sorted s p = hd 0 s.
Proof.
  intros Hs Hp. unfold quantile_sorted.
  assert (Hn : 1 <= Qnat (length s)).
  { change 1 with (Qnat 1). apply Qnat_le. destruct s; [congruence | simpl; lia]. }
  assert (Hh : hazen_index (length s) p == - (1 # 2)).
  { unfold hazen_index. rewrite Hp. ring. }
  destruct (Qle_bool (Qnat (length s) - 1) (hazen_index (length s) p)) eqn:E1.
  - apply Qle_bool_iff in E1. lra.
  - destruct (Qltb (hazen_index (length s) p) 0) eqn:E2; [reflexivity|].
    apply Qltb_false in E2. lra.
Qed.

Lemma quantile_at_1 (s : list Q) (p : Q) :
  p == 1 -> quantile_sorted s p = last s 0.
Proof.
  intro Hp. unfold quantile_sorted.
  assert (Hh : hazen_index (length s) p == Qnat (length s) - (1 # 2)).
  { unfold hazen_index. rewrite Hp. ring. }
  destruct (Qle_bool (Qnat (length s) - 1) (hazen_index (length s) p)) eqn:E1;
    [reflexivity|].
  exfalso.
  assert (H : Qnat (length s) - 1 <= hazen_index (length s) p) by lra.
  apply Qle_bool_iff in H. congruence.
Qed.

Lemma sort_nonempty (y : list Q) : y <> [] -> sort y <> [].
Proof.
  intros Hy E. apply Hy. apply Permutation_nil. rewrite <- E. apply sort_perm.
Qed.

Lemma smallest_In (y : list Q) : y <> [] -> In (smallest y) y.
Proof.
  intro Hy. apply sort_In. unfold smallest.
  pose proof (sort_nonempty y Hy) as Hs.
  destruct (sort y) as [|a s]; [congruence | left; reflexivity].
Qed.

Lemma smallest_le (y : list Q) (v : Q) : In v y -> smallest y <= v.
Proof.
  intro Hv. apply sort_In in Hv.
  exact (proj1 (sorted_bounds (sort y) v (sort_sorted y) Hv)).
Qed.

Lemma quantile_lowest (y : list Q) (k : nat) :
  y <> [] -> np_quantile_hazen y (Qnat 0 / Qnat k) = smallest y.
Proof.
  intro Hy. unfold np_quantile_hazen.
  apply quantile_at_0; [apply sort_nonempty, Hy | apply frac_0].
Qed.

(** The lowest threshold is the double that [th[0] -= 1] leaves. *)
Lemma thresholds_nth_0 (y : list Q) (k : nat) :
  y <> [] ->
  nth 0 (quantile_thresholds y k) 0 = round_f64 (smallest y - 1).
Proof.
  intro Hy. rewrite <- (quantile_lowest y k Hy). reflexivity.
Qed.

Lemma thresholds_nth_S (y : list Q) (k i : nat) :
  (i < k)%nat ->
  nth (S i) (quantile_thresholds y k) 0 = np_quantile_hazen y (Qnat (S i) / Qnat k).
Proof.
  intro Hi. unfold quantile_thresholds, linspace01.
  cbn [seq map nth].
  rewrite (nth_indep _ 0 (np_quantile_hazen y (Qnat 0 / Qnat k)))
    by (rewrite !length_map, length_seq; exact Hi).
  rewrite map_map.
  rewrite (map_nth (fun i => np_quantile_hazen y (Qnat i / Qnat k)) (seq 1 k) 0%nat i).
  rewrite seq_nth by exact Hi. reflexivity.
Qed.

Lemma thresholds_length (y : list Q) (k : nat) :
  length (quantile_thresholds y k) = S k.
Proof.
  unfold quantile_thresholds, linspace01. cbn [seq map length].
  rewrite !length_map, length_seq. reflexivity.
Qed.

(** The thresholds after the lowest one do not go below the smallest
    sample. *)
Lemma thresholds_above_smallest (y : list Q) (k i : nat) :
  y <> [] -> (i < k)%nat -> smallest y <= nth (S i) (quantile_thresholds y k) 0.
Proof.
  intros Hy Hi. rewrite (thresholds_nth_S y k i Hi).
  rewrite <- (quantile_lowest y k Hy). unfold np_quantile_hazen.
  apply quantile_mono; [apply sort_sorted | apply sort_nonempty, Hy |].
  apply frac_mono. lia.
Qed.

Lemma thresholds_monotone (y : list Q) (k : nat) :
  y <> [] -> first_point_included y -> monotone (quantile_thresholds y k) k.
Proof.
  intros Hy Hinc i Hi.
  destruct i as [|i].
  - rewrite (thresholds_nth_0 y k Hy).
    pose proof (thresholds_above_smallest y k 0 Hy Hi) as Hm.
    unfold first_point_included in Hinc. lra.
  - rewrite (thresholds_nth_S y k i) by lia.
    rewrite (thresholds_nth_S y k (S i) Hi). unfold np_quantile_hazen.
    apply quantile_mono; [apply sort_sorted | apply sort_nonempty, Hy |].
    apply frac_mono. lia.
Qed.

(** No sample is above the highest threshold. *)
Lemma thresholds_top (y : list Q) (k : nat) (v : Q) :
  (1 <= k)%nat -> In v y -> v <= nth k (quantile_thresholds y k) 0.
Proof.
  intros Hk Hv.
  assert (Hin : In v (sort y)) by (apply sort_In, Hv).
  destruct (sorted_bounds (sort y) v (sort_sorted y) Hin) as [_ Hhi].
  destruct k as [|k]; [lia|].
  rewrite (thresholds_nth_S y (S k) k) by lia. unfold np_quantile_hazen.
  rewrite (quantile_at_1 _ _ (frac_1 (S k) Hk)). exact Hhi.
Qed.

(** When the decrement has taken effect, every sample is above the
    lowest threshold and not above the highest. *)
Lemma thresholds_enclose (y : list Q) (k : nat) (v : Q) :
  (1 <= k)%nat -> first_point_included y -> In v y ->
  nth 0 (quantile_thresholds y k) 0 < v /\ v <= nth k (quantile_thresholds y k) 0.
Proof.
  intros Hk Hinc Hv.
  assert (Hy : y <> []) by (intro E; rewrite E in Hv; exact Hv).
  split; [|apply thresholds_top; assumption].
  rewrite (thresholds_nth_0 y k Hy).
  pose proof (smallest_le y v Hv) as Hle.
  unfold first_point_included in Hinc. lra.
Qed.

(** Samples below [2^53] in magnitude: the decrement takes effect. *)
Lemma moderate_included (y : list Q) :
  y <> [] -> moderate y -> first_point_included y.
Proof.
  intros Hy Hm. unfold first_point_included.
  apply RoundingProps.decrement_effective.
  unfold moderate in Hm. rewrite Forall_forall in Hm.
  apply Hm, smallest_In, Hy.
Qed.

(** *** The symbols *)

Lemma quantile_symbols_map (y : list Q) (k : nat) :
  quantile_symbols y k = map (symbol_of (quantile_thresholds y k) k) y.
Proof. apply assign_groups_map. Qed.

Lemma quantile_symbols_length (y : list Q) (k : nat) :
  length (quantile_symbols y k) = length y.
Proof. rewrite quantile_symbols_map. apply length_map. Qed.

Lemma quantile_symbol_range (y : list Q) (k : nat) (v : Q) :
  (1 <= k)%nat -> first_point_included y -> In v y ->
  (1 <= symbol_of (quantile_thresholds y k) k v <= k)%nat.
Proof.
  intros Hk Hinc Hv. split; [|apply symbol_of_le].
  destruct (thresholds_enclose y k v Hk Hinc Hv) as [Hlo Hhi].
  destruct (groups_cover _ v k Hlo Hhi) as (i & Hi & Hin).
  destruct (symbol_of (quantile_thresholds y k) k v) eqn:E; [|lia].
  exfalso. exact (proj1 (symbol_of_zero _ _ _) E i Hi Hin).
Qed.

Lemma quantile_symbols_range (y : list Q) (k : nat) :
  (1 <= k)%nat -> first_point_included y ->
  Forall (fun s => (1 <= s <= k)%nat) (quantile_symbols y k).
Proof.
  intros Hk Hinc. rewrite quantile_symbols_map. apply Forall_map, Forall_forall.
  intros v Hv. apply quantile_symbol_range; assumption.
Qed.

(** When the decrement is lost, the smallest sample is in no group. *)
Lemma smallest_unassigned (y : list Q) (k : nat) :
  y <> [] -> ~ first_point_included y ->
  symbol_of (quantile_thresholds y k) k (smallest y) = 0%nat.
Proof.
  intros Hy Hinc. apply symbol_of_zero. intros i Hi [Hlo _].
  destruct i as [|i].
  - rewrite (thresholds_nth_0 y k Hy) in Hlo. exact (Hinc Hlo).
  - pose proof (thresholds_above_smallest y k i Hy ltac:(lia)) as Hge. lra.
Qed.

Lemma check_assigned_ok (yth : list nat) :
  ~ In 0%nat yth -> check_assigned yth = Ok yth.
Proof.
  intro H. unfold check_assigned.
  destruct (existsb (Nat.eqb 0) yth) eqn:E; [|reflexivity].
  exfalso. apply existsb_exists in E. destruct E as (s & Hs & Es).
  apply Nat.eqb_eq in Es. subst s. exact (H Hs).
Qed.

Lemma check_assigned_raises (yth : list nat) :
  raises (check_assigned yth) <-> In 0%nat yth.
Proof.
  unfold check_assigned, raises.
  destruct (existsb (Nat.eqb 0) yth) eqn:E.
  - split; [intros _ | intros _; eexists; reflexivity].
    apply existsb_exists in E. destruct E as (s & Hs & Es).
    apply Nat.eqb_eq in Es. subst s. exact Hs.
  - split; [intros (e & He); discriminate|].
    intro H. exfalso.
    assert (existsb (Nat.eqb 0) yth = true)
      by (apply existsb_exists; exists 0%nat; split; [exact H | reflexivity]).
    congruence.
Qed.

Lemma CoarseGrain_quantile (y : list Q) (k : nat) :
  y <> [] -> CoarseGrain y "quantile" k = check_assigned (quantile_symbols y k).
Proof.
  intro Hy. unfold CoarseGrain. cbn [existsb String.eqb Ascii.eqb Bool.eqb negb orb].
  destruct y; [congruence | reflexivity].
Qed.

Lemma CoarseGrain_quantile_ok (y : list Q) (k : nat) :
  y <> [] -> (1 <= k)%nat -> first_point_included y ->
  CoarseGrain y "quantile" k = Ok (quantile_symbols y k).
Proof.
  intros Hy Hk Hinc. rewrite (CoarseGrain_quantile y k Hy).
  apply check_assigned_ok. intro H0.
  pose proof (quantile_symbols_range y k Hk Hinc) as Hr.
  rewrite Forall_forall in Hr. specialize (Hr 0%nat H0). lia.
Qed.

Lemma CoarseGrain_quantile_unassigned (y : list Q) (k : nat) :
  y <> [] -> ~ first_point_included y ->
  CoarseGrain y "quantile" k
  = Raise (ValueError "All values in the sequence were not assigned to a group").
Proof.
  intros Hy Hinc. rewrite (CoarseGrain_quantile y k Hy).
  unfold check_assigned.
  assert (E : existsb (Nat.eqb 0) (quantile_symbols y k) = true).
  { apply existsb_exists. exists 0%nat. split; [|reflexivity].
    rewrite quantile_symbols_map, <- (smallest_unassigned y k Hy Hinc).
    apply in_map, smallest_In, Hy. }
  rewrite E. reflexivity.
Qed.

Lemma first_point_included_dec (y : list Q) :
  {first_point_included y} + {~ first_point_included y}.
Proof.
  unfold first_point_included.
  destruct (Qlt_le_dec (round_f64 (smallest y - 1)) (smallest y)) as [H | H].
  - left. exact H.
  - right. intro H'. lra.
Qed.

End CoarseGrainProps.

(** ** Group sizes of the quantile method *)

Module CountProps.
Import Notions SortProps QuantileProps CoarseGrainProps Symbolic.

Lemma count_le_perm (c : Q) (l l' : list Q) :
  Permutation l l' -> count_le c l = count_le c l'.
Proof.
  unfold count_le.
  induction 1 as [| a l l' _ IH | a b l | l l' l'' _ IH1 _ IH2]; cbn [filter].
  - reflexivity.
  - destruct (Qle_bool a c); cbn [length]; now rewrite IH.
  - destruct (Qle_bool a c), (Qle_bool b c); reflexivity.
  - now rewrite IH1.
Qed.

Lemma count_le_cons (c a : Q) (l : list Q) :
  count_le c (a :: l) = ((if Qle_bool a c then 1 else 0) + count_le c l)%nat.
Proof. unfold count_le. cbn [filter]. destruct (Qle_bool a c); reflexivity. Qed.

Lemma count_le_none (c : Q) (l : list Q) :
  Forall (fun v => c < v) l -> count_le c l = 0%nat.
Proof.
  induction 1 as [|a l Ha _ IH]; [reflexivity|].
  rewrite count_le_cons, IH.
  destruct (Qle_bool a c) eqn:E; [|reflexivity].
  apply Qle_bool_iff in E. lra.
Qed.

(** In a strictly increasing array the number of entries not above [c]
    is the position after the last entry not above [c]. *)
Lemma count_le_sorted (c : Q) (s : list Q) :
  StronglySorted Qlt s ->
  forall j, (j < length s)%nat -> nth j s 0 <= c ->
    ((S j < length s)%nat -> c < nth (S j) s 0) ->
    count_le c s = S j.
Proof.
  induction 1 as [|a s Hs IH Ha]; intros j Hj Hle Hlt.
  - simpl in Hj. lia.
  - rewrite count_le_cons. rewrite Forall_forall in Ha.
    destruct j as [|j].
    + cbn [nth] in Hle.
      assert (E : Qle_bool a c = true) by (apply Qle_bool_iff, Hle).
      rewrite E. rewrite count_le_none; [reflexivity|].
      apply Forall_forall. intros v Hv.
      destruct s as [|b s]; [destruct Hv|].
      assert (Hb : c < b) by (apply Hlt; simpl; lia).
      destruct Hv as [<- | Hv]; [exact Hb|].
      apply StronglySorted_inv in Hs. destruct Hs as [_ Hb'].
      rewrite Forall_forall in Hb'. specialize (Hb' v Hv). lra.
    + cbn [nth] in Hle.
      assert (Haj : a < nth j s 0) by (apply Ha, nth_In; simpl in Hj; lia).
      assert (E : Qle_bool a c = true) by (apply Qle_bool_iff; lra).
      rewrite E. rewrite (IH j); [reflexivity | simpl in Hj; lia | exact Hle |].
      intro H. apply Hlt. simpl. lia.
Qed.

(** Sorting distinct values gives a strictly increasing array. *)
Lemma sorted_strict (s : list Q) :
  StronglySorted Qle s -> NoDupA Qeq s -> StronglySorted Qlt s.
Proof.
  induction 1 as [|a s Hs IH Ha]; intro Hd; [constructor|].
  inversion Hd as [|? ? Hna Hd']; subst.
  constructor; [apply IH, Hd'|].
  rewrite Forall_forall in Ha |- *. intros b Hb.
  specialize (Ha b Hb).
  destruct (Qeq_dec a b) as [E|E].
  - exfalso. apply Hna. apply InA_alt. exists b. split; [exact E | exact Hb].
  - lra.
Qed.

Lemma sort_strict (y : list Q) :
  pairwise_distinct y -> StronglySorted Qlt (sort y).
Proof.
  intro Hd. apply sorted_strict; [apply sort_sorted|].
  refine (PermutationA_preserves_NoDupA Q_Setoid _ Hd).
  apply (Permutation_PermutationA Q_Setoid).
  apply Permutation_sym, sort_perm.
Qed.

Lemma strict_nth_lt (s : list Q) :
  StronglySorted Qlt s ->
  forall i j, (i < j)%nat -> (j < length s)%nat -> nth i s 0 < nth j s 0.
Proof.
  induction 1 as [|a s Hs IH Ha]; intros i j Hij Hj.
  - simpl in Hj. lia.
  - destruct j as [|j]; [lia|].
    destruct i as [|i]; cbn [nth].
    + rewrite Forall_forall in Ha. apply Ha, nth_In. simpl in Hj. lia.
    + apply IH; simpl in Hj; lia.
Qed.

(** How many samples lie at or below the quantile of probability [p],
    in terms of the virtual index [h]. *)
Lemma count_le_quantile (s : list Q) (p : Q) :
  StronglySorted Qlt s -> s <> [] ->
  let h := hazen_index (length s) p in
  let c := count_le (quantile_sorted s p) s in
  (Qnat (length s) - 1 <= h /\ c = length s) \/
  (h < 0 /\ c = 1%nat) \/
  (0 <= h /\ Qnat c - 1 <= h /\ h < Qnat c /\ (c < length s)%nat).
Proof.
  intros Hs Hne h c.
  assert (Hlen : (0 < length s)%nat) by (destruct s; [congruence | simpl; lia]).
  destruct (quantile_regime s p) as [Htop E | Hneg _ E | j H0 H1 H2 Hj _ E].
  - left. split; [exact Htop|]. unfold c. rewrite E, last_nth.
    replace (length s) with (S (length s - 1)) at 2 by lia.
    apply count_le_sorted; [exact Hs | lia | apply Qle_refl | intro; lia].
  - right. left. split; [exact Hneg|]. unfold c. rewrite E, hd_nth.
    apply count_le_sorted; [exact Hs | lia | apply Qle_refl |].
    intro H. apply strict_nth_lt; [exact Hs | lia | exact H].
  - right. right. split; [exact H0|].
    assert (Hc : c = S j).
    { unfold c. rewrite E.
      assert (Hd : nth j s 0 < nth (S j) s 0)
        by (apply strict_nth_lt; [exact Hs | lia | exact Hj]).
      set (a := nth j s 0) in *. set (b := nth (S j) s 0) in *.
      set (g := hazen_index (length s) p - Qnat j).
      assert (Hg0 : 0 <= g) by (unfold g; lra).
      assert (Hg1 : g < 1) by (unfold g; lra).
      assert (Hm0 : 0 <= g * (b - a)) by (apply Qmult_le_0_compat; lra).
      assert (Hm1 : 0 < (1 - g) * (b - a)) by (apply Qmult_lt_0_compat; lra).
      assert (Eq : b - (a + g * (b - a)) == (1 - g) * (b - a)) by ring.
      apply count_le_sorted; [exact Hs | lia | fold a; lra | intros _; fold b; lra]. }
    rewrite Hc, Qnat_S. fold h in H1, H2. repeat split; try lra. lia.
Qed.

(** *** From the thresholds to the group sizes *)

Lemma count_symbol_map (f : Q -> nat) (g : nat) (y : list Q) :
  count_symbol g (map f y) = length (filter (fun v => (f v =? g)%nat) y).
Proof.
  unfold count_symbol.
  induction y as [|v y IH]; cbn [map count_occ filter]; [reflexivity|].
  destruct (Nat.eq_dec (f v) g) as [E|E].
  - rewrite (proj2 (Nat.eqb_eq _ _) E). cbn [length]. now rewrite IH.
  - rewrite (proj2 (Nat.eqb_neq _ _) E). exact IH.
Qed.

Lemma count_between (lo hi : Q) (y : list Q) :
  lo <= hi ->
  (length (filter (fun v => Qltb lo v && Qle_bool v hi) y) + count_le lo y
   = count_le hi y)%nat.
Proof.
  intro H. induction y as [|v y IH]; [reflexivity|].
  rewrite !count_le_cons. cbn [filter].
  destruct (Qltb lo v) eqn:E1; destruct (Qle_bool v hi) eqn:E2;
    destruct (Qle_bool v lo) eqn:E3; cbn [andb length]; try lia; exfalso;
    try (apply Qltb_true in E1); try (apply Qltb_false in E1);
    try (apply Qle_bool_iff in E2); try (apply Qle_bool_false in E2);
    try (apply Qle_bool_iff in E3); try (apply Qle_bool_false in E3); lra.
Qed.

(** The size of group [i + 1] is the number of samples between the two
    thresholds that bound it. *)
Lemma group_size (th : list Q) (k i : nat) (y : list Q) :
  monotone th k -> (i < k)%nat ->
  (count_symbol (S i) (map (symbol_of th k) y) + count_le (nth i th 0%Q) y
   = count_le (nth (S i) th 0%Q) y)%nat.
Proof.
  intros Hm Hi. rewrite count_symbol_map.
  rewrite <- (count_between (nth i th 0) (nth (S i) th 0) y (Hm i Hi)).
  f_equal. f_equal. apply filter_ext. intro v.
  destruct (Qltb (nth i th 0) v && Qle_bool v (nth (S i) th 0)) eqn:E.
  - apply Nat.eqb_eq. apply symbol_of_unique; [exact Hm | exact Hi|].
    apply in_group_test, E.
  - apply Nat.eqb_neq. intro Hs.
    pose proof (symbol_of_spec th k v) as H. rewrite Hs in H.
    destruct H as (_ & Hin & _). apply in_group_test in Hin. congruence.
Qed.

Lemma frac_le_1 (j k : nat) :
  (1 <= k)%nat -> (j <= k)%nat -> Qnat j / Qnat k <= 1.
Proof.
  intros Hk Hj. rewrite <- (frac_1 k Hk). apply frac_mono, Hj.
Qed.

Section GroupSizes.

Variables (y : list Q) (k : nat).
Hypothesis Hy : y <> [].
Hypothesis Hk : (1 <= k)%nat.
Hypothesis Hd : pairwise_distinct y.
Hypothesis Hinc : first_point_included y.

Let n := length y.
Let d := Qnat n / Qnat k.
Let th := quantile_thresholds y k.
Let c (i : nat) := count_le (nth i th 0) y.

Lemma n_pos : 1 <= Qnat n.
Proof.
  change 1 with (Qnat 1). apply Qnat_le. unfold n.
  destruct y; [congruence | simpl; lia].
Qed.

Lemma d_pos : 0 < d.
Proof.
  unfold d, Qdiv. apply Qmult_lt_0_compat.
  - pose proof n_pos. lra.
  - apply Qinv_lt_0_compat, Qnat_pos, Hk.
Qed.

Lemma index_eq (j : nat) :
  hazen_index n (Qnat j / Qnat k) == Qnat j * d - (1 # 2).
Proof. unfold hazen_index, d, Qdiv. ring. Qed.

Lemma index_top (j : nat) : (j <= k)%nat -> Qnat j * d <= Qnat n.
Proof.
  intro Hj.
  assert (E : Qnat j * d == Qnat n * (Qnat j / Qnat k))
    by (unfold d, Qdiv; ring).
  rewrite E.
  assert (H : Qnat n * (Qnat j / Qnat k) <= Qnat n * 1).
  { rewrite !(Qmult_comm (Qnat n)). apply Qmult_le_compat_r.
    - apply frac_le_1; assumption.
    - apply Qnat_nonneg. }
  lra.
Qed.

Lemma index_bottom (j : nat) : (1 <= j)%nat -> d <= Qnat j * d.
Proof.
  intro Hj.
  assert (H : 1 * d <= Qnat j * d).
  { apply Qmult_le_compat_r; [|pose proof d_pos; lra].
    change 1 with (Qnat 1). apply Qnat_le, Hj. }
  lra.
Qed.

Lemma c_0 : c 0 = 0%nat.
Proof.
  unfold c. apply count_le_none, Forall_forall. intros v Hv.
  apply (thresholds_enclose y k v Hk Hinc Hv).
Qed.

(** The number of samples not above threshold [j], for [1 <= j <= k]. *)
Lemma c_spec (j : nat) :
  (1 <= j <= k)%nat ->
  let h := Qnat j * d - (1 # 2) in
  (Qnat n - 1 <= h /\ c j = n) \/
  (h < 0 /\ c j = 1%nat) \/
  (0 <= h /\ Qnat (c j) - 1 <= h /\ h < Qnat (c j) /\ Qnat (c j) <= Qnat n - 1).
Proof.
  intros Hj h.
  assert (Hs : sort y <> []).
  { intro E. apply Hy. apply Permutation_nil. rewrite <- E. apply sort_perm. }
  destruct j as [|j]; [lia|].
  assert (Eth : nth (S j) th 0 = quantile_sorted (sort y) (Qnat (S j) / Qnat k))
    by (apply thresholds_nth_S; lia).
  assert (Ec : c (S j)
               = count_le (quantile_sorted (sort y) (Qnat (S j) / Qnat k)) (sort y)).
  { unfold c. rewrite Eth. apply count_le_perm, Permutation_sym, sort_perm. }
  pose proof (count_le_quantile (sort y) (Qnat (S j) / Qnat k)
                (sort_strict y Hd) Hs) as H.
  cbv zeta in H. rewrite <- Ec in H. rewrite sort_length in H. fold n in H.
  pose proof (index_eq (S j)) as Eh.
  destruct H as [[H1 H2] | [[H1 H2] | (H1 & H2 & H3 & H4)]].
  - left. split; [unfold h; lra | exact H2].
  - right. left. split; [unfold h; lra | exact H2].
  - right. right. unfold h. repeat split; try lra.
    assert (Hle : Qnat (S (c (S j))) <= Qnat n) by (apply Qnat_le; lia).
    rewrite Qnat_S in Hle. lra.
Qed.

Lemma c_step (i : nat) :
  (i < k)%nat ->
  Qnat (count_symbol (S i) (quantile_symbols y k)) + Qnat (c i) == Qnat (c (S i)).
Proof.
  intro Hi. rewrite quantile_symbols_map.
  rewrite <- Qnat_plus. unfold c, th.
  rewrite (group_size _ k i y (thresholds_monotone y k Hy Hinc) Hi). reflexivity.
Qed.

Lemma group_size_bound (g : nat) :
  (1 <= g <= k)%nat ->
  Qabs (Qnat (count_symbol g (quantile_symbols y k)) - d) <= 1.
Proof.
  intro Hg. apply Qabs_Qle_condition.
  destruct g as [|i]; [lia|].
  pose proof (c_step i ltac:(lia)) as Hstep.
  pose proof (Qnat_nonneg (count_symbol (S i) (quantile_symbols y k))) as Hc0.
  pose proof d_pos as Hd0. pose proof n_pos as Hn.
  pose proof (index_top (S i) ltac:(lia)) as Htop.
  pose proof (c_spec (S i) ltac:(lia)) as H1. cbv zeta in H1.
  rewrite Qnat_S in Htop, H1.
  set (cnt := Qnat (count_symbol (S i) (quantile_symbols y k))) in *.
  destruct i as [|i].
  - rewrite c_0 in Hstep. rewrite Qnat_0 in Hstep, H1, Htop. clearbody d.
    destruct H1 as [[A B] | [[A B] | (A & B & C & D)]];
      try rewrite B in Hstep.
    + split; lra.
    + change (Qnat 1) with 1 in Hstep. split; lra.
    + split; lra.
  - pose proof (c_spec (S i) ltac:(lia)) as H0. cbv zeta in H0.
    pose proof (index_bottom (S i) ltac:(lia)) as Hbot.
    clearbody d. set (X := Qnat (S i) * d) in *.
    assert (EX : (X + 1 * d) == X + d) by ring.
    assert (EX' : (Qnat (S i) + 1) * d == X + d) by (unfold X; ring).
    rewrite EX' in Htop, H1.
    set (c0 := Qnat (c (S i))) in *. set (c1 := Qnat (c (S (S i)))) in *.
    destruct H0 as [[A0 B0] | [[A0 B0] | (A0 & B0 & C0 & D0)]];
      destruct H1 as [[A1 B1] | [[A1 B1] | (A1 & B1 & C1 & D1)]];
      try (unfold c0 in Hstep; rewrite B0 in Hstep);
      try (unfold c1 in Hstep; rewrite B1 in Hstep);
      change (Qnat 1) with 1 in Hstep; split; lra.
Qed.

End GroupSizes.

End CountProps.

(** ** The claims on CoarseGrain *)

(** C4. The quantile method lowers the lowest threshold by 1 so that
    the smallest sample falls in the first group; the subtraction is a
    float64 one.  For a non-empty series and an alphabet of at least
    one symbol:
    - when the subtraction gives a double below the smallest sample (it
      does whenever every sample is below [2^53] in magnitude), every
      sample lies in exactly one group, its symbol is that group, no
      symbol is left at zero and [CoarseGrain] returns the sequence;
    - when it does not (a smallest sample such as [1e17], whose
      neighbouring doubles are 16 apart), the smallest sample is in no
      group, its symbol stays zero and [CoarseGrain] raises the
      consistency error, on a finite series.
    The consistency check raises exactly when the sequence holds a
    zero, and the loop leaves a zero exactly on a sample that no group
    holds. *)
Theorem C4_quantile_first_point (y : list Q) (k : nat) :
  y <> [] -> (1 <= k)%nat ->
  let th := Symbolic.quantile_thresholds y k in
  (Notions.first_point_included y ->
     (forall t, (t < length y)%nat ->
        exists i, (i < k)%nat /\
          nth t (Symbolic.quantile_symbols y k) 0%nat = S i /\
          Notions.in_group th i (nth t y 0) /\
          forall j, (j < k)%nat -> Notions.in_group th j (nth t y 0) -> j = i) /\
     ~ In 0%nat (Symbolic.quantile_symbols y k) /\
     Symbolic.CoarseGrain y "quantile" k = Ok (Symbolic.quantile_symbols y k)) /\
  (~ Notions.first_point_included y ->
     In (Notions.smallest y) y /\
     (forall i, (i < k)%nat -> ~ Notions.in_group th i (Notions.smallest y)) /\
     In 0%nat (Symbolic.quantile_symbols y k) /\
     Symbolic.CoarseGrain y "quantile" k
     = Raise (ValueError "All values in the sequence were not assigned to a group")) /\
  (Notions.moderate y -> Notions.first_point_included y) /\
  (forall yth, raises (Symbolic.check_assigned yth) <-> In 0%nat yth) /\
  (forall yth, ~ In 0%nat yth -> Symbolic.check_assigned yth = Ok yth) /\
  (forall th' k' y',
     In 0%nat (Symbolic.assign_groups th' k' y') <->
     exists v, In v y' /\ forall i, (i < k')%nat -> ~ Notions.in_group th' i v).
Proof.
  intros Hy Hk th. subst th.
  split; [|split; [|split; [|split; [|split]]]].
  - intro Hinc.
    pose proof (CoarseGrainProps.thresholds_monotone y k Hy Hinc) as Hm.
    pose proof (CoarseGrainProps.quantile_symbols_range y k Hk Hinc) as Hr.
    split; [|split].
    + intros t Ht.
      assert (Hin : In (nth t y 0) y) by (apply nth_In, Ht).
      destruct (CoarseGrainProps.thresholds_enclose y k _ Hk Hinc Hin) as [Hlo Hhi].
      destruct (CoarseGrainProps.groups_cover _ _ k Hlo Hhi) as (i & Hi & Hg).
      exists i. split; [exact Hi|]. split; [|split; [exact Hg|]].
      * rewrite CoarseGrainProps.quantile_symbols_map.
        rewrite (nth_indep _ 0%nat
                   (Notions.symbol_of (Symbolic.quantile_thresholds y k) k 0))
          by (rewrite length_map; exact Ht).
        rewrite (map_nth (Notions.symbol_of (Symbolic.quantile_thresholds y k) k) y 0 t).
        apply CoarseGrainProps.symbol_of_unique; assumption.
      * intros j Hj Hgj.
        exact (CoarseGrainProps.groups_disjoint _ k _ j i Hm Hj Hi Hgj Hg).
    + intro H0. rewrite Forall_forall in Hr. specialize (Hr 0%nat H0). lia.
    + apply CoarseGrainProps.CoarseGrain_quantile_ok; assumption.
  - intro Hinc.
    pose proof (CoarseGrainProps.smallest_unassigned y k Hy Hinc) as H0.
    pose proof (CoarseGrainProps.smallest_In y Hy) as Hin.
    split; [exact Hin|]. split; [|split].
    + apply CoarseGrainProps.symbol_of_zero, H0.
    + rewrite CoarseGrainProps.quantile_symbols_map, <- H0. apply in_map, Hin.
    + apply CoarseGrainProps.CoarseGrain_quantile_unassigned; assumption.
  - apply CoarseGrainProps.moderate_included, Hy.
  - apply CoarseGrainProps.check_assigned_raises.
  - apply CoarseGrainProps.check_assigned_ok.
  - intros th' k' y'. rewrite CoarseGrainProps.assign_groups_map, in_map_iff.
    split.
    + intros (v & Hv & Hin). exists v. split; [exact Hin|].
      apply CoarseGrainProps.symbol_of_zero, Hv.
    + intros (v & Hin & Hv). exists v. split; [|exact Hin].
      apply CoarseGrainProps.symbol_of_zero, Hv.
Qed.

(** The two cases at work: [1e17 - 1] rounds back to [1e17], the
    sample [1e17] is left without a group and the call raises; on
    [3, 1, 2] the call returns. *)
Lemma C4_quantile_first_point_witness :
  ([10 ^ 17; 2 * 10 ^ 17] <> [] /\ (1 <= 2)%nat /\
   ~ Notions.first_point_included [10 ^ 17; 2 * 10 ^ 17] /\
   Symbolic.CoarseGrain [10 ^ 17; 2 * 10 ^ 17] "quantile" 2
   = Raise (ValueError "All values in the sequence were not assigned to a group")) /\
  ([3; 1; 2] <> [] /\ (1 <= 2)%nat /\
   Notions.moderate [3; 1; 2] /\
   Symbolic.CoarseGrain [3; 1; 2] "quantile" 2
   = Ok (Symbolic.quantile_symbols [3; 1; 2] 2)).
Proof.
  assert (Hlost : ~ Notions.first_point_included [10 ^ 17; 2 * 10 ^ 17]).
  { intro H. vm_compute in H. discriminate H. }
  assert (Hmod : Notions.moderate [3; 1; 2]).
  { repeat constructor. }
  split.
  - split; [discriminate|]. split; [lia|]. split; [exact Hlost|].
    refine (proj2 (proj2 (proj2 (proj1 (proj2
              (C4_quantile_first_point [10 ^ 17; 2 * 10 ^ 17] 2 _ _)) Hlost))));
      [discriminate | lia].
  - split; [discriminate|]. split; [lia|]. split; [exact Hmod|].
    destruct (C4_quantile_first_point [3; 1; 2] 2) as (Hok & _ & Hm & _);
      [discriminate | lia |].
    exact (proj2 (proj2 (Hok (Hm Hmod)))).
Defined.




(** ** TransitionMatrix *)

Module TransitionProps.
Import Notions CoarseGrainProps Symbolic.

Lemma select_next (f : nat -> bool) (l : list nat) :
  forall a,
    select (removelast (f a :: map f l)) l
    = map snd (filter (fun p => f (fst p)) (combine (a :: l) l)).
Proof.
  induction l as [|b l IH]; intro a; [reflexivity|].
  change (removelast (f a :: map f (b :: l)))
    with (f a :: removelast (f b :: map f l)).
  cbn [select combine filter fst]. rewrite IH.
  destruct (f a); reflexivity.
Qed.

(** The symbols that follow an occurrence of the symbol selected by [f]. *)
Lemma select_followers (f : nat -> bool) (yth : list nat) :
  select (false :: removelast (map f yth)) yth
  = map snd (filter (fun p => f (fst p)) (adjacent yth)).
Proof.
  unfold adjacent. destruct yth as [|a l]; [reflexivity|].
  cbn [map tl]. rewrite <- select_next.
  destruct l as [|b l]; [reflexivity|].
  change (removelast (f a :: map f (b :: l)))
    with (f a :: removelast (f b :: map f l)).
  cbn [select]. 
  change (false :: f a :: removelast (f b :: map f l))
    with (false :: f a :: removelast (map f (b :: l))).
  reflexivity.
Qed.

Lemma count_true_filter (f : nat -> bool) (l : list nat) :
  count_true (map f l) = length (filter f l).
Proof.
  unfold count_true. induction l as [|a l IH]; cbn [map filter]; [reflexivity|].
  destruct (f a); cbn [length]; now rewrite IH.
Qed.

Lemma filter_map_snd (g : nat -> bool) (ps : list (nat * nat)) :
  filter g (map snd ps) = map snd (filter (fun p => g (snd p)) ps).
Proof.
  induction ps as [|p ps IH]; cbn [map filter]; [reflexivity|].
  destruct (g (snd p)); cbn [map]; now rewrite IH.
Qed.

Lemma filter_filter (f g : nat * nat -> bool) (ps : list (nat * nat)) :
  filter g (filter f ps) = filter (fun p => f p && g p) ps.
Proof.
  induction ps as [|p ps IH]; cbn [filter]; [reflexivity|].
  destruct (f p); cbn [filter andb]; [destruct (g p)|]; now rewrite IH.
Qed.

Lemma adjacent_fst_in (yth : list nat) (p : nat * nat) :
  In p (adjacent yth) -> In (fst p) yth /\ In (snd p) yth.
Proof.
  unfold adjacent. intro H. destruct p as [a b]. split.
  - apply (in_combine_l _ _ _ _ H).
  - destruct yth as [|c l]; [destruct H|]. right. apply (in_combine_r _ _ _ _ H).
Qed.

Lemma adjacent_length (yth : list nat) : length (adjacent yth) = (length yth - 1)%nat.
Proof.
  unfold adjacent. rewrite length_combine. destruct yth; cbn [length tl]; lia.
Qed.

(** A test that rejects every element selects nothing. *)
Lemma filter_none {X : Type} (test : X -> bool) (xs : list X) :
  Forall (fun x => test x = false) xs -> filter test xs = [].
Proof.
  induction 1 as [|x xs Hx _ IH]; [reflexivity|].
  cbn [filter]. now rewrite Hx.
Qed.

(** Each row of the count matrix holds the pair counts, whether or not
    the symbol of the row occurs. *)
Lemma transition_row_counts (yth : list nat) (k i : nat) :
  transition_row yth k i
  = map (fun j => Qnat (count_pairs (S i) (S j) yth)) (seq 0 k).
Proof.
  unfold transition_row.
  destruct (count_true (map (Nat.eqb (S i)) yth) =? 0)%nat eqn:E.
  - apply Nat.eqb_eq in E. rewrite count_true_filter in E.
    assert (Hno : forall x, In x yth -> Nat.eqb (S i) x = false).
    { intros x Hx. destruct (Nat.eqb (S i) x) eqn:Ex; [|reflexivity].
      exfalso.
      assert (Hin : In x (filter (Nat.eqb (S i)) yth))
        by (apply filter_In; split; assumption).
      destruct (filter (Nat.eqb (S i)) yth); [destruct Hin | discriminate]. }
    transitivity (map (fun _ : nat => 0) (seq 0 k)).
    + clear. generalize 0%nat. induction k as [|k IH]; intro a; [reflexivity|].
      cbn [repeat seq map]. now rewrite <- IH.
    + apply map_ext. intro j. unfold count_pairs.
      rewrite filter_none; [reflexivity|]. apply Forall_forall.
      intros p Hp. destruct (adjacent_fst_in yth p Hp) as [Hf _].
      rewrite (Hno _ Hf). reflexivity.
  - apply map_ext. intro j. f_equal.
    rewrite select_followers, count_true_filter, filter_map_snd, filter_filter.
    rewrite length_map. reflexivity.
Qed.

(** *** Summing the counts *)

Lemma list_sum_cons (a : nat) (l : list nat) :
  list_sum (a :: l) = (a + list_sum l)%nat.
Proof. reflexivity. Qed.

Lemma list_sum_zero (l : list nat) : list_sum (map (fun _ => 0%nat) l) = 0%nat.
Proof. induction l as [|a l IH]; [reflexivity | exact IH]. Qed.

Lemma list_sum_add (f g : nat -> nat) (l : list nat) :
  list_sum (map (fun i => (f i + g i)%nat) l)
  = (list_sum (map f l) + list_sum (map g l))%nat.
Proof.
  induction l as [|a l IH]; [reflexivity|].
  cbn [map]. rewrite !list_sum_cons, IH. lia.
Qed.

Lemma indicator_sum (x k : nat) :
  list_sum (map (fun i => if Nat.eqb (S i) x then 1%nat else 0%nat) (seq 0 k))
  = if ((1 <=? x) && (x <=? k))%nat then 1%nat else 0%nat.
Proof.
  induction k as [|k IH].
  - cbn [seq map list_sum].
    destruct (1 <=? x)%nat eqn:E1, (x <=? 0)%nat eqn:E2; try reflexivity.
    apply Nat.leb_le in E1. apply Nat.leb_le in E2. lia.
  - rewrite seq_S, map_app, list_sum_app, IH. cbn [map Nat.add].
    rewrite list_sum_cons. change (list_sum []) with 0%nat.
    destruct (Nat.eqb (S k) x) eqn:E.
    + apply Nat.eqb_eq in E. subst x.
      rewrite (proj2 (Nat.leb_le 1 (S k))) by lia.
      rewrite (proj2 (Nat.leb_gt (S k) k)) by lia.
      rewrite Nat.leb_refl. reflexivity.
    + apply Nat.eqb_neq in E.
      destruct (1 <=? x)%nat eqn:E1; cbn [andb]; [|lia].
      destruct (x <=? k)%nat eqn:E2, (x <=? S k)%nat eqn:E3; try lia;
        try apply Nat.leb_le in E2; try apply Nat.leb_le in E3;
        try apply Nat.leb_gt in E2; try apply Nat.leb_gt in E3; lia.
Qed.

(** Splitting a list by a key with values in [1..k] loses nothing. *)
Lemma sum_by_key {A : Type} (key : A -> nat) (k : nat) (l : list A) :
  Forall (fun p => (1 <= key p <= k)%nat) l ->
  list_sum (map (fun i => length (filter (fun p => Nat.eqb (S i) (key p)) l)) (seq 0 k))
  = length l.
Proof.
  induction 1 as [|p l Hp _ IH].
  - cbn [filter length]. apply list_sum_zero.
  - cbn [filter length].
    transitivity
      (list_sum (map (fun i => ((if Nat.eqb (S i) (key p) then 1 else 0)
                                + length (filter (fun p => Nat.eqb (S i) (key p)) l))%nat)
                     (seq 0 k))).
    + f_equal. apply map_ext. intro i.
      destruct (Nat.eqb (S i) (key p)); reflexivity.
    + rewrite (list_sum_add
                 (fun i => if Nat.eqb (S i) (key p) then 1%nat else 0%nat)
                 (fun i => length (filter (fun p => Nat.eqb (S i) (key p)) l))).
      rewrite IH, indicator_sum.
      rewrite (proj2 (Nat.leb_le 1 (key p))) by lia.
      rewrite (proj2 (Nat.leb_le (key p) k)) by lia.
      reflexivity.
Qed.

Lemma pair_counts_total (yth : list nat) (k : nat) :
  Forall (fun s => (1 <= s <= k)%nat) yth ->
  list_sum (map (fun i => list_sum (map (fun j => count_pairs (S i) (S j) yth) (seq 0 k)))
                (seq 0 k))
  = (length yth - 1)%nat.
Proof.
  intro Hr. rewrite Forall_forall in Hr.
  rewrite <- adjacent_length.
  rewrite <- (sum_by_key fst k (adjacent yth)).
  - f_equal. apply map_ext. intro i. unfold count_pairs.
    rewrite <- (sum_by_key snd k (filter (fun p => Nat.eqb (S i) (fst p)) (adjacent yth))).
    + f_equal. apply map_ext. intro j. rewrite filter_filter. reflexivity.
    + apply Forall_forall. intros p Hp. apply filter_In in Hp.
      apply Hr, (adjacent_fst_in yth p (proj1 Hp)).
  - apply Forall_forall. intros p Hp. apply Hr, (adjacent_fst_in yth p Hp).
Qed.

(** *** Normalizing *)

Lemma fsum_Fin (l : list Q) : fsum (map Fin l) = Fin (np_sum l).
Proof.
  unfold fsum, np_sum. induction l as [|a l IH]; [reflexivity|].
  cbn [map fold_right]. rewrite IH. reflexivity.
Qed.

Lemma np_sum_app (l l' : list Q) : np_sum (l ++ l') == np_sum l + np_sum l'.
Proof.
  unfold np_sum. induction l as [|a l IH]; cbn [app fold_right]; [ring|].
  rewrite IH. ring.
Qed.

Lemma np_sum_scale (D : Q) (l : list Q) :
  np_sum (map (fun c => c / D) l) == np_sum l / D.
Proof.
  unfold np_sum. induction l as [|a l IH]; cbn [map fold_right].
  - unfold Qdiv. ring.
  - rewrite IH. unfold Qdiv. ring.
Qed.

Lemma np_sum_Qnat (f : nat -> nat) (l : list nat) :
  np_sum (map (fun j => Qnat (f j)) l) == Qnat (list_sum (map f l)).
Proof.
  unfold np_sum. induction l as [|a l IH]; cbn [map fold_right].
  - reflexivity.
  - rewrite list_sum_cons, IH, Qnat_plus. reflexivity.
Qed.

Lemma np_sum_concat (f : nat -> list Q) (g : nat -> nat) (l : list nat) :
  (forall i, np_sum (f i) == Qnat (g i)) ->
  np_sum (concat (map f l)) == Qnat (list_sum (map g l)).
Proof.
  intro H. induction l as [|a l IH]; cbn [map concat].
  - reflexivity.
  - rewrite list_sum_cons, np_sum_app, IH, H, Qnat_plus. reflexivity.
Qed.

Lemma np_div_nonzero (c D : Q) : ~ D == 0 -> np_div c D = Fin (c / D).
Proof.
  intro H. unfold np_div. rewrite (proj2 (Qeqb_false D 0) H). reflexivity.
Qed.

Lemma concat_map_map {A B : Type} (f : A -> B) (ll : list (list A)) :
  concat (map (map f) ll) = map f (concat ll).
Proof.
  induction ll as [|l ll IH]; [reflexivity|].
  cbn [map concat]. rewrite map_app, IH. reflexivity.
Qed.

Section Normalized.

Variables (yth : list nat) (k N : nat).
Hypothesis HN : (2 <= N)%nat.

Let D := Qnat N - 1.
Let T := normalize (transition_counts yth k) N.

Lemma D_pos : 0 < D.
Proof.
  unfold D. assert (H : Qnat 2 <= Qnat N) by (apply Qnat_le, HN).
  change (Qnat 2) with 2 in H. lra.
Qed.

Lemma normalize_Fin :
  T = map (map (fun c => Fin (c / D))) (transition_counts yth k).
Proof.
  unfold T, normalize. apply map_ext. intro row. apply map_ext. intro c.
  apply np_div_nonzero. pose proof D_pos. fold D. lra.
Qed.

Lemma T_length : length T = k.
Proof.
  unfold T, normalize, transition_counts. rewrite !length_map, length_seq.
  reflexivity.
Qed.

Lemma T_entry (i j : nat) :
  (i < k)%nat -> (j < k)%nat ->
  entry T i j = Fin (Qnat (count_pairs (S i) (S j) yth) / D).
Proof.
  intros Hi Hj. rewrite normalize_Fin. unfold entry, transition_counts.
  rewrite map_map.
  rewrite (nth_indep _ [] ((fun i => map (fun c => Fin (c / D)) (transition_row yth k i)) 0%nat))
    by (rewrite length_map, length_seq; exact Hi).
  rewrite (map_nth (fun i => map (fun c => Fin (c / D)) (transition_row yth k i))
             (seq 0 k) 0%nat i).
  rewrite seq_nth by exact Hi. cbn [Nat.add].
  rewrite transition_row_counts, map_map.
  rewrite (nth_indep _ NaN ((fun j => Fin (Qnat (count_pairs (S i) (S j) yth) / D)) 0%nat))
    by (rewrite length_map, length_seq; exact Hj).
  rewrite (map_nth (fun j => Fin (Qnat (count_pairs (S i) (S j) yth) / D))
             (seq 0 k) 0%nat j).
  rewrite seq_nth by exact Hj. reflexivity.
Qed.

Lemma T_rows : Forall (fun row => length row = k) T.
Proof.
  unfold T, normalize, transition_counts. rewrite map_map.
  apply Forall_map, Forall_forall. intros i _.
  rewrite length_map, transition_row_counts, length_map, length_seq. reflexivity.
Qed.

Lemma T_total :
  Forall (fun s => (1 <= s <= k)%nat) yth -> length yth = N ->
  exists q, total T = Fin q /\ q == 1.
Proof.
  intros Hr Hlen. unfold total. rewrite normalize_Fin.
  rewrite concat_map_map.
  rewrite <- (map_map (fun c => c / D) Fin), fsum_Fin.
  eexists. split; [reflexivity|].
  rewrite np_sum_scale.
  unfold transition_counts.
  rewrite (np_sum_concat (transition_row yth k)
             (fun i => list_sum (map (fun j => count_pairs (S i) (S j) yth) (seq 0 k)))).
  - rewrite (pair_counts_total yth k Hr), Hlen.
    assert (E : Qnat (N - 1) == D).
    { unfold D. replace N with (S (N - 1)) at 2 by lia. rewrite Qnat_S. ring. }
    rewrite E. unfold Qdiv. apply Qmult_inv_r. pose proof D_pos. lra.
  - intro i. rewrite transition_row_counts. apply np_sum_Qnat.
Qed.

End Normalized.

End TransitionProps.

(** C2, as stated, fails on a series of a single sample: there is no
    adjacent pair, the counts are divided by [N - 1 = 0], every entry
    of the matrix is not-a-number and the eigenvalue routine refuses
    it. (The resampler plays no role at lag 1; the identity stands in
    for it.) *)
Lemma C2_single_sample_counterexample :
  Symbolic.TransitionMatrix_T (fun y _ => y) [5] "quantile" 2 1
  = Ok [[NaN; NaN]; [NaN; NaN]] /\
  Notions.total [[NaN; NaN]; [NaN; NaN]] = NaN /\
  raises (Symbolic.TransitionMatrix (fun y _ => y) (fun v => v) [5] "quantile" 2 1).
Proof.
  split; [vm_compute; reflexivity|]. split; [reflexivity|].
  eexists. vm_compute. reflexivity.
Qed.

(** C2, amended. For a series of at least two samples on which
    [th[0] -= 1] puts the lowest threshold below the smallest sample,
    and [numGroups >= 2] (lag 1, quantile method), the matrix is
    [numGroups x numGroups], its entry [(i, j)] is the number of
    adjacent pairs (symbol [i+1], symbol [j+1]) divided by [N - 1],
    hence non-negative, all entries sum to 1, and the row of a symbol
    that never occurs is zero. *)
Theorem C2_transition_matrix
    (ssre : list Q -> nat -> list Q) (y : list Q) (numGroups : nat) :
  (2 <= length y)%nat -> (2 <= numGroups)%nat ->
  Notions.first_point_included y ->
  exists yth T,
    Symbolic.CoarseGrain y "quantile" numGroups = Ok yth /\
    Symbolic.TransitionMatrix_T ssre y "quantile" numGroups 1 = Ok T /\
    length T = numGroups /\
    Forall (fun row => length row = numGroups) T /\
    (forall i j, (i < numGroups)%nat -> (j < numGroups)%nat ->
       exists q, Symbolic.entry T i j = Fin q /\ 0 <= q /\
         q == Qnat (Notions.count_pairs (S i) (S j) yth) / (Qnat (length y) - 1)) /\
    (exists q, Notions.total T = Fin q /\ q == 1) /\
    (forall i, (i < numGroups)%nat -> Notions.count_symbol (S i) yth = 0%nat ->
       forall j, (j < numGroups)%nat ->
         exists q, Symbolic.entry T i j = Fin q /\ q == 0).
Proof.
  intros HN Hk Hinc.
  assert (Hy : y <> []) by (destruct y; [simpl in HN; lia | discriminate]).
  pose proof (CoarseGrainProps.CoarseGrain_quantile_ok y numGroups Hy ltac:(lia) Hinc) as Hcg.
  pose proof (CoarseGrainProps.quantile_symbols_range y numGroups ltac:(lia) Hinc) as Hr.
  pose proof (CoarseGrainProps.quantile_symbols_length y numGroups) as Hlen.
  set (yth := Symbolic.quantile_symbols y numGroups) in *.
  exists yth, (Symbolic.normalize (Symbolic.transition_counts yth numGroups) (length y)).
  pose proof (TransitionProps.D_pos (length y) HN) as HD.
  split; [exact Hcg|]. split.
  { unfold Symbolic.TransitionMatrix_T.
    rewrite (proj2 (Nat.ltb_ge numGroups 2)) by lia.
    change (1 <? 1)%nat with false. cbv iota. rewrite Hcg. reflexivity. }
  split; [apply TransitionProps.T_length|].
  split; [apply TransitionProps.T_rows; exact HN|].
  split; [|split].
  - intros i j Hi Hj. eexists.
    split; [apply TransitionProps.T_entry; assumption|].
    split; [|reflexivity].
    apply Qle_shift_div_l; [exact HD|].
    rewrite Qmult_0_l. apply Qnat_nonneg.
  - apply TransitionProps.T_total; assumption.
  - intros i Hi H0 j Hj. eexists.
    split; [apply TransitionProps.T_entry; assumption|].
    assert (E : Notions.count_pairs (S i) (S j) yth = 0%nat).
    { unfold Notions.count_pairs. rewrite TransitionProps.filter_none; [reflexivity|].
      apply Forall_forall. intros p Hp. destruct (TransitionProps.adjacent_fst_in yth p Hp) as [Hf _].
      destruct (Nat.eqb (S i) (fst p)) eqn:Ei; [|reflexivity].
      exfalso. apply Nat.eqb_eq in Ei. rewrite <- Ei in Hf.
      unfold Notions.count_symbol in H0.
      apply (proj2 (count_occ_not_In Nat.eq_dec yth (S i)) H0 Hf). }
    rewrite E. unfold Qdiv. change (Qnat 0) with 0. ring.
Qed.

Lemma C2_transition_matrix_witness :
  (2 <= length [1; 5; 2; 4; 3; 7; 6])%nat /\ (2 <= 2)%nat /\
  Notions.first_point_included [1; 5; 2; 4; 3; 7; 6] /\
  exists yth T,
    Symbolic.CoarseGrain [1; 5; 2; 4; 3; 7; 6] "quantile" 2 = Ok yth /\
    Symbolic.TransitionMatrix_T (fun y _ => y) [1; 5; 2; 4; 3; 7; 6] "quantile" 2 1
    = Ok T /\
    exists q, Notions.total T = Fin q /\ q == 1.
Proof.
  assert (Hinc : Notions.first_point_included [1; 5; 2; 4; 3; 7; 6])
    by (vm_compute; reflexivity).
  split; [simpl; lia|]. split; [lia|]. split; [exact Hinc|].
  destruct (C2_transition_matrix (fun y _ => y) [1; 5; 2; 4; 3; 7; 6] 2)
    as (yth & T & H1 & H2 & _ & _ & _ & H3 & _); [simpl; lia | lia | exact Hinc |].
  exists yth, T. split; [exact H1|]. split; [exact H2 | exact H3].
Defined.

(** ** MotifTwo and MotifThree *)

Module MotifProps.
Import Notions Symbolic.

Ltac eqb_const :=
  try change (Nat.eqb 0 0) with true; try change (Nat.eqb 1 1) with true;
  try change (Nat.eqb 0 1) with false; try change (Nat.eqb 1 0) with false.

Lemma binarize_binary (y : list Q) (how : string) (yBin : list nat) :
  binarize y how = Ok yBin -> Forall binary yBin.
Proof.
  unfold binarize.
  assert (Hstep : forall x : list Q,
             Forall binary (map (fun v => if Qltb 0 v then 1%nat else 0%nat) x)).
  { intro x. apply Forall_map, Forall_forall. intros v _.
    destruct (Qltb 0 v); [right | left]; reflexivity. }
  assert (Habove : forall c : fval,
             Forall binary
               match c with
               | Fin m => map (fun v => if Qltb 0 v then 1%nat else 0%nat)
                              (map (fun v => v - m) y)
               | _ => repeat 0%nat (length y)
               end).
  { intros [m| | |]; try apply Hstep;
      apply Forall_forall; intros b Hb; apply repeat_spec in Hb; left; exact Hb. }
  destruct (String.eqb how "diff"); [intro E; injection E as <-; apply Hstep|].
  destruct (String.eqb how "mean"); [intro E; injection E as <-; apply Habove|].
  destruct (String.eqb how "median"); [intro E; injection E as <-; apply Habove|].
  discriminate.
Qed.

Lemma np_diff_length (y : list Q) : length (np_diff y) = (length y - 1)%nat.
Proof.
  induction y as [|a y IH]; [reflexivity|].
  destruct y as [|b y]; [reflexivity|].
  change (np_diff (a :: b :: y)) with ((b - a) :: np_diff (b :: y)).
  cbn [length] in *. rewrite IH. lia.
Qed.

(** [diff] loses one sample, [mean] and [median] keep the length. *)
Lemma binarize_length (y : list Q) (how : string) (yBin : list nat) :
  binarize y how = Ok yBin ->
  length yBin = if String.eqb how "diff" then (length y - 1)%nat else length y.
Proof.
  unfold binarize.
  assert (Habove : forall c : fval,
             length
               match c with
               | Fin m => map (fun v => if Qltb 0 v then 1%nat else 0%nat)
                              (map (fun v => v - m) y)
               | _ => repeat 0%nat (length y)
               end = length y).
  { intros [m| | |]; rewrite ?length_map, ?repeat_length; reflexivity. }
  destruct (String.eqb how "diff").
  - intro E; injection E as <-. rewrite length_map. apply np_diff_length.
  - destruct (String.eqb how "mean"); [intro E; injection E as <-; apply Habove|].
    destruct (String.eqb how "median"); [intro E; injection E as <-; apply Habove|].
    discriminate.
Qed.

Lemma count_true_map_pairs (f : nat * nat -> bool) (l : list (nat * nat)) :
  count_true (map f l) = length (filter f l).
Proof.
  unfold count_true. induction l as [|a l IH]; cbn [map filter]; [reflexivity|].
  destruct (f a); cbn [length]; now rewrite IH.
Qed.

Lemma two_way (l : list nat) :
  Forall binary l ->
  (length (filter (Nat.eqb 1) l) + length (filter (Nat.eqb 0) l) = length l)%nat.
Proof.
  induction 1 as [|b l Hb _ IH]; [reflexivity|].
  destruct Hb as [-> | ->]; cbn [filter]; eqb_const; cbn [length]; lia.
Qed.

(** The mask of a two-symbol word, read on the adjacent pairs. *)
Lemma word_mask (f g : nat -> bool) (l : list nat) :
  logical_and (removelast (map f l)) (map g (skipn 1 l))
  = map (fun p => f (fst p) && g (snd p)) (adjacent l).
Proof.
  unfold logical_and, adjacent.
  destruct l as [|a l]; [reflexivity|].
  cbn [skipn tl]. revert a.
  induction l as [|b l IH]; intro a; [reflexivity|].
  change (removelast (map f (a :: b :: l)))
    with (f a :: removelast (map f (b :: l))).
  cbn [map combine fst snd]. f_equal. apply IH.
Qed.

Lemma four_way (ps : list (nat * nat)) :
  Forall (fun p => binary (fst p) /\ binary (snd p)) ps ->
  (length (filter (fun p => Nat.eqb 0 (fst p) && Nat.eqb 0 (snd p)) ps)
   + length (filter (fun p => Nat.eqb 0 (fst p) && Nat.eqb 1 (snd p)) ps)
   + length (filter (fun p => Nat.eqb 1 (fst p) && Nat.eqb 0 (snd p)) ps)
   + length (filter (fun p => Nat.eqb 1 (fst p) && Nat.eqb 1 (snd p)) ps)
   = length ps)%nat.
Proof.
  induction 1 as [|[a b] ps [Ha Hb] _ IH]; [reflexivity|].
  cbn [fst snd] in Ha, Hb.
  destruct Ha as [-> | ->], Hb as [-> | ->];
    cbn [filter fst snd]; eqb_const; cbn [andb length]; lia.
Qed.

Lemma adjacent_binary (l : list nat) :
  Forall binary l -> Forall (fun p => binary (fst p) /\ binary (snd p)) (adjacent l).
Proof.
  intro H. rewrite Forall_forall in H. apply Forall_forall. intros p Hp.
  destruct (TransitionProps.adjacent_fst_in l p Hp). split; apply H; assumption.
Qed.

Lemma mean_mask_Fin (m : list bool) :
  (1 <= length m)%nat ->
  mean_mask m = Fin (Qnat (count_true m) / Qnat (length m)).
Proof.
  intro H. unfold mean_mask. apply TransitionProps.np_div_nonzero.
  pose proof (CoarseGrainProps.Qnat_pos (length m) H). lra.
Qed.

Lemma Qnat_div_sum (a b n : nat) :
  (1 <= n)%nat -> (a + b = n)%nat -> Qnat a / Qnat n + Qnat b / Qnat n == 1.
Proof.
  intros Hn E. pose proof (CoarseGrainProps.Qnat_pos n Hn) as Hp.
  rewrite <- E in *. rewrite Qnat_plus in *. field. lra.
Qed.

End MotifProps.

(** C5, as stated, fails for the default binarization: [diff] turns a
    series of 5 samples into 4 symbols, the guard [N < 5] applies and
    [MotifTwo] returns a bare not-a-number instead of a mapping. (The
    logarithm is not reached here; any function can stand in for it.) *)
Lemma C5_length_five_counterexample :
  length [1; 2; 3; 4; 5] = 5%nat /\
  Symbolic.binarize [1; 2; 3; 4; 5] "diff" = Ok [1; 1; 1; 1]%nat /\
  Symbolic.MotifTwo (fun q => q - 1) [1; 2; 3; 4; 5] "diff" = Ok (Symbolic.Scalar NaN).
Proof. repeat split; vm_compute; reflexivity. Qed.

(** C5, amended. Whenever the binarized sequence has at least 5
    symbols (a series of at least 6 samples under [diff], of at least 5
    under [mean] or [median]), [MotifTwo] returns a mapping in which
    [u + d = 1] and [dd + du + ud + uu = 1]. *)
Theorem C5_MotifTwo_probabilities
    (np_log : Q -> Q) (y : list Q) (binarizeHow : string) (yBin : list nat) :
  Symbolic.binarize y binarizeHow = Ok yBin ->
  (5 <= length yBin)%nat ->
  length yBin = (if String.eqb binarizeHow "diff"
                 then (length y - 1)%nat else length y) /\
  exists out u d dd du ud uu,
    Symbolic.MotifTwo np_log y binarizeHow = Ok (Symbolic.Mapping out) /\
    dict_get "u" out = Some (Fin u) /\
    dict_get "d" out = Some (Fin d) /\
    u + d == 1 /\
    dict_get "dd" out = Some (Fin dd) /\
    dict_get "du" out = Some (Fin du) /\
    dict_get "ud" out = Some (Fin ud) /\
    dict_get "uu" out = Some (Fin uu) /\
    dd + du + ud + uu == 1.
Proof.
  intros Hb HN.
  split; [apply (MotifProps.binarize_length y binarizeHow yBin Hb)|].
  pose proof (MotifProps.binarize_binary y binarizeHow yBin Hb) as Hbin.
  set (r1 := map (Nat.eqb 1) yBin). set (r0 := map (Nat.eqb 0) yBin).
  set (w2 := Symbolic.extend_words [("d", r0); ("u", r1)] (skipn 1 yBin)).
  assert (Hr1 : length r1 = length yBin) by apply length_map.
  assert (Hr0 : length r0 = length yBin) by apply length_map.
  assert (Hadj : length (Notions.adjacent yBin) = (length yBin - 1)%nat)
    by apply TransitionProps.adjacent_length.
  assert (Hout : exists rest,
             Symbolic.MotifTwo np_log y binarizeHow
             = Ok (Symbolic.Mapping
                     ([("u", mean_mask r1); ("d", mean_mask r0);
                       ("h", Symbolic.f_entropy np_log [mean_mask r0; mean_mask r1])]
                      ++ Symbolic.record_words w2 ++ rest)%list)).
  { unfold Symbolic.MotifTwo. rewrite Hb. cbn [bind].
    rewrite (proj2 (Nat.ltb_ge (length yBin) 5)) by lia.
    eexists. reflexivity. }
  destruct Hout as (rest & Hout).
  assert (Hw2 : Symbolic.record_words w2 =
    [ ("dd", mean_mask (map (fun p => Nat.eqb 0 (fst p) && Nat.eqb 0 (snd p))
                            (Notions.adjacent yBin)));
      ("du", mean_mask (map (fun p => Nat.eqb 0 (fst p) && Nat.eqb 1 (snd p))
                            (Notions.adjacent yBin)));
      ("ud", mean_mask (map (fun p => Nat.eqb 1 (fst p) && Nat.eqb 0 (snd p))
                            (Notions.adjacent yBin)));
      ("uu", mean_mask (map (fun p => Nat.eqb 1 (fst p) && Nat.eqb 1 (snd p))
                            (Notions.adjacent yBin))) ]).
  { unfold w2, Symbolic.extend_words, Symbolic.record_words, r0, r1.
    cbn [flat_map map app fst snd String.append].
    rewrite !MotifProps.word_mask. reflexivity. }
  rewrite Hw2 in Hout.
  rewrite !MotifProps.mean_mask_Fin in Hout
    by (rewrite ?length_map, ?Hadj, ?Hr0, ?Hr1; lia).
  eexists. do 6 eexists.
  split; [exact Hout|].
  split; [reflexivity|]. split; [reflexivity|]. split.
  { unfold r1, r0. rewrite !TransitionProps.count_true_filter, !length_map.
    apply MotifProps.Qnat_div_sum; [lia | apply MotifProps.two_way, Hbin]. }
  split; [reflexivity|]. split; [reflexivity|].
  split; [reflexivity|]. split; [reflexivity|].
  rewrite !MotifProps.count_true_map_pairs, !length_map.
  pose proof (MotifProps.four_way _ (MotifProps.adjacent_binary yBin Hbin)) as H4.
  set (n00 := length (filter _ _)) in *.
  set (n01 := length (filter (fun p => Nat.eqb 0 (fst p) && Nat.eqb 1 (snd p)) _)) in *.
  set (n10 := length (filter (fun p => Nat.eqb 1 (fst p) && Nat.eqb 0 (snd p)) _)) in *.
  set (n11 := length (filter (fun p => Nat.eqb 1 (fst p) && Nat.eqb 1 (snd p)) _)) in *.
  assert (Hp : 0 < Qnat (length (Notions.adjacent yBin)))
    by (apply CoarseGrainProps.Qnat_pos; lia).
  rewrite <- H4 in *. rewrite !Qnat_plus in *. field. lra.
Qed.

Lemma C5_MotifTwo_probabilities_witness :
  Symbolic.binarize [1; 2; 1; 4; 5; 3] "diff" = Ok [1; 0; 1; 1; 0]%nat /\
  (5 <= length [1; 0; 1; 1; 0]%nat)%nat /\
  exists out u d,
    Symbolic.MotifTwo (fun q => q - 1) [1; 2; 1; 4; 5; 3] "diff"
    = Ok (Symbolic.Mapping out) /\
    dict_get "u" out = Some (Fin u) /\
    dict_get "d" out = Some (Fin d) /\
    u + d == 1.
Proof.
  split; [vm_compute; reflexivity|]. split; [simpl; lia|].
  destruct (C5_MotifTwo_probabilities (fun q => q - 1)
              [1; 2; 1; 4; 5; 3] "diff" [1; 0; 1; 1; 0]%nat)
    as (_ & out & u & d & dd & du & ud & uu & H1 & H2 & H3 & H4 & _);
    [vm_compute; reflexivity | simpl; lia |].
  exists out, u, d. repeat split; assumption.
Defined.

(** *** Short series *)

Module ShortSeries.
Import Notions Symbolic.

Lemma record_positions_ok (N L : nat) (words : list (string * list nat)) :
  (L < N)%nat -> exists p, record_positions N L words = Ok p /\ length p = length words.
Proof.
  intro H. unfold record_positions.
  assert (Hd : Qeqb (inject_Z (Z.of_nat N - Z.of_nat L)) 0 = false).
  { apply Qeqb_false. intro E.
    change 0 with (inject_Z 0) in E. rewrite inject_Z_injective in E. lia. }
  induction words as [|w words (p & Hp & Hl)]; cbn [mapM].
  - exists []. split; reflexivity.
  - unfold py_div at 1. rewrite Hd. cbn [bind]. rewrite Hp. cbn [bind].
    eexists. split; [reflexivity|]. cbn [length]. now rewrite Hl.
Qed.

Lemma record_positions_raises (N : nat) (words : list (string * list nat)) :
  words <> [] -> record_positions N N words = Raise ZeroDivisionError.
Proof.
  intro H. destruct words as [|w words]; [congruence|].
  unfold record_positions. cbn [mapM]. unfold py_div.
  rewrite Z.sub_diag. reflexivity.
Qed.

Lemma extend_positions_nonempty (yt : list nat) (N L : nat)
    (words : list (string * list nat)) :
  words <> [] -> extend_positions yt N L words <> [].
Proof.
  intro H. destruct words as [|w words]; [congruence|].
  unfold extend_positions. cbn [flat_map seq map app]. discriminate.
Qed.

End ShortSeries.

(** C6. [MotifTwo] returns the not-a-number sentinel on a binarization
    of fewer than 5 symbols, but [MotifThree] has no such guard: on
    every series of 1, 2 or 3 samples (quantile method) it raises.
    When the coarse-graining returns, the division [len(r) / (N - L)]
    of Python integers raises [ZeroDivisionError]; when the smallest
    sample is so large that [th[0] -= 1] is lost, the coarse-graining
    itself raises its consistency error. *)
Theorem C6_MotifThree_raises_on_short_series (np_log : Q -> Q) (y : list Q) :
  (1 <= length y <= 3)%nat ->
  raises (Symbolic.MotifThree np_log y "quantile") /\
  (Notions.first_point_included y ->
   Symbolic.MotifThree np_log y "quantile" = Raise ZeroDivisionError) /\
  (~ Notions.first_point_included y ->
   Symbolic.MotifThree np_log y "quantile"
   = Raise (ValueError "All values in the sequence were not assigned to a group")) /\
  (forall how yBin,
      Symbolic.binarize y how = Ok yBin -> (length yBin < 5)%nat ->
      Symbolic.MotifTwo np_log y how = Ok (Symbolic.Scalar NaN)).
Proof.
  intro HN.
  assert (Hy : y <> []) by (destruct y; [simpl in HN; lia | discriminate]).
  assert (Hzero : Notions.first_point_included y ->
                  Symbolic.MotifThree np_log y "quantile" = Raise ZeroDivisionError).
  { intro Hinc. unfold Symbolic.MotifThree.
    change (String.eqb "quantile" "quantile") with true. cbv iota.
    rewrite (CoarseGrainProps.CoarseGrain_quantile_ok y 3 Hy) by (lia || exact Hinc).
    cbn [bind].
    rewrite CoarseGrainProps.quantile_symbols_length.
    set (yt := Symbolic.quantile_symbols y 3).
    set (N := length y) in *.
    set (w1 := map (fun i => (Symbolic.letter i,
                              np_where (map (Nat.eqb (S i)) yt))) (seq 0 3)).
    assert (H1 : w1 <> []) by (unfold w1; cbn [seq map]; discriminate).
    pose proof (ShortSeries.extend_positions_nonempty yt N 1 w1 H1) as H2.
    pose proof (ShortSeries.extend_positions_nonempty yt N 2 _ H2) as H3.
    pose proof (ShortSeries.extend_positions_nonempty yt N 3 _ H3) as H4.
    destruct (ShortSeries.record_positions_ok N 0 w1) as (p1 & E1 & _); [lia|].
    rewrite E1. cbn [bind].
    destruct (Nat.eq_dec N 1) as [->|N1].
    { rewrite ShortSeries.record_positions_raises by exact H2. reflexivity. }
    destruct (ShortSeries.record_positions_ok N 1 (Symbolic.extend_positions yt N 1 w1))
      as (p2 & E2 & _); [lia|].
    rewrite E2. cbn [bind].
    destruct (Nat.eq_dec N 2) as [->|N2].
    { rewrite ShortSeries.record_positions_raises by exact H3. reflexivity. }
    destruct (ShortSeries.record_positions_ok N 2
                (Symbolic.extend_positions yt N 2 (Symbolic.extend_positions yt N 1 w1)))
      as (p3 & E3 & _); [lia|].
    rewrite E3. cbn [bind].
    assert (N = 3%nat) as -> by lia.
    rewrite ShortSeries.record_positions_raises by exact H4. reflexivity. }
  assert (Hlost : ~ Notions.first_point_included y ->
                  Symbolic.MotifThree np_log y "quantile"
                  = Raise (ValueError
                             "All values in the sequence were not assigned to a group")).
  { intro Hinc. unfold Symbolic.MotifThree.
    change (String.eqb "quantile" "quantile") with true. cbv iota.
    rewrite (CoarseGrainProps.CoarseGrain_quantile_unassigned y 3 Hy Hinc).
    reflexivity. }
  split; [|split; [exact Hzero|split; [exact Hlost|]]].
  - destruct (CoarseGrainProps.first_point_included_dec y) as [Hinc | Hinc].
    + eexists. apply Hzero, Hinc.
    + eexists. apply Hlost, Hinc.
  - intros how yBin Hb Hlen. unfold Symbolic.MotifTwo. rewrite Hb. cbn [bind].
    rewrite (proj2 (Nat.ltb_lt (length yBin) 5) Hlen). reflexivity.
Qed.

Lemma C6_MotifThree_raises_on_short_series_witness :
  ((1 <= length [1; 2] <= 3)%nat /\
   Notions.first_point_included [1; 2] /\
   Symbolic.MotifThree (fun q => q - 1) [1; 2] "quantile" = Raise ZeroDivisionError) /\
  ((1 <= length [10 ^ 17; 2 * 10 ^ 17] <= 3)%nat /\
   ~ Notions.first_point_included [10 ^ 17; 2 * 10 ^ 17] /\
   Symbolic.MotifThree (fun q => q - 1) [10 ^ 17; 2 * 10 ^ 17] "quantile"
   = Raise (ValueError "All values in the sequence were not assigned to a group")).
Proof.
  assert (Hinc : Notions.first_point_included [1; 2]) by (vm_compute; reflexivity).
  assert (Hlost : ~ Notions.first_point_included [10 ^ 17; 2 * 10 ^ 17]).
  { intro H. vm_compute in H. discriminate H. }
  split.
  - split; [simpl; lia|]. split; [exact Hinc|].
    refine (proj1 (proj2
              (C6_MotifThree_raises_on_short_series (fun q => q - 1) [1; 2] _)) Hinc).
    simpl; lia.
  - split; [simpl; lia|]. split; [exact Hlost|].
    refine (proj1 (proj2 (proj2
              (C6_MotifThree_raises_on_short_series (fun q => q - 1)
                 [10 ^ 17; 2 * 10 ^ 17] _))) Hlost).
    simpl; lia.
Defined.

(** ** BinaryStats *)

Module BinaryStatsProps.
Import Notions Symbolic.

Lemma where_from_all (n i : nat) : where_from i (repeat true n) = seq i n.
Proof.
  revert i. induction n as [|n IH]; intro i; [reflexivity|].
  cbn [repeat where_from seq]. now rewrite IH.
Qed.

Lemma np_diff_nat_seq (n i : nat) :
  Forall (fun v => v = 1%Z) (np_diff_nat (seq i n)).
Proof.
  revert i. induction n as [|n IH]; intro i; [constructor|].
  destruct n as [|n]; [constructor|].
  change (np_diff_nat (seq i (S (S n))))
    with ((Z.of_nat (S i) - Z.of_nat i)%Z :: np_diff_nat (seq (S i) (S n))).
  constructor; [lia | apply IH].
Qed.

(** Without a boundary inside the sequence there is no run to measure. *)
Lemma stretches_none (mask : list bool) :
  Forall (fun b => b = true) mask ->
  stretches (true :: mask ++ [true]) = [].
Proof.
  intro H. unfold stretches, np_where.
  assert (E : (true :: mask ++ [true])%list = repeat true (S (length mask + 1))).
  { cbn [repeat]. f_equal. rewrite repeat_app. cbn [repeat]. f_equal.
    induction H as [|b l Hb _ IH]; [reflexivity|].
    cbn [length repeat]. rewrite Hb. f_equal. exact IH. }
  rewrite E, where_from_all.
  rewrite TransitionProps.filter_none; [reflexivity|]. apply Forall_forall.
  intros v Hv. pose proof (np_diff_nat_seq (S (length mask + 1)) 0) as Hs.
  rewrite Forall_forall in Hs. rewrite (Hs v Hv). reflexivity.
Qed.

Lemma stretch0_none (yBin : list nat) :
  ~ In 0%nat yBin ->
  stretches (true :: map (fun b => negb (b =? 0)%nat) yBin ++ [true]) = [].
Proof.
  intro H. apply stretches_none, Forall_map, Forall_forall. intros b Hb.
  destruct (Nat.eqb_spec b 0) as [->|]; [contradiction | reflexivity].
Qed.

Lemma stretch1_none (yBin : list nat) :
  Forall Notions.binary yBin -> ~ In 1%nat yBin ->
  stretches (true :: map (fun b => (b =? 0)%nat) yBin ++ [true]) = [].
Proof.
  intros Hbin H. apply stretches_none, Forall_map, Forall_forall. intros b Hb.
  rewrite Forall_forall in Hbin. destruct (Hbin b Hb) as [-> | ->];
    [reflexivity | contradiction].
Qed.

Lemma py_div_ok (x d : Q) : ~ d == 0 -> py_div x d = Ok (x / d).
Proof.
  intro H. unfold py_div. rewrite (proj2 (Qeqb_false d 0) H). reflexivity.
Qed.

Lemma Qnat_nonzero (n : nat) : (1 <= n)%nat -> ~ Qnat n == 0.
Proof. intro H. pose proof (CoarseGrainProps.Qnat_pos n H). lra. Qed.

End BinaryStatsProps.

(** C9, as stated, fails on the run statistic [diff21stretch0]: on an
    increasing series the [diff] binarization has no 0, and the
    difference between the proportions of runs of length 2 and 1 is a
    mean over an empty array, not-a-number rather than zero. (The
    square root is not reached here; the identity stands in for it.) *)
Lemma C9_diff21_counterexample :
  Symbolic.binarize [1; 2; 3; 4; 5] "diff" = Ok [1; 1; 1; 1]%nat /\
  exists out,
    Symbolic.BinaryStats (fun v => v) [1; 2; 3; 4; 5] "diff" = Ok out /\
    dict_get "longstretch0" out = Some (Fin 0) /\
    dict_get "diff21stretch0" out = Some NaN.
Proof.
  split; [vm_compute; reflexivity|].
  eexists. split; [vm_compute; reflexivity|]. split; reflexivity.
Qed.

(** C9, amended. On a non-empty binarization without the symbol 0,
    [longstretch0], [longstretch0norm], [meanstretch0] and
    [meanstretch0norm] are present and zero, and [stdstretch0],
    [stdstretch0norm] and [diff21stretch0] are not-a-number. Without
    the symbol 1, [pstretch1], [longstretch1], [longstretch1norm],
    [meanstretch1] and [meanstretch1norm] are present and zero, and
    [stdstretch1] and [diff21stretch1] are not-a-number. *)
Theorem C9_BinaryStats_absent_symbol
    (np_sqrt : Q -> Q) (y : list Q) (binaryMethod : string) (yBin : list nat) :
  Symbolic.binarize y binaryMethod = Ok yBin -> yBin <> [] ->
  (~ In 0%nat yBin ->
   exists out,
     Symbolic.BinaryStats np_sqrt y binaryMethod = Ok out /\
     dict_get "longstretch0" out = Some (Fin 0) /\
     dict_get "longstretch0norm" out = Some (Fin 0) /\
     dict_get "meanstretch0" out = Some (Fin 0) /\
     dict_get "meanstretch0norm" out = Some (Fin 0) /\
     dict_get "stdstretch0" out = Some NaN /\
     dict_get "stdstretch0norm" out = Some NaN /\
     dict_get "diff21stretch0" out = Some NaN) /\
  (~ In 1%nat yBin ->
   exists out p,
     Symbolic.BinaryStats np_sqrt y binaryMethod = Ok out /\
     dict_get "pstretch1" out = Some (Fin p) /\ p == 0 /\
     dict_get "longstretch1" out = Some (Fin 0) /\
     dict_get "longstretch1norm" out = Some (Fin 0) /\
     dict_get "meanstretch1" out = Some (Fin 0) /\
     dict_get "meanstretch1norm" out = Some (Fin 0) /\
     dict_get "stdstretch1" out = Some NaN /\
     dict_get "diff21stretch1" out = Some NaN).
Proof.
  intros Hb Hne.
  pose proof (MotifProps.binarize_binary y binaryMethod yBin Hb) as Hbin.
  assert (HN : ~ Qnat (length yBin) == 0).
  { apply BinaryStatsProps.Qnat_nonzero. destruct yBin; [congruence | simpl; lia]. }
  split; intro Habs.
  - unfold Symbolic.BinaryStats. rewrite Hb. cbn [bind].
    rewrite (BinaryStatsProps.stretch0_none yBin Habs).
    rewrite (BinaryStatsProps.py_div_ok _ _ HN). cbn [bind].
    destruct (Symbolic.stretches
                (true :: map (fun b => (b =? 0)%nat) yBin ++ [true]));
      eexists; (split; [reflexivity|]); repeat split; reflexivity.
  - unfold Symbolic.BinaryStats. rewrite Hb. cbn [bind].
    rewrite (BinaryStatsProps.stretch1_none yBin Hbin Habs).
    rewrite (BinaryStatsProps.py_div_ok _ _ HN). cbn [bind].
    destruct (Symbolic.stretches
                (true :: map (fun b => negb (b =? 0)%nat) yBin ++ [true]));
      eexists; eexists; (split; [reflexivity|]); (split; [reflexivity|]);
      (split; [cbn [length]; change (Qnat 0) with 0; unfold Qdiv; ring|]);
      repeat split; reflexivity.
Qed.

Lemma C9_BinaryStats_absent_symbol_witness :
  Symbolic.binarize [5; 4; 3; 2; 1] "diff" = Ok [0; 0; 0; 0]%nat /\
  [0; 0; 0; 0]%nat <> [] /\ ~ In 1%nat [0; 0; 0; 0]%nat /\
  exists out p,
    Symbolic.BinaryStats (fun v => v) [5; 4; 3; 2; 1] "diff" = Ok out /\
    dict_get "pstretch1" out = Some (Fin p) /\ p == 0 /\
    dict_get "longstretch1" out = Some (Fin 0) /\
    dict_get "longstretch1norm" out = Some (Fin 0) /\
    dict_get "meanstretch1" out = Some (Fin 0) /\
    dict_get "meanstretch1norm" out = Some (Fin 0) /\
    dict_get "stdstretch1" out = Some NaN /\
    dict_get "diff21stretch1" out = Some NaN.
Proof.
  assert (Hb : Symbolic.binarize [5; 4; 3; 2; 1] "diff" = Ok [0; 0; 0; 0]%nat)
    by (vm_compute; reflexivity).
  assert (Hne : [0; 0; 0; 0]%nat <> []) by discriminate.
  assert (H1 : ~ In 1%nat [0; 0; 0; 0]%nat)
    by (intro H; repeat (destruct H as [H|H]; [discriminate|]); exact H).
  split; [exact Hb|]. split; [exact Hne|]. split; [exact H1|].
  exact (proj2 (C9_BinaryStats_absent_symbol (fun v => v)
                  [5; 4; 3; 2; 1] "diff" [0; 0; 0; 0]%nat Hb Hne) H1).
Defined.

(** The mapping lacks [stdstretch1norm] when the symbol 1 is absent,
    although the branch for the symbol 0 sets [stdstretch0norm]. *)
Lemma BinaryStats_stdstretch1norm_missing :
  exists out,
    Symbolic.BinaryStats (fun v => v) [5; 4; 3; 2; 1] "diff" = Ok out /\
    dict_get "stdstretch1" out = Some NaN /\
    dict_get "stdstretch1norm" out = None /\
    dict_get "stdstretch0norm" out <> None.
Proof.
  eexists. split; [vm_compute; reflexivity|].
  split; [reflexivity|]. split; [reflexivity|]. discriminate.
Qed.

(** ** Surprise *)

Module SurpriseProps.
Import Notions Symbolic.

Lemma insert_nat_perm (a : nat) (s : list nat) :
  Permutation (insert_by Nat.leb a s) (a :: s).
Proof.
  induction s as [|b s IH]; cbn [insert_by].
  - apply Permutation_refl.
  - destruct (Nat.leb a b).
    + apply Permutation_refl.
    + eapply perm_trans; [apply perm_skip, IH | apply perm_swap].
Qed.

Lemma sort_nat_perm (x : list nat) : Permutation (sort_nat x) x.
Proof.
  unfold sort_nat. induction x as [|a x IH]; cbn [sort_by].
  - apply perm_nil.
  - eapply perm_trans; [apply insert_nat_perm | apply perm_skip, IH].
Qed.

Lemma insert_nat_sorted (a : nat) (s : list nat) :
  StronglySorted le s -> StronglySorted le (insert_by Nat.leb a s).
Proof.
  induction s as [|b s IH]; intro Hs; cbn [insert_by].
  - constructor; constructor.
  - destruct (Nat.leb_spec a b) as [Hab | Hba].
    + constructor; [exact Hs|]. constructor; [exact Hab|].
      apply StronglySorted_inv in Hs. destruct Hs as [_ Hb].
      eapply Forall_impl; [|exact Hb]. intros c Hc. lia.
    + apply StronglySorted_inv in Hs. destruct Hs as [Hs Hb].
      constructor; [apply IH, Hs|].
      eapply Permutation_Forall; [apply Permutation_sym, insert_nat_perm|].
      constructor; [lia | exact Hb].
Qed.

Lemma sort_nat_sorted (x : list nat) : StronglySorted le (sort_nat x).
Proof.
  unfold sort_nat. induction x as [|a x IH]; cbn [sort_by].
  - constructor.
  - apply insert_nat_sorted, IH.
Qed.

Lemma NoDup_firstn {A : Type} (c : nat) (l : list A) : NoDup l -> NoDup (firstn c l).
Proof.
  intro H. rewrite <- (firstn_skipn c l) in H.
  apply NoDup_app_remove_r in H. exact H.
Qed.

Lemma In_firstn {A : Type} (c : nat) (l : list A) (a : A) :
  In a (firstn c l) -> In a l.
Proof.
  intro H. rewrite <- (firstn_skipn c l). apply in_or_app. left. exact H.
Qed.

End SurpriseProps.

(** C8. The indices that [Surprise] samples from a permutation of
    [range(n)], [n = N - m], are distinct, sorted and inside
    [[m, m + n)], but their number is [min(numIters, n - 1)]: the slice
    [rs[0:min(numIters, len(rs) - 1)]] always leaves one index out, so
    when [n <= numIters] the code draws [n - 1] indices and not the [n]
    feasible ones. *)
Theorem C8_sampled_indices_one_short (perm : list nat) (m numIters n : nat) :
  Permutation perm (seq 0 n) ->
  let rs := Symbolic.sampled_indices perm m numIters in
  length rs = Nat.min numIters (n - 1) /\
  NoDup rs /\
  Forall (fun t => (m <= t < m + n)%nat) rs /\
  StronglySorted le rs /\
  ((1 <= n)%nat -> (n <= numIters)%nat ->
   length rs = (n - 1)%nat /\ length rs <> Nat.min numIters n).
Proof.
  intros Hp rs.
  assert (Hlen : length perm = n).
  { rewrite (Permutation_length Hp). apply length_seq. }
  assert (Hnd : NoDup (map (fun i => (i + m)%nat) perm)).
  { apply Finite.Injective_map_NoDup.
    - intros a b E. lia.
    - apply (Permutation_NoDup (Permutation_sym Hp)), seq_NoDup. }
  set (c := Nat.min numIters (length (map (fun i => (i + m)%nat) perm) - 1)).
  assert (Hperm : Permutation rs (firstn c (map (fun i => (i + m)%nat) perm)))
    by apply SurpriseProps.sort_nat_perm.
  assert (Hc : c = Nat.min numIters (n - 1)).
  { unfold c. rewrite length_map, Hlen. reflexivity. }
  assert (Hl : length rs = Nat.min numIters (n - 1)).
  { rewrite (Permutation_length Hperm), length_firstn, length_map, Hlen, Hc. lia. }
  split; [exact Hl|]. split; [|split; [|split]].
  - apply (Permutation_NoDup (Permutation_sym Hperm)).
    apply SurpriseProps.NoDup_firstn, Hnd.
  - apply (Permutation_Forall (Permutation_sym Hperm)).
    apply Forall_forall. intros t Ht.
    apply SurpriseProps.In_firstn in Ht. apply in_map_iff in Ht.
    destruct Ht as (i & <- & Hi).
    apply (Permutation_in _ Hp) in Hi. apply in_seq in Hi. lia.
  - apply SurpriseProps.sort_nat_sorted.
  - intros H1 H2. rewrite Hl. split; lia.
Qed.

Lemma C8_sampled_indices_one_short_witness :
  Permutation [3; 1; 0; 2; 4; 7; 6; 5]%nat (seq 0 8) /\
  length (Symbolic.sampled_indices [3; 1; 0; 2; 4; 7; 6; 5]%nat 2 500)
  = Nat.min 500 (8 - 1).
Proof.
  assert (Hp : Permutation [3; 1; 0; 2; 4; 7; 6; 5]%nat (seq 0 8)).
  { apply (Permutation_trans (Permutation_sym
             (SurpriseProps.sort_nat_perm [3; 1; 0; 2; 4; 7; 6; 5]%nat))).
    vm_compute. apply Permutation_refl. }
  split; [exact Hp|].
  exact (proj1 (C8_sampled_indices_one_short
                  [3; 1; 0; 2; 4; 7; 6; 5]%nat 2 500 8 Hp)).
Defined.

(** C3. The stored probability of the [T2] prior is not the empirical
    second-order estimate: [inmem2] holds positions inside [inmem1],
    not positions of the window, so [memory_data[inmem2 + 2]] reads the
    wrong followers. On [y = [1,1,2,1,2,1,1]] with 2 groups and a memory
    of 5 the one index that is sampled is 5 or 6; at 5 the code stores 0
    where the estimate is 1, at 6 it stores 1 where the estimate is 0. *)
Theorem C3_T2_not_second_order_estimate :
  let y := [1; 1; 2; 1; 2; 1; 1] in
  let yth := [1; 1; 2; 1; 2; 1; 1]%nat in
  Symbolic.CoarseGrain y "quantile" 2 = Ok yth /\
  Symbolic.sampled_indices [0; 1]%nat 5 500 = [5]%nat /\
  Symbolic.sampled_indices [1; 0]%nat 5 500 = [6]%nat /\
  feq (Symbolic.prob_T2 yth 5 5) (Fin 0) /\
  feq (Notions.T2_estimate yth 5 5) (Fin 1) /\
  feq (Symbolic.prob_T2 yth 5 6) (Fin 1) /\
  feq (Notions.T2_estimate yth 5 6) (Fin 0) /\
  ~ feq (Symbolic.prob_T2 yth 5 5) (Notions.T2_estimate yth 5 5) /\
  ~ feq (Symbolic.prob_T2 yth 5 6) (Notions.T2_estimate yth 5 6).
Proof.
  cbv zeta. repeat split; try (vm_compute; reflexivity);
    vm_compute; intro H; discriminate H.
Qed.

(** *** The information gains *)

Module GainProps.
Import Notions Symbolic.

Lemma count_true_le (m : list bool) : (count_true m <= length m)%nat.
Proof. unfold count_true. apply filter_length_le. Qed.

Lemma ratio_unit (c n : nat) :
  (c <= n)%nat -> (1 <= n)%nat -> unit_prob (np_div (Qnat c) (Qnat n)).
Proof.
  intros Hc Hn. pose proof (CoarseGrainProps.Qnat_pos n Hn) as Hp.
  rewrite TransitionProps.np_div_nonzero by lra.
  eexists. split; [reflexivity|]. split.
  - apply Qle_shift_div_l; [exact Hp|]. rewrite Qmult_0_l. apply Qnat_nonneg.
  - apply Qle_shift_div_r; [exact Hp|]. rewrite Qmult_1_l. apply Qnat_le, Hc.
Qed.

Lemma zero_unit : unit_prob (Fin 0).
Proof. exists 0. split; [reflexivity|]. split; lra. Qed.

Lemma prob_dist_unit (yth : list nat) (m t : nat) :
  (1 <= m)%nat -> unit_prob (prob_dist yth m t).
Proof.
  intro Hm. unfold prob_dist. apply ratio_unit; [|exact Hm].
  eapply Nat.le_trans; [apply count_true_le|].
  rewrite length_map. unfold memory_window. rewrite length_firstn. lia.
Qed.

Lemma prob_T1_unit (yth : list nat) (m t : nat) : unit_prob (prob_T1 yth m t).
Proof.
  unfold prob_T1.
  destruct (np_where _) as [|i inmem] eqn:E; [apply zero_unit|].
  unfold mean_mask. apply ratio_unit; [apply count_true_le|].
  rewrite length_map. simpl. lia.
Qed.

Lemma prob_T2_unit (yth : list nat) (m t : nat) : unit_prob (prob_T2 yth m t).
Proof.
  unfold prob_T2.
  destruct (np_where (map _ (np_where _))) as [|i inmem2] eqn:E; [apply zero_unit|].
  apply ratio_unit; [|simpl; lia].
  eapply Nat.le_trans; [apply count_true_le|]. rewrite length_map. apply Nat.le_refl.
Qed.

Lemma prob_unit (whatPrior : string) (yth : list nat) (m t : nat) (v : fval) :
  (1 <= m)%nat \/ whatPrior <> "dist" ->
  prob whatPrior yth m t = Ok v -> unit_prob v.
Proof.
  intros Hm. unfold prob.
  destruct (String.eqb_spec whatPrior "dist") as [E|_].
  - intro H. injection H as <-. destruct Hm as [Hm | Hm]; [|contradiction].
    apply prob_dist_unit, Hm.
  - destruct (String.eqb whatPrior "T1");
      [intro H; injection H as <-; apply prob_T1_unit|].
    destruct (String.eqb whatPrior "T2");
      [intro H; injection H as <-; apply prob_T2_unit|].
    discriminate.
Qed.

Lemma mapM_Forall {A B : Type} (f : A -> py B) (P : B -> Prop) (l : list A) :
  (forall a b, f a = Ok b -> P b) ->
  forall bs, mapM f l = Ok bs -> Forall P bs.
Proof.
  intro H. induction l as [|a l IH]; intros bs E; cbn [mapM] in E.
  - injection E as <-. constructor.
  - destruct (f a) as [b|e] eqn:Ea; cbn [bind] in E; [|discriminate].
    destruct (mapM f l) as [bs'|e] eqn:El; cbn [bind] in E; [|discriminate].
    injection E as <-. constructor; [apply (H a), Ea | apply IH; reflexivity].
Qed.

Section Gains.

Variable np_log : Q -> Q.
Variable np_sqrt : Q -> Q.
Hypothesis np_log_nonpos : forall p, 0 < p -> p <= 1 -> np_log p <= 0.

Lemma gain_nonneg (v : fval) :
  unit_prob v -> nonneg (info_gain np_log (zero_to_one v)).
Proof.
  intros (p & -> & H0 & H1). unfold zero_to_one.
  assert (Hg : forall r, 0 < r -> r <= 1 -> nonneg (info_gain np_log (Fin r))).
  { intros r Hr0 Hr1. unfold info_gain.
    rewrite (proj2 (Qltb_false r 0)) by lra.
    rewrite (proj2 (Qeqb_false r 0)) by lra.
    eexists. split; [reflexivity|].
    pose proof (np_log_nonpos r Hr0 Hr1). lra. }
  destruct (Qeqb p 0) eqn:E.
  - apply Hg; lra.
  - apply Qeqb_false in E. apply Hg; lra.
Qed.

Lemma gains_nonneg (probs : list fval) (numIters : nat) :
  Forall unit_prob probs -> Forall nonneg (gains np_log probs numIters).
Proof.
  intro H. unfold gains. apply Forall_map, Forall_app. split.
  - eapply Forall_impl; [|exact H]. intros v Hv. apply gain_nonneg, Hv.
  - apply Forall_forall. intros v Hv. apply repeat_spec in Hv. subst v.
    apply gain_nonneg, zero_unit.
Qed.

Lemma gains_length (probs : list fval) (numIters : nat) :
  (length probs <= numIters)%nat -> length (gains np_log probs numIters) = numIters.
Proof.
  intro H. unfold gains. rewrite length_map, length_app, repeat_length. lia.
Qed.

End Gains.

(** The gains hold no infinity, whatever the memory and the
    logarithm: the reductions only have to tell finite entries from
    not-a-number. *)
Lemma prob_unit_or_nan (whatPrior : string) (yth : list nat) (m t : nat) (v : fval) :
  prob whatPrior yth m t = Ok v -> unit_prob v \/ v = NaN.
Proof.
  destruct m as [|m].
  - destruct (String.eqb_spec whatPrior "dist") as [->|Hn].
    + intro H. cbn in H. injection H as <-. right. reflexivity.
    + intro H. left. apply (prob_unit whatPrior yth 0 t v (or_intror Hn) H).
  - intro H. left. assert (H1 : (1 <= S m)%nat) by lia.
    apply (prob_unit whatPrior yth (S m) t v (or_introl H1) H).
Qed.

Lemma gains_finite_or_nan (np_log : Q -> Q) (whatPrior : string)
    (yth : list nat) (m numIters : nat) (ts : list nat) (probs : list fval) :
  mapM (prob whatPrior yth m) ts = Ok probs ->
  Forall finite_or_nan (gains np_log probs numIters).
Proof.
  intro E.
  assert (Hg : forall v, unit_prob v \/ v = NaN ->
                         finite_or_nan (info_gain np_log (zero_to_one v))).
  { intros v [(p & -> & H0 & H1) | ->]; [|exact I].
    unfold zero_to_one. destruct (Qeqb p 0) eqn:E0.
    - cbn. exact I.
    - apply Qeqb_false in E0. unfold info_gain.
      rewrite (proj2 (Qltb_false p 0)) by lra.
      rewrite (proj2 (Qeqb_false p 0)) by lra. exact I. }
  unfold gains. apply Forall_map, Forall_app. split.
  - pose proof (mapM_Forall _ (fun v => unit_prob v \/ v = NaN) ts
                  (fun a b => prob_unit_or_nan whatPrior yth m a b) probs E) as H.
    eapply Forall_impl; [|exact H]. intros v Hv. apply Hg, Hv.
  - apply Forall_forall. intros v Hv. apply repeat_spec in Hv. subst v.
    apply Hg. left. apply zero_unit.
Qed.

(** *** Reductions of non-negative gains *)

Lemma finite_part_nonneg (x : list fval) :
  Forall nonneg x ->
  forallb is_finite x = true /\
  x = map Fin (finite_part x) /\
  Forall (fun q => 0 <= q) (finite_part x).
Proof.
  unfold finite_part.
  induction 1 as [|v x (q & -> & Hq) _ (IH1 & IH2 & IH3)].
  - repeat split; constructor.
  - cbn [forallb is_finite flat_map app map andb]. repeat split.
    + exact IH1.
    + f_equal. exact IH2.
    + constructor; assumption.
Qed.

Lemma fold_max_in (l : list Q) (a : Q) :
  In (fold_left (fun m b => if Qltb m b then b else m) l a) (a :: l).
Proof.
  revert a. induction l as [|b l IH]; intro a; cbn [fold_left].
  - left. reflexivity.
  - destruct (IH (if Qltb a b then b else a)) as [E | Hin].
    + rewrite <- E. destruct (Qltb a b); [right; left | left]; reflexivity.
    + right. right. exact Hin.
Qed.

Lemma fold_min_in (l : list Q) (a : Q) :
  In (fold_left (fun m b => if Qltb b m then b else m) l a) (a :: l).
Proof.
  revert a. induction l as [|b l IH]; intro a; cbn [fold_left].
  - left. reflexivity.
  - destruct (IH (if Qltb b a then b else a)) as [E | Hin].
    + rewrite <- E. destruct (Qltb b a); [right; left | left]; reflexivity.
    + right. right. exact Hin.
Qed.

Lemma np_max_in (l : list Q) : l <> [] -> In (np_max l) l.
Proof. destruct l as [|a l]; [congruence|]. intros _. apply fold_max_in. Qed.

Lemma np_min_in (l : list Q) : l <> [] -> In (np_min l) l.
Proof. destruct l as [|a l]; [congruence|]. intros _. apply fold_min_in. Qed.

Lemma np_sum_nonneg (l : list Q) : Forall (fun q => 0 <= q) l -> 0 <= np_sum l.
Proof.
  unfold np_sum. induction 1 as [|a l Ha _ IH]; cbn [fold_right]; lra.
Qed.

Lemma np_mean_nonneg (l : list Q) :
  l <> [] -> Forall (fun q => 0 <= q) l -> nonneg (np_mean l).
Proof.
  intros Hne H. unfold np_mean.
  assert (Hp : 0 < Qnat (length l)).
  { apply CoarseGrainProps.Qnat_pos. destruct l; [congruence | simpl; lia]. }
  rewrite TransitionProps.np_div_nonzero by lra.
  eexists. split; [reflexivity|].
  apply Qle_shift_div_l; [exact Hp|]. rewrite Qmult_0_l. apply np_sum_nonneg, H.
Qed.

Lemma sorted_nth_nonneg (l : list Q) (i : nat) :
  Forall (fun q => 0 <= q) l -> (i < length l)%nat -> 0 <= nth i (sort l) 0.
Proof.
  intros H Hi. rewrite Forall_forall in H. apply H.
  apply SortProps.sort_In. apply nth_In. rewrite SortProps.sort_length. exact Hi.
Qed.

Lemma np_median_nonneg (l : list Q) :
  l <> [] -> Forall (fun q => 0 <= q) l -> nonneg (np_median l).
Proof.
  intros Hne H. unfold np_median. rewrite SortProps.sort_length.
  assert (Hn : (1 <= length l)%nat) by (destruct l; [congruence | simpl; lia]).
  destruct (length l) as [|n] eqn:En; [lia|]. rewrite <- En.
  assert (Hh : (length l / 2 < length l)%nat) by (apply Nat.div_lt; lia).
  destruct (Nat.even (length l)).
  - eexists. split; [reflexivity|].
    pose proof (sorted_nth_nonneg l (length l / 2 - 1) H ltac:(lia)).
    pose proof (sorted_nth_nonneg l (length l / 2) H Hh).
    apply Qle_shift_div_l; lra.
  - eexists. split; [reflexivity|]. apply sorted_nth_nonneg; assumption.
Qed.

Lemma clip_bounds (x lo hi : Q) : lo <= hi -> lo <= clip x lo hi /\ clip x lo hi <= hi.
Proof.
  intro H. unfold clip.
  destruct (Qltb x lo) eqn:E1; [split; lra|]. apply Qltb_false in E1.
  destruct (Qltb hi x) eqn:E2; [split; lra|]. apply Qltb_false in E2.
  split; lra.
Qed.

Lemma nth_map_Fin (l : list Q) (i : nat) :
  (i < length l)%nat -> nth i (map Fin l) NaN = Fin (nth i l 0).
Proof.
  intro H. rewrite (nth_indep _ NaN (Fin 0)) by (rewrite length_map; exact H).
  apply (map_nth Fin l 0 i).
Qed.

Lemma mquantile_nonneg (x : list fval) (p : Q) :
  x <> [] -> Forall nonneg x -> nonneg (mquantile x p).
Proof.
  intros Hne H.
  destruct (finite_part_nonneg x H) as (_ & Ex & Hl).
  set (l := finite_part x) in *.
  assert (Hlen : length x = length l) by (rewrite Ex at 1; apply length_map).
  assert (Hn : (1 <= length l)%nat).
  { rewrite <- Hlen. destruct x; [congruence | simpl; lia]. }
  unfold mquantile, fsort. fold l. rewrite Hlen, Nat.sub_diag.
  cbn [repeat]. rewrite app_nil_r, length_map, SortProps.sort_length.
  destruct (length l) as [|[|n]] eqn:En; [lia | |].
  - rewrite nth_map_Fin by (rewrite SortProps.sort_length; lia).
    eexists. split; [reflexivity|]. apply sorted_nth_nonneg; [exact Hl | lia].
  - rewrite <- En.
    set (aleph := Qnat (length l) * p + (1 # 2)).
    assert (Hhi : 1 <= Qnat (length l) - 1).
    { assert (Qnat 2 <= Qnat (length l)) by (apply Qnat_le; lia).
      change (Qnat 2) with 2 in *. lra. }
    destruct (clip_bounds aleph 1 (Qnat (length l) - 1) Hhi) as [Hc1 Hc2].
    set (c := clip aleph 1 (Qnat (length l) - 1)) in *.
    assert (Hk1 : (1 <= Qfloor c)%Z).
    { change 1%Z with (Qfloor 1). apply Qfloor_resp_le, Hc1. }
    assert (Hk2 : (Qfloor c <= Z.of_nat (length l) - 1)%Z).
    { rewrite <- (Qfloor_Z (Z.of_nat (length l) - 1)).
      apply Qfloor_resp_le. unfold Zminus. rewrite inject_Z_plus.
      change (inject_Z (-1)) with (-(1)). exact Hc2. }
    set (k := Z.to_nat (Qfloor c)).
    assert (Hk : (1 <= k < length l)%nat) by (unfold k; lia).
    destruct (clip_bounds (aleph - Qnat k) 0 1 ltac:(lra)) as [Hg0 Hg1].
    set (gamma := clip (aleph - Qnat k) 0 1) in *.
    rewrite !nth_map_Fin by (rewrite SortProps.sort_length; lia).
    cbn [fmulq fadd]. eexists. split; [reflexivity|].
    pose proof (sorted_nth_nonneg l (k - 1) Hl ltac:(lia)) as Ha.
    pose proof (sorted_nth_nonneg l k Hl ltac:(lia)) as Hb.
    assert (0 <= (1 - gamma) * nth (k - 1) (sort l) 0)
      by (apply Qmult_le_0_compat; lra).
    assert (0 <= gamma * nth k (sort l) 0) by (apply Qmult_le_0_compat; lra).
    lra.
Qed.

Lemma positive_part (x : list fval) :
  Forall nonneg x ->
  Forall (fun q => 0 < q) (finite_part (filter fpos x)) /\
  length (finite_part (filter fpos x)) = length (filter fpos x).
Proof.
  unfold finite_part.
  induction 1 as [|v x (q & -> & Hq) _ (IH1 & IH2)]; [split; [constructor | reflexivity]|].
  cbn [filter fpos]. destruct (Qltb 0 q) eqn:E; [|split; assumption].
  apply Qltb_true in E. cbn [flat_map app length]. split.
  - constructor; assumption.
  - now rewrite IH2.
Qed.

Lemma summarize_nonneg (np_sqrt : Q -> Q) (store : list fval) (numIters : nat) :
  store <> [] -> Forall nonneg store ->
  exists out, summarize np_sqrt store numIters = Ok out /\ reported_gains_nonneg out.
Proof.
  intros Hne H.
  destruct (finite_part_nonneg store H) as (Hfin & Ex & Hl).
  assert (Hlne : finite_part store <> []).
  { intro E. rewrite E in Ex. cbn in Ex. congruence. }
  unfold summarize. destruct store as [|v0 store0] eqn:Es; [congruence|].
  rewrite <- Es in *. clear Es v0 store0.
  eexists. split; [reflexivity|].
  unfold reduce. rewrite Hfin. split.
  - intros key Hk. cbn [In] in Hk.
    destruct Hk as [<- | [<- | [<- | [<- | [<- | [<- | []]]]]]];
      eexists; (split; [reflexivity|]).
    + eexists. split; [reflexivity|].
      rewrite Forall_forall in Hl. apply Hl, np_max_in, Hlne.
    + apply np_mean_nonneg; assumption.
    + eexists. split; [reflexivity|]. apply np_sum_nonneg, Hl.
    + apply np_median_nonneg; assumption.
    + apply mquantile_nonneg; assumption.
    + apply mquantile_nonneg; assumption.
  - eexists. split; [reflexivity|].
    destruct (positive_part store H) as (Hpos & Hplen).
    destruct (filter fpos store) as [|v pos] eqn:Ep; [left; reflexivity|].
    right. eexists. split; [reflexivity|].
    rewrite Forall_forall in Hpos. apply Hpos, np_min_in.
    intro E. rewrite E in Hplen. discriminate Hplen.
Qed.

End GainProps.

Module SurpriseGains.
Import Notions Symbolic.

Lemma Surprise_from_draw_nonneg
    (np_log np_sqrt : Q -> Q)
    (np_log_nonpos : forall p, 0 < p -> p <= 1 -> np_log p <= 0)
    (yth : list nat) (whatPrior : string) (memory : memory_t)
    (numIters : nat) (perm : list nat) (out : dict fval) :
  memory <> MemInt 0 \/ whatPrior <> "dist" ->
  Surprise_from_draw np_log np_sqrt yth whatPrior memory numIters perm = Ok out ->
  reported_gains_nonneg out.
Proof.
  intros Hm E. unfold Surprise_from_draw in E.
  assert (Hsum : forall probs,
             Forall unit_prob probs ->
             summarize np_sqrt (gains np_log probs numIters) numIters = Ok out ->
             reported_gains_nonneg out).
  { intros probs Hp Es.
    pose proof (GainProps.gains_nonneg np_log np_log_nonpos probs numIters Hp) as Hg.
    assert (Hne : gains np_log probs numIters <> []).
    { intro Eg. rewrite Eg in Es. cbn in Es. discriminate Es. }
    destruct (GainProps.summarize_nonneg np_sqrt _ numIters Hne Hg)
      as (out' & Eo & Hout).
    rewrite Eo in Es. injection Es as <-. exact Hout. }
  destruct memory as [m | p].
  - destruct (mapM (prob whatPrior yth m) (sampled_indices perm m numIters))
      as [probs|e] eqn:Ep; cbn [bind] in E; [|discriminate E].
    assert (H1 : (1 <= m)%nat \/ whatPrior <> "dist").
    { destruct Hm as [Hm | Hm]; [left | right; exact Hm].
      destruct m; [congruence | lia]. }
    apply (Hsum probs); [|exact E].
    apply (GainProps.mapM_Forall _ _ _
             (fun a b => GainProps.prob_unit whatPrior yth m a b H1) _ Ep).
  - destruct (Nat.min numIters (length perm - 1)).
    + apply (Hsum []); [constructor | exact E].
    + destruct (existsb (String.eqb whatPrior) ["dist"; "T1"; "T2"]); discriminate E.
Qed.

End SurpriseGains.




(** ** Indices stay inside the arrays *)

(** The embedding reads arrays with a default value where numpy would
    raise on an index outside the array. The indices that [Surprise]
    and [MotifThree] compute never leave the arrays. *)
Module IndexBounds.
Import Notions Symbolic.

Lemma where_from_bounds (mask : list bool) (i : nat) :
  Forall (fun j => (i <= j < i + length mask)%nat) (where_from i mask) /\
  StronglySorted lt (where_from i mask).
Proof.
  revert i. induction mask as [|b mask IH]; intro i.
  - split; constructor.
  - destruct (IH (S i)) as [Hr Hs]. cbn [where_from length].
    assert (Hr' : Forall (fun j => (i <= j < i + S (length mask))%nat)
                    (where_from (S i) mask)).
    { eapply Forall_impl; [|exact Hr]. cbv beta. intros j Hj. lia. }
    destruct b; [|split; assumption]. split.
    + constructor; [lia | exact Hr'].
    + constructor; [exact Hs|].
      eapply Forall_impl; [|exact Hr]. cbv beta. intros j Hj. lia.
Qed.

Lemma np_where_lt (mask : list bool) :
  Forall (fun j => (j < length mask)%nat) (np_where mask).
Proof.
  destruct (where_from_bounds mask 0) as [H _].
  eapply Forall_impl; [|exact H]. cbv beta. intros j Hj. lia.
Qed.

Lemma np_where_length (mask : list bool) : (length (np_where mask) <= length mask)%nat.
Proof.
  unfold np_where. generalize 0%nat.
  induction mask as [|b mask IH]; intro i; [apply Nat.le_refl|].
  cbn [where_from length]. specialize (IH (S i)). destruct b; cbn [length]; lia.
Qed.

Lemma removelast_shorter {A : Type} (l : list A) :
  l <> [] -> (length (removelast l) + 1 = length l)%nat.
Proof.
  induction l as [|a l IH]; [congruence|]. intros _.
  destruct l as [|b l]; [reflexivity|].
  change (removelast (a :: b :: l)) with (a :: removelast (b :: l)).
  cbn [length] in *. rewrite <- IH by discriminate. lia.
Qed.

Lemma last_in (r : list nat) : r <> [] -> In (last r 0%nat) r.
Proof.
  induction r as [|a r IH]; [congruence|]. intros _.
  destruct r as [|b r]; [left; reflexivity|].
  right. apply IH. discriminate.
Qed.

(** [memory_data[inmem + 1]] of the [T1] prior. *)
Lemma T1_reads_inside (md : list nat) (s : nat) :
  Forall (fun i => (i + 1 < length md)%nat)
         (np_where (map (Nat.eqb s) (removelast md))).
Proof.
  eapply Forall_impl; [|apply np_where_lt]. cbv beta.
  intros i Hi. rewrite length_map in Hi.
  destruct md as [|a md]; [simpl in Hi; lia|].
  pose proof (removelast_shorter (a :: md) ltac:(discriminate)). lia.
Qed.

(** [memory_data[inmem2 + 2]] of the [T2] prior. *)
Lemma T2_reads_inside (md : list nat) (s1 s2 : nat) :
  let inmem1 := np_where (map (Nat.eqb s1) (removelast (tl md))) in
  let inmem2 := np_where (map (fun i => (nth i md 0 =? s2)%nat) inmem1) in
  Forall (fun i => (i + 2 < length md)%nat) inmem2.
Proof.
  intros inmem1 inmem2.
  assert (H1 : (length inmem1 + 2 <= length md)%nat \/ inmem1 = []).
  { unfold inmem1. destruct md as [|a [|b md]]; [right; reflexivity.. |].
    left. pose proof (np_where_length (map (Nat.eqb s1) (removelast (tl (a :: b :: md))))) as H.
    rewrite length_map in H. cbn [tl] in H |- *.
    pose proof (removelast_shorter (b :: md) ltac:(discriminate)) as Hl.
    cbn [length] in *. lia. }
  unfold inmem2. eapply Forall_impl; [|apply np_where_lt]. cbv beta.
  intros i Hi. rewrite length_map in Hi.
  destruct H1 as [H1 | H1]; [lia|]. rewrite H1 in Hi. simpl in Hi. lia.
Qed.

Lemma sorted_last_max (r : list nat) :
  StronglySorted lt r -> forall i, In i r -> (i <= last r 0%nat)%nat.
Proof.
  induction 1 as [|a r Hs IH Ha]; intros i Hi; [destruct Hi|].
  destruct r as [|b r].
  - destruct Hi as [<- | []]. apply Nat.le_refl.
  - change (last (a :: b :: r) 0%nat) with (last (b :: r) 0%nat).
    destruct Hi as [<- | Hi]; [|apply IH, Hi].
    rewrite Forall_forall in Ha.
    assert (a < b)%nat by (apply Ha; left; reflexivity).
    assert (b <= last (b :: r) 0)%nat by (apply IH; left; reflexivity).
    lia.
Qed.

Lemma sorted_removelast (r : list nat) :
  StronglySorted lt r ->
  StronglySorted lt (removelast r) /\
  Forall (fun i => (i < last r 0%nat)%nat) (removelast r).
Proof.
  induction 1 as [|a r Hs (IH1 & IH2) Ha]; [split; constructor|].
  destruct r as [|b r]; [split; constructor|].
  change (removelast (a :: b :: r)) with (a :: removelast (b :: r)).
  change (last (a :: b :: r) 0%nat) with (last (b :: r) 0%nat).
  rewrite Forall_forall in Ha.
  assert (Hab : (a < b)%nat) by (apply Ha; left; reflexivity).
  assert (Hbl : (b <= last (b :: r) 0)%nat)
    by (apply sorted_last_max; [exact Hs | left; reflexivity]).
  split.
  - constructor; [exact IH1|]. apply Forall_forall. intros i Hi.
    apply Ha. rewrite (app_removelast_last 0%nat (l := b :: r)) by discriminate.
    apply in_or_app. left. exact Hi.
  - constructor; [lia | exact IH2].
Qed.

(** After [trim_last] every kept position leaves room for one more symbol. *)
Lemma trim_last_room (N L : nat) (r : list nat) :
  positions_ok N L r -> positions_ok N (S L) (trim_last N L r).
Proof.
  intros [Hs Hr]. unfold trim_last.
  destruct r as [|a r0] eqn:Er; [split; constructor|]. rewrite <- Er in *.
  destruct (Z.eqb_spec (Z.of_nat (last r 0%nat)) (Z.of_nat N - Z.of_nat L)) as [E|E].
  - destruct (sorted_removelast r Hs) as [H1 H2]. split; [exact H1|].
    eapply Forall_impl; [|exact H2]. cbv beta. intros i Hi. lia.
  - split; [exact Hs|]. rewrite Forall_forall in Hr.
    pose proof Hr as Hr0. apply Forall_forall. intros i Hi.
    specialize (Hr i Hi).
    pose proof (sorted_last_max r Hs i Hi) as Hl.
    assert (Hin : In (last r 0%nat) r) by (apply last_in; rewrite Er; discriminate).
    pose proof (Hr0 _ Hin) as Hlast. lia.
Qed.

Lemma filter_positions_ok (N L : nat) (f : nat -> bool) (r : list nat) :
  positions_ok N L r -> positions_ok N L (filter f r).
Proof.
  intros [Hs Hr]. split.
  - clear Hr. induction Hs as [|a r Hs IH Ha]; [constructor|].
    cbn [filter]. destruct (f a); [|exact IH].
    constructor; [exact IH|]. rewrite Forall_forall in Ha |- *.
    intros i Hi. apply Ha. apply filter_In in Hi. apply Hi.
  - rewrite Forall_forall in Hr |- *. intros i Hi. apply Hr.
    apply filter_In in Hi. apply Hi.
Qed.

(** The words of length 1 of [MotifThree]. *)
Lemma first_positions_ok (yt : list nat) (s : nat) :
  positions_ok (length yt) 1 (np_where (map (Nat.eqb s) yt)).
Proof.
  destruct (where_from_bounds (map (Nat.eqb s) yt) 0) as [Hr Hs].
  split; [exact Hs|]. eapply Forall_impl; [|exact Hr]. cbv beta.
  intros i Hi. rewrite length_map in Hi. lia.
Qed.

(** Extending the words keeps the positions in order and with room for
    the longer word; in particular [yt[r + L]] is read inside [yt]. *)
Lemma extend_positions_ok (yt : list nat) (N L : nat)
    (words : list (string * list nat)) :
  Forall (fun w => positions_ok N L (snd w)) words ->
  Forall (fun w => Forall (fun idx => (idx + L < N)%nat) (trim_last N L (snd w)))
         words /\
  Forall (fun w => positions_ok N (S L) (snd w)) (extend_positions yt N L words).
Proof.
  intro H. split.
  - eapply Forall_impl; [|exact H]. cbv beta. intros w Hw.
    destruct (trim_last_room N L _ Hw) as [_ Hr].
    eapply Forall_impl; [|exact Hr]. cbv beta. intros i Hi. lia.
  - unfold extend_positions. apply Forall_flat_map.
    eapply Forall_impl; [|exact H]. cbv beta. intros w Hw.
    apply Forall_map, Forall_forall. intros j _. cbn [snd].
    apply filter_positions_ok, trim_last_room, Hw.
Qed.

End IndexBounds.

(* ================================================================== *)
(** * Further properties *)

(** ** MovingThreshold *)

Module BarrierProps.
Import Notions ExtremeEvents.

Lemma Qabs_opp_eq (x : Q) : Qabs (- x) = Qabs x.
Proof. destruct x as [n d]. unfold Qabs, Qopp. cbn. now rewrite Z.abs_opp. Qed.

Lemma map_Qabs_opp (y : list Q) : map Qabs (map Qopp y) = map Qabs y.
Proof.
  induction y as [|v y IH]; [reflexivity|].
  cbn [map]. now rewrite Qabs_opp_eq, IH.
Qed.

Lemma barrier_lengths (a b : Q) (ys : list Q) :
  forall qprev,
    length (fst (barrier a b qprev ys)) = length ys /\
    length (snd (barrier a b qprev ys)) = length ys.
Proof.
  induction ys as [|yi ys IH]; intro qprev; [split; reflexivity|].
  cbn [barrier].
  destruct (IH (if Qltb qprev yi then (1 + a) * yi else (1 - b) * qprev)) as [H1 H2].
  destruct (barrier a b _ ys) as [qs ks]. cbn [fst snd length] in *.
  split; congruence.
Qed.

Lemma barrier_steps (a b : Q) (ys : list Q) :
  forall qprev i, (i < length ys)%nat ->
    let qs := fst (barrier a b qprev ys) in
    let ks := snd (barrier a b qprev ys) in
    step_ok a b (nth i (qprev :: qs) 0) (nth i ys 0) (nth i qs 0) (nth i ks 0).
Proof.
  induction ys as [|yi ys IH]; intros qprev i Hi; [simpl in Hi; lia|].
  cbn [barrier]. cbv zeta.
  set (qi := if Qltb qprev yi then (1 + a) * yi else (1 - b) * qprev).
  specialize (IH qi). destruct (barrier a b qi ys) as [qs ks] eqn:E.
  cbn [fst snd] in *.
  destruct i as [|i].
  - cbn [nth]. unfold step_ok, qi. split; intro H.
    + rewrite (proj2 (Qltb_true qprev yi) H). split; reflexivity.
    + rewrite (proj2 (Qltb_false qprev yi) H). split; reflexivity.
  - cbn [nth]. apply (IH i). simpl in Hi. lia.
Qed.

(** The loop step between two consecutive entries of the trajectory. *)
Lemma trajectory_steps (a b : Q) (yabs : list Q) (i : nat) :
  (1 <= i < length yabs)%nat ->
  let q := fst (trajectory a b yabs) in
  let kicks := snd (trajectory a b yabs) in
  step_ok a b (nth (i - 1) q 0) (nth i yabs 0) (nth i q 0) (nth i kicks 0).
Proof.
  intros Hi. unfold trajectory.
  destruct yabs as [|y0 ys]; [simpl in Hi; lia|]. cbn [tl].
  pose proof (barrier_steps a b ys 1 (i - 1)) as H.
  destruct (barrier a b 1 ys) as [qs ks]. cbn [fst snd] in *. cbv zeta in *.
  destruct i as [|i]; [lia|]. cbn [nth].
  replace (S i - 1)%nat with i in * by lia.
  apply H. simpl in Hi. lia.
Qed.

Lemma trajectory_shape (a b : Q) (yabs : list Q) :
  yabs <> [] ->
  length (fst (trajectory a b yabs)) = length yabs /\
  length (snd (trajectory a b yabs)) = length yabs /\
  nth 0 (fst (trajectory a b yabs)) 0 = 1 /\
  nth 0 (snd (trajectory a b yabs)) 0 = 0.
Proof.
  intro Hne. unfold trajectory. destruct yabs as [|y0 ys]; [congruence|].
  cbn [tl]. destruct (barrier_lengths a b ys 1) as [H1 H2].
  destruct (barrier a b 1 ys) as [qs ks]. cbn [fst snd length nth] in *.
  repeat split; congruence.
Qed.

Lemma nth_map_Qabs (y : list Q) (i : nat) : nth i (map Qabs y) 0 = Qabs (nth i y 0).
Proof. apply (map_nth Qabs y 0 i). Qed.

Lemma fold_min_stays (l : list Q) (m : Q) :
  Forall (fun v => m <= v) l ->
  fold_left (fun m b => if Qltb b m then b else m) l m = m.
Proof.
  induction 1 as [|v l Hv _ IH]; [reflexivity|].
  cbn [fold_left]. rewrite (proj2 (Qltb_false v m) Hv). exact IH.
Qed.

Section Invariants.

Variables (a b : Q) (y : list Q).
Hypothesis Ha : 0 <= a.
Hypothesis Hb0 : 0 <= b.
Hypothesis Hb1 : b <= 1.

Let q := fst (trajectory a b (map Qabs y)).
Let kicks := snd (trajectory a b (map Qabs y)).

Lemma barrier_nonneg (i : nat) : (i < length y)%nat -> 0 <= nth i q 0.
Proof.
  induction i as [|i IH]; intro Hi.
  - assert (Hy : map Qabs y <> []) by (destruct y; [simpl in Hi; lia | discriminate]).
    destruct (trajectory_shape a b _ Hy) as (_ & _ & H0 & _). fold q in H0.
    rewrite H0. lra.
  - pose proof (trajectory_steps a b (map Qabs y) (S i)) as Hs.
    rewrite length_map in Hs. specialize (Hs ltac:(lia)). cbv zeta in Hs.
    fold q in Hs. replace (S i - 1)%nat with i in Hs by lia.
    rewrite nth_map_Qabs in Hs. destruct Hs as [Hk Hd].
    pose proof (Qabs_nonneg (nth (S i) y 0)) as Hyi.
    specialize (IH ltac:(lia)).
    destruct (Qlt_le_dec (nth i q 0) (Qabs (nth (S i) y 0))) as [Hlt | Hle].
    + destruct (Hk Hlt) as [-> _]. apply Qmult_le_0_compat; lra.
    + destruct (Hd Hle) as [-> _]. apply Qmult_le_0_compat; lra.
Qed.

Lemma kick_sign (i : nat) :
  (1 <= i < length y)%nat ->
  0 <= nth i kicks 0 /\
  (0 < nth i kicks 0 <-> nth (i - 1) q 0 < Qabs (nth i y 0)) /\
  (nth (i - 1) q 0 < Qabs (nth i y 0) -> Qabs (nth i y 0) <= nth i q 0).
Proof.
  intro Hi.
  pose proof (trajectory_steps a b (map Qabs y) i) as Hs.
  rewrite length_map in Hs. specialize (Hs Hi). cbv zeta in Hs.
  fold q kicks in Hs. rewrite nth_map_Qabs in Hs. destruct Hs as [Hk Hd].
  pose proof (barrier_nonneg (i - 1) ltac:(lia)) as Hp.
  set (yi := Qabs (nth i y 0)) in *. set (prev := nth (i - 1) q 0) in *.
  assert (Hkick : prev < yi -> yi <= nth i q 0 /\ 0 < nth i kicks 0).
  { intro Hlt. destruct (Hk Hlt) as [Eq Ek]. rewrite Ek, Eq.
    assert (0 <= a * yi) by (apply Qmult_le_0_compat; lra).
    split; lra. }
  destruct (Qlt_le_dec prev yi) as [Hlt | Hle].
  - destruct (Hkick Hlt) as [H1 H2].
    split; [lra|]. split; [tauto | intros _; exact H1].
  - destruct (Hd Hle) as [_ Ek]. rewrite Ek.
    split; [lra|]. split; [split; intro; lra | intro; lra].
Qed.

End Invariants.

Section NoDecay.

Variables (a : Q) (y : list Q).
Hypothesis Ha : 0 <= a.

Let q := fst (trajectory a 0 (map Qabs y)).

Lemma no_decay_step (i : nat) :
  (1 <= i < length y)%nat ->
  nth (i - 1) q 0 <= nth i q 0 /\ Qabs (nth i y 0) <= nth i q 0.
Proof.
  intro Hi.
  pose proof (trajectory_steps a 0 (map Qabs y) i) as Hs.
  rewrite length_map in Hs. specialize (Hs Hi). cbv zeta in Hs.
  fold q in Hs. rewrite nth_map_Qabs in Hs. destruct Hs as [Hk Hd].
  pose proof (Qabs_nonneg (nth i y 0)) as Hyi.
  set (yi := Qabs (nth i y 0)) in *. set (prev := nth (i - 1) q 0) in *.
  destruct (Qlt_le_dec prev yi) as [Hlt | Hle].
  - destruct (Hk Hlt) as [-> _].
    assert (0 <= a * yi) by (apply Qmult_le_0_compat; lra). split; lra.
  - destruct (Hd Hle) as [-> _]. split; lra.
Qed.

Lemma no_decay_above_one (i : nat) : (i < length y)%nat -> 1 <= nth i q 0.
Proof.
  induction i as [|i IH]; intro Hi.
  - assert (Hy : map Qabs y <> []) by (destruct y; [simpl in Hi; lia | discriminate]).
    destruct (trajectory_shape a 0 _ Hy) as (_ & _ & H0 & _). fold q in H0.
    rewrite H0. lra.
  - destruct (no_decay_step (S i) ltac:(lia)) as [H _].
    replace (S i - 1)%nat with i in H by lia. specialize (IH ltac:(lia)). lra.
Qed.

End NoDecay.

End BarrierProps.

Module NoDecaySum.
Import ExtremeEvents.

Lemma last_cons_default {A : Type} (x d : A) (l : list A) :
  last (x :: l) d = last l x.
Proof.
  revert x d. induction l as [|z l IH]; intros x d; [reflexivity|].
  change (last (x :: z :: l) d) with (last (z :: l) d).
  rewrite (IH z d). symmetry. apply IH.
Qed.

(** Without decay every step adds its kick to the barrier, so the kicks
    add up to the total rise of the barrier. *)
Lemma barrier_no_decay_sum (a : Q) (ys : list Q) (qprev : Q) :
  np_sum (snd (barrier a 0 qprev ys)) == last (fst (barrier a 0 qprev ys)) qprev - qprev.
Proof.
  revert qprev. induction ys as [|yi ys IH]; intro qprev.
  - simpl. ring.
  - cbn [barrier]. cbv zeta.
    set (qi := if Qltb qprev yi then (1 + a) * yi else (1 - 0) * qprev).
    specialize (IH qi). destruct (barrier a 0 qi ys) as [qs ks].
    cbn [fst snd] in *. rewrite last_cons_default.
    change (np_sum ((if Qltb qprev yi then qi - qprev else 0) :: ks))
      with ((if Qltb qprev yi then qi - qprev else 0) + np_sum ks).
    rewrite IH. unfold qi. destruct (Qltb qprev yi); ring.
Qed.

End NoDecaySum.

(** X1. [MovingThreshold] raises a [ValueError] exactly when [b] lies
    outside [0, 1], whatever the series; for a valid [b] it raises an
    [IndexError] exactly on the empty series (the assignment [q[0] = 1]),
    and otherwise returns a mapping with the eleven keys in the order of
    their insertion. No other exception is raised. *)
Theorem MovingThreshold_outcome (np_sqrt : Q -> Q) (y : list Q) (a b : Q) :
  match ExtremeEvents.MovingThreshold np_sqrt y a b with
  | Raise (ValueError msg) =>
      (b < 0 \/ 1 < b) /\
      msg = "The decay proportion, b, should be between 0 and 1"
  | Raise IndexError => 0 <= b /\ b <= 1 /\ y = []
  | Raise _ => False
  | Ok out =>
      0 <= b /\ b <= 1 /\ y <> [] /\
      dict_keys out
      = ["meanq"; "medianq"; "iqrq"; "maxq"; "minq"; "stdq"; "meanqover";
         "pkick"; "stdkicks"; "meankickf"; "mediankicksf"]
  end.
Proof.
  unfold ExtremeEvents.MovingThreshold.
  destruct (Qltb b 0) eqn:E0.
  { cbn [orb]. split; [left; apply Qltb_true; exact E0 | reflexivity]. }
  destruct (Qltb 1 b) eqn:E1.
  { cbn [orb]. split; [right; apply Qltb_true; exact E1 | reflexivity]. }
  cbn [orb]. apply Qltb_false in E0. apply Qltb_false in E1.
  destruct y as [|y0 y']; cbn [length].
  - repeat split; assumption.
  - destruct (ExtremeEvents.trajectory a b (map Qabs (y0 :: y'))) as [q kicks].
    split; [exact E0|]. split; [exact E1|]. split; [discriminate|]. reflexivity.
Qed.

(** X2. [MovingThreshold] sees the series only through [np.abs(y)]:
    flipping the sign of every sample changes neither the outcome nor any
    reported statistic. *)
Theorem MovingThreshold_sign_symmetric (np_sqrt : Q -> Q) (y : list Q) (a b : Q) :
  ExtremeEvents.MovingThreshold np_sqrt (map Qopp y) a b
  = ExtremeEvents.MovingThreshold np_sqrt y a b.
Proof.
  unfold ExtremeEvents.MovingThreshold.
  rewrite BarrierProps.map_Qabs_opp, length_map. reflexivity.
Qed.

(** X3. For a jump parameter [a >= 0] and a decay [b] in [0, 1], on a
    non-empty series: the barrier and the kicks have the length of the
    series, the barrier starts at 1 with no kick, it never becomes
    negative, no kick is negative, a kick is positive exactly at an
    extreme event ([|y[i]| > q[i-1]]), and after an extreme event the
    barrier is at or above the sample that caused it. *)
Theorem MovingThreshold_barrier_invariants (a b : Q) (y : list Q) :
  0 <= a -> 0 <= b -> b <= 1 -> y <> [] ->
  let q := fst (ExtremeEvents.trajectory a b (map Qabs y)) in
  let kicks := snd (ExtremeEvents.trajectory a b (map Qabs y)) in
  length q = length y /\ length kicks = length y /\
  nth 0 q 0 = 1 /\ nth 0 kicks 0 = 0 /\
  (forall i, (i < length y)%nat -> 0 <= nth i q 0) /\
  (forall i, (1 <= i < length y)%nat ->
     0 <= nth i kicks 0 /\
     (0 < nth i kicks 0 <-> nth (i - 1) q 0 < Qabs (nth i y 0)) /\
     (nth (i - 1) q 0 < Qabs (nth i y 0) -> Qabs (nth i y 0) <= nth i q 0)).
Proof.
  intros Ha Hb0 Hb1 Hy q kicks.
  assert (Hy' : map Qabs y <> []) by (destruct y; [congruence | discriminate]).
  destruct (BarrierProps.trajectory_shape a b _ Hy') as (H1 & H2 & H3 & H4).
  rewrite length_map in H1, H2.
  split; [exact H1|]. split; [exact H2|]. split; [exact H3|]. split; [exact H4|].
  split.
  - intros i Hi. apply BarrierProps.barrier_nonneg; assumption.
  - intros i Hi. apply BarrierProps.kick_sign; assumption.
Qed.

Lemma MovingThreshold_barrier_invariants_witness :
  let y := [0; 3; -(1 # 2); 7] in
  let q := fst (ExtremeEvents.trajectory 1 (1 # 10) (map Qabs y)) in
  0 <= 1 /\ 0 <= 1 # 10 /\ 1 # 10 <= 1 /\ y <> [] /\
  forall i, (i < length y)%nat -> 0 <= nth i q 0.
Proof.
  intros y q.
  split; [lra|]. split; [lra|]. split; [lra|]. split; [discriminate|].
  refine (proj1 (proj2 (proj2 (proj2 (proj2
    (MovingThreshold_barrier_invariants 1 (1 # 10) y _ _ _ _)))))).
  - lra.
  - lra.
  - lra.
  - discriminate.
Defined.

(** X4. Without decay ([b = 0]) and with [a >= 0] the barrier never
    falls: it is non-decreasing, stays at or above its start 1 and, from
    the second sample on, at or above the current sample; the kicks add
    up to the total rise of the barrier; and the reported [minq] is 1. *)
Theorem MovingThreshold_no_decay (np_sqrt : Q -> Q) (a : Q) (y : list Q) :
  0 <= a -> y <> [] ->
  let q := fst (ExtremeEvents.trajectory a 0 (map Qabs y)) in
  let kicks := snd (ExtremeEvents.trajectory a 0 (map Qabs y)) in
  (forall i, (1 <= i < length y)%nat ->
     nth (i - 1) q 0 <= nth i q 0 /\ Qabs (nth i y 0) <= nth i q 0) /\
  (forall i, (i < length y)%nat -> 1 <= nth i q 0) /\
  np_sum kicks == last q 0 - 1 /\
  exists out,
    ExtremeEvents.MovingThreshold np_sqrt y a 0 = Ok out /\
    dict_get "minq" out = Some (Fin 1).
Proof.
  intros Ha Hy q kicks.
  split; [intros i Hi; apply BarrierProps.no_decay_step; assumption|].
  assert (Hone : forall i, (i < length y)%nat -> 1 <= nth i q 0).
  { intros i Hi. apply BarrierProps.no_decay_above_one; assumption. }
  split; [exact Hone|].
  assert (Hlen : length q = length y).
  { destruct (BarrierProps.trajectory_shape a 0 (map Qabs y)) as (H & _).
    - destruct y; [congruence | discriminate].
    - rewrite length_map in H. exact H. }
  split.
  - unfold kicks, q, ExtremeEvents.trajectory.
    pose proof (NoDecaySum.barrier_no_decay_sum a (tl (map Qabs y)) 1) as H.
    destruct (ExtremeEvents.barrier a 0 1 (tl (map Qabs y))) as [qs ks].
    cbn [fst snd] in *. rewrite NoDecaySum.last_cons_default.
    change (np_sum (0 :: ks)) with (0 + np_sum ks). rewrite H. ring.
  - unfold ExtremeEvents.MovingThreshold.
    change (Qltb 0 0 || Qltb 1 0) with false. cbv iota.
    destruct y as [|y0 y']; [congruence|]. cbn [length].
    assert (Hmin : np_min q = 1).
    { unfold q in *. unfold ExtremeEvents.trajectory in *.
      destruct (ExtremeEvents.barrier a 0 1 (tl (map Qabs (y0 :: y')))) as [qs ks].
      cbn [fst] in *. unfold np_min. apply BarrierProps.fold_min_stays.
      apply Forall_forall. intros v Hv.
      destruct (In_nth _ _ 0 Hv) as (j & Hj & <-).
      cbn [length] in Hlen.
      apply (Hone (S j)). cbn [length]. lia. }
    unfold q in Hmin.
    destruct (ExtremeEvents.trajectory a 0 (map Qabs (y0 :: y'))) as [q' kicks'].
    cbn [fst] in Hmin.
    eexists. split; [reflexivity|].
    cbn. rewrite Hmin. reflexivity.
Qed.

Lemma MovingThreshold_no_decay_witness :
  let y := [0; 3; -(1 # 2); 7] in
  0 <= 1 /\ y <> [] /\
  exists out,
    ExtremeEvents.MovingThreshold (fun v => v) y 1 0 = Ok out /\
    dict_get "minq" out = Some (Fin 1).
Proof.
  intro y. split; [lra|]. split; [discriminate|].
  refine (proj2 (proj2 (proj2 (MovingThreshold_no_decay (fun v => v) 1 y _ _)))).
  - lra.
  - discriminate.
Defined.

(** ** CoarseGrain: the other methods *)

Module EmbedProps.
Import Notions SortProps QuantileProps CoarseGrainProps Symbolic.

Lemma symbol_of_mono (th : list Q) (k : nat) (u v : Q) :
  monotone th k -> nth 0 th 0 < u -> u <= v -> v <= nth k th 0 ->
  (symbol_of th k u <= symbol_of th k v)%nat.
Proof.
  intros Hm Hlo Huv Hhi.
  destruct (groups_cover th u k Hlo) as (i & Hi & Hgi); [lra|].
  destruct (groups_cover th v k) as (j & Hj & Hgj); [lra | exact Hhi |].
  rewrite (symbol_of_unique th k u i Hm Hi Hgi).
  rewrite (symbol_of_unique th k v j Hm Hj Hgj).
  destruct (Nat.le_gt_cases i j) as [Hij | Hji]; [lia|]. exfalso.
  destruct Hgi as [Hi1 _]. destruct Hgj as [_ Hj2].
  assert (nth (S j) th 0 <= nth i th 0) by (apply (monotone_le th k Hm); lia).
  lra.
Qed.

(** The capped delay is the smaller of the two. *)
Lemma embed_tau_min (N numGroups : nat) :
  embed_tau N numGroups = Nat.min numGroups (N / 25).
Proof.
  unfold embed_tau. destruct (N <? 25 * numGroups)%nat eqn:E.
  - apply Nat.ltb_lt in E.
    assert (N / 25 < numGroups)%nat by (apply Nat.Div0.div_lt_upper_bound; lia).
    lia.
  - apply Nat.ltb_ge in E.
    assert (numGroups <= N / 25)%nat by (apply Nat.div_le_lower_bound; lia).
    lia.
Qed.

Lemma region_assign_step (region : nat -> Q -> Q -> bool) (g : nat)
    (l : list (Q * Q)) (f : Q * Q -> nat) :
  mask_assign (map (fun p => region g (fst p) (snd p)) l) g (map f l)
  = map (fun p => if region g (fst p) (snd p) then g else f p) l.
Proof.
  induction l as [|p l IH]; cbn [map mask_assign]; [reflexivity|].
  rewrite IH. reflexivity.
Qed.

Lemma region_assign_fold (region : nat -> Q -> Q -> bool) (l : list (Q * Q))
    (gs : list nat) :
  forall f : Q * Q -> nat,
    fold_left
      (fun yth g => mask_assign (map (fun p => region g (fst p) (snd p)) l) g yth)
      gs (map f l)
    = map (fun p => fold_left
                      (fun s g => if region g (fst p) (snd p) then g else s) gs (f p)) l.
Proof.
  induction gs as [|g gs IH]; intro f; cbn [fold_left]; [reflexivity|].
  rewrite region_assign_step.
  apply (IH (fun p => if region g (fst p) (snd p) then g else f p)).
Qed.

(** The masked assignments, point by point. *)
Lemma assign_regions_map (region : nat -> Q -> Q -> bool) (n : nat) (m1 m2 : list Q) :
  length m1 = length m2 ->
  assign_regions region n m1 m2
  = map (fun p => region_symbol region n (fst p) (snd p)) (combine m1 m2).
Proof.
  intro Hlen. unfold assign_regions, region_symbol.
  replace (repeat 0%nat (length m1))
    with (map (fun _ : Q * Q => 0%nat) (combine m1 m2)).
  - apply region_assign_fold.
  - revert m2 Hlen. induction m1 as [|a m1 IH]; intros [|c m2] Hlen;
      try discriminate; cbn [combine map length repeat]; [reflexivity|].
    rewrite IH by (simpl in Hlen; lia). reflexivity.
Qed.

Ltac sign_cases m1 m2 :=
  unfold region_symbol, octant, quadrant, Qge0, Qltb; cbn [seq fold_left];
  destruct (Qle_bool 0 m2), (Qle_bool 0 m1), (Qle_bool m1 m2), (Qle_bool (- m1) m2);
  cbn [negb andb].

Lemma quadrant_symbol_cases (m1 m2 : Q) :
  region_symbol quadrant 4 m1 m2
  = if Qle_bool 0 m2 then (if Qle_bool 0 m1 then 1 else 2)%nat
    else (if Qle_bool 0 m1 then 4 else 3)%nat.
Proof. sign_cases m1 m2; reflexivity. Qed.

Lemma quadrant_symbol_spec (m1 m2 : Q) (g : nat) :
  region_symbol quadrant 4 m1 m2 = g <-> in_quadrant g m1 m2.
Proof.
  rewrite quadrant_symbol_cases.
  destruct (Qle_bool 0 m2) eqn:E2; destruct (Qle_bool 0 m1) eqn:E1;
    [apply Qle_bool_iff in E2 | apply Qle_bool_iff in E2
    | apply Qle_bool_false in E2 | apply Qle_bool_false in E2];
    [apply Qle_bool_iff in E1 | apply Qle_bool_false in E1
    | apply Qle_bool_iff in E1 | apply Qle_bool_false in E1];
    (split; [intros <-; cbn; split; assumption|]);
    do 5 (try destruct g as [|g]); cbn; try tauto; intros [H1 H2];
    try reflexivity; exfalso; lra.
Qed.

Lemma octant_quadrant (m1 m2 : Q) :
  region_symbol quadrant 4 m1 m2
  = ((region_symbol octant 8 m1 m2 + 1) / 2)%nat.
Proof.
  sign_cases m1 m2; reflexivity.
Qed.

Ltac to_props :=
  repeat match goal with
         | H : Qle_bool _ _ = true |- _ => apply Qle_bool_iff in H
         | H : Qle_bool _ _ = false |- _ => apply Qle_bool_false in H
         end.

Lemma octant_symbol_spec (m1 m2 : Q) (g : nat) :
  region_symbol octant 8 m1 m2 = g <-> in_octant g m1 m2.
Proof.
  unfold region_symbol, octant, quadrant, Qge0, Qltb; cbn [seq fold_left].
  destruct (Qle_bool 0 m2) eqn:E2, (Qle_bool 0 m1) eqn:E1,
           (Qle_bool m1 m2) eqn:E3, (Qle_bool (- m1) m2) eqn:E4;
    cbn [negb andb]; cbv beta iota; to_props;
    (split;
     [ intros <-; cbn [in_octant in_quadrant]; repeat split; lra
     | do 9 (try destruct g as [|g]); cbn [in_octant in_quadrant];
       try (intros []; fail); intros [[H1 H2] H3]; try reflexivity; exfalso; lra ]).
Qed.

Lemma delay_pairs_length (y : list Q) (tau : nat) :
  length (delay_pairs y tau) = (length y - tau)%nat.
Proof.
  unfold delay_pairs. rewrite length_combine, length_firstn, length_skipn. lia.
Qed.

Lemma delay_pairs_nth (y : list Q) (tau t : nat) :
  (t < length y - tau)%nat ->
  nth t (delay_pairs y tau) (0, 0) = (nth t y 0, nth (t + tau) y 0).
Proof.
  intro Ht. unfold delay_pairs.
  rewrite combine_nth by (rewrite length_firstn, length_skipn; lia).
  rewrite nth_firstn.
  assert (E : (t <? length y - tau)%nat = true) by (apply Nat.ltb_lt; exact Ht).
  rewrite E, nth_skipn. f_equal. f_equal. lia.
Qed.

Lemma tau_bounds (N numGroups : nat) :
  (25 <= N)%nat -> (1 <= numGroups)%nat ->
  (1 <= Nat.min numGroups (N / 25) <= N)%nat.
Proof.
  intros HN Hk.
  assert (1 <= N / 25)%nat by (apply Nat.div_le_lower_bound; lia).
  assert (N / 25 <= N)%nat by (apply Nat.Div0.div_le_upper_bound; lia).
  lia.
Qed.

(** With a positive delay the two halves of the embedding have the
    same length and every point is given the symbol of its region. *)
Lemma CoarseGrain_embed (y : list Q) (numGroups : nat) (octants : bool) :
  (25 <= length y)%nat -> (1 <= numGroups)%nat ->
  CoarseGrain y (if octants then "embed2octants" else "embed2quadrants") numGroups
  = check_assigned
      (map (fun p => region_symbol (if octants then octant else quadrant)
                                   (if octants then 8 else 4)%nat (fst p) (snd p))
           (delay_pairs y (Nat.min numGroups (length y / 25)))).
Proof.
  intros HN Hk. destruct (tau_bounds _ _ HN Hk) as [H1 H2].
  unfold CoarseGrain. rewrite embed_tau_min.
  set (tau := Nat.min numGroups (length y / 25)) in *.
  assert (Hl : length (firstn (length y - tau) y) = length (skipn tau y)).
  { rewrite length_firstn, length_skipn. lia. }
  destruct octants; cbn [existsb String.eqb Ascii.eqb Bool.eqb negb orb];
    (destruct tau as [|tau'] eqn:Et; [lia|]); rewrite <- Et in *;
    rewrite Hl, Nat.eqb_refl; cbn [negb andb];
    rewrite (assign_regions_map _ _ _ _ Hl); reflexivity.
Qed.

Lemma embed_symbols_ok (l : list (Q * Q)) (octants : bool) :
  ~ In 0%nat
      (map (fun p => region_symbol (if octants then octant else quadrant)
                                   (if octants then 8 else 4)%nat (fst p) (snd p)) l).
Proof.
  rewrite in_map_iff. intros (p & Hp & _). destruct octants.
  - apply octant_symbol_spec in Hp. exact Hp.
  - apply quadrant_symbol_spec in Hp. exact Hp.
Qed.

Lemma mask_assign_length (mask : list bool) (v : nat) (yth : list nat) :
  length (mask_assign mask v yth) = length yth.
Proof.
  revert yth. induction mask as [|b mask IH]; intros [|s yth];
    cbn [mask_assign length]; try reflexivity.
  now rewrite IH.
Qed.

Lemma mask_assign_Forall (P : nat -> Prop) (mask : list bool) (v : nat)
    (yth : list nat) :
  P v -> Forall P yth -> Forall P (mask_assign mask v yth).
Proof.
  intros Hv. revert yth. induction mask as [|b mask IH]; intros [|s yth] H;
    cbn [mask_assign]; try assumption.
  inversion H; subst. constructor; [destruct b; assumption | apply IH; assumption].
Qed.

(** Whatever the shapes, the masked assignments keep the length of the
    array of zeros and write only the symbols [1..n]. *)
Lemma assign_regions_bound (region : nat -> Q -> Q -> bool) (n : nat)
    (m1 m2 : list Q) :
  length (assign_regions region n m1 m2) = length m1 /\
  Forall (fun s => (s <= n)%nat) (assign_regions region n m1 m2).
Proof.
  unfold assign_regions.
  assert (Hg : Forall (fun g => (g <= n)%nat) (seq 1 n)).
  { apply Forall_forall. intros g Hin. apply in_seq in Hin. lia. }
  assert (H0 : length (repeat 0%nat (length m1)) = length m1 /\
               Forall (fun s => (s <= n)%nat) (repeat 0%nat (length m1))).
  { split; [apply repeat_length|]. apply Forall_forall. intros s Hs.
    apply repeat_spec in Hs. lia. }
  revert Hg H0. generalize (repeat 0%nat (length m1)) as yth.
  generalize (seq 1 n) as gs.
  induction gs as [|g gs IH]; intros yth Hg [Hl Hf]; cbn [fold_left].
  - split; assumption.
  - inversion Hg; subst. apply IH; [assumption|]. split.
    + rewrite mask_assign_length. exact Hl.
    + apply mask_assign_Forall; assumption.
Qed.

Lemma check_assigned_inv (yth r : list nat) :
  check_assigned yth = Ok r -> r = yth /\ ~ In 0%nat yth.
Proof.
  intro H. split.
  - unfold check_assigned in H. destruct (existsb (Nat.eqb 0) yth); congruence.
  - intro H0. apply check_assigned_raises in H0. destruct H0 as [e He]. congruence.
Qed.

Lemma quantile_symbols_nth (y : list Q) (k t : nat) :
  (t < length y)%nat ->
  nth t (quantile_symbols y k) 0%nat
  = symbol_of (quantile_thresholds y k) k (nth t y 0).
Proof.
  intro Ht. rewrite quantile_symbols_map.
  rewrite (nth_indep _ 0%nat (symbol_of (quantile_thresholds y k) k 0))
    by (rewrite length_map; exact Ht).
  apply (map_nth (symbol_of (quantile_thresholds y k) k) y 0 t).
Qed.

(** The quantile symbols follow the order of the samples. *)
Lemma quantile_symbols_mono (y : list Q) (k s t : nat) :
  (1 <= k)%nat -> first_point_included y ->
  (s < length y)%nat -> (t < length y)%nat ->
  nth s y 0 <= nth t y 0 ->
  (nth s (quantile_symbols y k) 0 <= nth t (quantile_symbols y k) 0)%nat.
Proof.
  intros Hk Hinc Hs Ht Hle.
  assert (Hy : y <> []) by (destruct y; [simpl in Hs; lia | discriminate]).
  rewrite !quantile_symbols_nth by assumption.
  destruct (thresholds_enclose y k (nth s y 0) Hk Hinc (nth_In _ _ Hs)) as [Hlo _].
  destruct (thresholds_enclose y k (nth t y 0) Hk Hinc (nth_In _ _ Ht)) as [_ Hhi].
  apply symbol_of_mono; try assumption. apply thresholds_monotone; assumption.
Qed.

(** A smallest sample is in the first group. *)
Lemma quantile_symbols_min (y : list Q) (k t : nat) :
  (1 <= k)%nat -> first_point_included y -> (t < length y)%nat ->
  (forall u, In u y -> nth t y 0 <= u) ->
  nth t (quantile_symbols y k) 0%nat = 1%nat.
Proof.
  intros Hk Hinc Ht Hmin.
  assert (Hy : y <> []) by (destruct y; [simpl in Ht; lia | discriminate]).
  rewrite quantile_symbols_nth by assumption.
  apply symbol_of_unique; [apply thresholds_monotone; assumption | lia |].
  destruct (thresholds_enclose y k (nth t y 0) Hk Hinc (nth_In _ _ Ht)) as [Hlo _].
  split; [exact Hlo|].
  rewrite (thresholds_nth_S y k 0) by lia. unfold np_quantile_hazen.
  assert (Hs : sort y <> []).
  { intro E. apply Hy. apply Permutation_nil. rewrite <- E. apply sort_perm. }
  destruct (quantile_bounds (sort y) (Qnat 1 / Qnat k) (sort_sorted y) Hs) as [Hb _].
  assert (Hin : In (hd 0 (sort y)) y).
  { apply sort_In. destruct (sort y); [congruence | left; reflexivity]. }
  specialize (Hmin _ Hin). lra.
Qed.

End EmbedProps.

(** X5. The quantile method keeps the order of the samples: on a
    non-empty series on which [th[0] -= 1] puts the lowest threshold
    below the smallest sample, and an alphabet of at least one symbol,
    a sample that is not larger than another never gets a larger
    symbol, and a smallest sample always gets the symbol 1. *)
Theorem CoarseGrain_quantile_order_preserving (y : list Q) (k : nat) :
  y <> [] -> (1 <= k)%nat -> Notions.first_point_included y ->
  exists yth,
    Symbolic.CoarseGrain y "quantile" k = Ok yth /\
    (forall s t, (s < length y)%nat -> (t < length y)%nat ->
       nth s y 0 <= nth t y 0 -> (nth s yth 0 <= nth t yth 0)%nat) /\
    (forall t, (t < length y)%nat ->
       (forall u, In u y -> nth t y 0 <= u) -> nth t yth 0%nat = 1%nat).
Proof.
  intros Hy Hk Hinc. exists (Symbolic.quantile_symbols y k).
  split; [apply CoarseGrainProps.CoarseGrain_quantile_ok; assumption|]. split.
  - intros s t Hs Ht Hle. apply EmbedProps.quantile_symbols_mono; assumption.
  - intros t Ht Hmin. apply EmbedProps.quantile_symbols_min; assumption.
Qed.

Lemma CoarseGrain_quantile_order_preserving_witness :
  [3; 1; 2; 1] <> [] /\ (1 <= 3)%nat /\
  Notions.first_point_included [3; 1; 2; 1] /\
  exists yth,
    Symbolic.CoarseGrain [3; 1; 2; 1] "quantile" 3 = Ok yth /\
    (forall s t, (s < 4)%nat -> (t < 4)%nat ->
       nth s [3; 1; 2; 1] 0 <= nth t [3; 1; 2; 1] 0 ->
       (nth s yth 0 <= nth t yth 0)%nat) /\
    (forall t, (t < 4)%nat ->
       (forall u, In u [3; 1; 2; 1] -> nth t [3; 1; 2; 1] 0 <= u) ->
       nth t yth 0%nat = 1%nat).
Proof.
  assert (Hinc : Notions.first_point_included [3; 1; 2; 1])
    by (vm_compute; reflexivity).
  split; [discriminate|]. split; [lia|]. split; [exact Hinc|].
  apply (CoarseGrain_quantile_order_preserving [3; 1; 2; 1] 3);
    [discriminate | lia | exact Hinc].
Defined.



(** X7. With ['embed2quadrants'] on a series of at least 25 samples and
    a delay parameter of at least 1, the delay used is
    [tau = min(numGroups, N // 25)], the call returns [N - tau] symbols,
    and the symbol at [t] is the quadrant of the point
    [(y[t], y[t + tau])]: no point is left unassigned. *)
Theorem CoarseGrain_embed2quadrants (y : list Q) (numGroups : nat) :
  (25 <= length y)%nat -> (1 <= numGroups)%nat ->
  let tau := Nat.min numGroups (length y / 25) in
  Symbolic.embed_tau (length y) numGroups = tau /\
  exists yth,
    Symbolic.CoarseGrain y "embed2quadrants" numGroups = Ok yth /\
    length yth = (length y - tau)%nat /\
    forall t, (t < length y - tau)%nat ->
      forall g, nth t yth 0%nat = g
                <-> Notions.in_quadrant g (nth t y 0) (nth (t + tau) y 0).
Proof.
  intros HN Hk tau. split; [apply EmbedProps.embed_tau_min|].
  eexists. split.
  - rewrite (EmbedProps.CoarseGrain_embed y numGroups false HN Hk).
    apply CoarseGrainProps.check_assigned_ok.
    apply (EmbedProps.embed_symbols_ok _ false).
  - fold tau. split.
    + rewrite length_map. apply EmbedProps.delay_pairs_length.
    + intros t Ht g.
      rewrite (nth_indep _ 0%nat
                 (Notions.region_symbol Symbolic.quadrant 4 (fst (0, 0)) (snd (0, 0))))
        by (rewrite length_map, EmbedProps.delay_pairs_length; exact Ht).
      rewrite (map_nth (fun p => Notions.region_symbol Symbolic.quadrant 4 (fst p) (snd p))).
      rewrite EmbedProps.delay_pairs_nth by exact Ht. cbn [fst snd].
      apply EmbedProps.quadrant_symbol_spec.
Qed.

Lemma CoarseGrain_embed2quadrants_witness :
  let y := map (fun i => Qnat i - 12) (seq 0%nat 26%nat) in
  (25 <= length y)%nat /\ (1 <= 3)%nat /\
  Symbolic.embed_tau (length y) 3 = Nat.min 3 (length y / 25).
Proof.
  intro y. split; [vm_compute; lia|]. split; [lia|].
  refine (proj1 (CoarseGrain_embed2quadrants y 3 _ _)); [vm_compute; lia | lia].
Defined.

(** X8. With ['embed2octants'] under the same conditions the symbol at
    [t] is the octant of [(y[t], y[t + tau])], and the quadrant symbols
    are recovered from the octant symbols: quadrant [= (octant + 1) // 2]. *)
Theorem CoarseGrain_embed2octants (y : list Q) (numGroups : nat) :
  (25 <= length y)%nat -> (1 <= numGroups)%nat ->
  let tau := Nat.min numGroups (length y / 25) in
  exists yo yq,
    Symbolic.CoarseGrain y "embed2octants" numGroups = Ok yo /\
    Symbolic.CoarseGrain y "embed2quadrants" numGroups = Ok yq /\
    length yo = (length y - tau)%nat /\
    (forall t, (t < length y - tau)%nat ->
       forall g, nth t yo 0%nat = g
                 <-> Notions.in_octant g (nth t y 0) (nth (t + tau) y 0)) /\
    yq = map (fun s => ((s + 1) / 2)%nat) yo.
Proof.
  intros HN Hk tau.
  eexists. eexists. split; [|split].
  - rewrite (EmbedProps.CoarseGrain_embed y numGroups true HN Hk).
    apply CoarseGrainProps.check_assigned_ok.
    apply (EmbedProps.embed_symbols_ok _ true).
  - rewrite (EmbedProps.CoarseGrain_embed y numGroups false HN Hk).
    apply CoarseGrainProps.check_assigned_ok.
    apply (EmbedProps.embed_symbols_ok _ false).
  - fold tau. split; [|split].
    + rewrite length_map. apply EmbedProps.delay_pairs_length.
    + intros t Ht g.
      rewrite (nth_indep _ 0%nat
                 (Notions.region_symbol Symbolic.octant 8 (fst (0, 0)) (snd (0, 0))))
        by (rewrite length_map, EmbedProps.delay_pairs_length; exact Ht).
      rewrite (map_nth (fun p => Notions.region_symbol Symbolic.octant 8 (fst p) (snd p))).
      rewrite EmbedProps.delay_pairs_nth by exact Ht. cbn [fst snd].
      apply EmbedProps.octant_symbol_spec.
    + rewrite map_map. apply map_ext. intros [m1 m2]. cbn [fst snd].
      apply EmbedProps.octant_quadrant.
Qed.

Lemma CoarseGrain_embed2octants_witness :
  let y := map (fun i => Qnat i - 12) (seq 0%nat 26%nat) in
  (25 <= length y)%nat /\ (1 <= 3)%nat /\
  exists yo yq,
    Symbolic.CoarseGrain y "embed2octants" 3 = Ok yo /\
    Symbolic.CoarseGrain y "embed2quadrants" 3 = Ok yq /\
    yq = map (fun s => ((s + 1) / 2)%nat) yo.
Proof.
  intro y. split; [vm_compute; lia|]. split; [lia|].
  destruct (CoarseGrain_embed2octants y 3) as (yo & yq & H1 & H2 & _ & _ & H3);
    [vm_compute; lia | lia |].
  exists yo, yq. split; [exact H1|]. split; [exact H2 | exact H3].
Defined.

(** X9. On a series shorter than 25 samples the embedding methods cap
    the delay to [N // 25 = 0], whatever [numGroups] is. The slice
    [y[:-0]] is then empty while [y[0:]] is the whole series: for two or
    more samples combining the masks raises a [ValueError], and for at
    most one sample the call returns an empty sequence. *)
Theorem CoarseGrain_embed_short (y : list Q) (howtocg : string) (numGroups : nat) :
  howtocg = "embed2quadrants" \/ howtocg = "embed2octants" ->
  (length y < 25)%nat ->
  Symbolic.embed_tau (length y) numGroups = 0%nat /\
  ((length y <= 1)%nat -> Symbolic.CoarseGrain y howtocg numGroups = Ok []) /\
  ((2 <= length y)%nat ->
   exists msg, Symbolic.CoarseGrain y howtocg numGroups = Raise (ValueError msg)).
Proof.
  intros Hhow HN.
  assert (Ht : Symbolic.embed_tau (length y) numGroups = 0%nat).
  { rewrite EmbedProps.embed_tau_min, Nat.div_small by exact HN. lia. }
  split; [exact Ht|]. split.
  - intro H1. unfold Symbolic.CoarseGrain. rewrite Ht.
    destruct y as [|y0 [|y1 y']]; [| |simpl in H1; lia];
      destruct Hhow as [-> | ->]; reflexivity.
  - intro H2. unfold Symbolic.CoarseGrain. rewrite Ht.
    destruct y as [|y0 [|y1 y']]; [simpl in H2; lia | simpl in H2; lia|].
    destruct Hhow as [-> | ->]; eexists; reflexivity.
Qed.

Lemma CoarseGrain_embed_short_witness :
  ("embed2quadrants" = "embed2quadrants" \/ "embed2quadrants" = "embed2octants") /\
  (length [1; -2; 3]%Q < 25)%nat /\
  exists msg, Symbolic.CoarseGrain [1; -2; 3] "embed2quadrants" 1 = Raise (ValueError msg).
Proof.
  split; [left; reflexivity|]. split; [simpl; lia|].
  refine (proj2 (proj2 (CoarseGrain_embed_short [1; -2; 3] "embed2quadrants" 1 _ _)) _).
  - left; reflexivity.
  - simpl; lia.
  - simpl; lia.
Defined.

(** X10. [CoarseGrain] raises a [ValueError] for every method name
    outside its four, whatever the series. Whenever it returns, the
    method is one of the four, the sequence is not longer than the
    series, and every symbol lies in the alphabet of the method
    ([1..numGroups], [1..4] or [1..8]): a zero is never returned. *)
Theorem CoarseGrain_postcondition (y : list Q) (howtocg : string) (numGroups : nat) :
  (~ In howtocg Notions.methods ->
   exists msg, Symbolic.CoarseGrain y howtocg numGroups = Raise (ValueError msg)) /\
  (forall yth, Symbolic.CoarseGrain y howtocg numGroups = Ok yth ->
     In howtocg Notions.methods /\
     (length yth <= length y)%nat /\
     Forall (fun s => (1 <= s <= Notions.alphabet howtocg numGroups)%nat) yth).
Proof.
  assert (Hnz : forall (l : list nat) (n : nat),
             ~ In 0%nat l -> Forall (fun s => (s <= n)%nat) l ->
             Forall (fun s => (1 <= s <= n)%nat) l).
  { intros l n H0 Hf. rewrite Forall_forall in *. intros s Hs.
    specialize (Hf s Hs). destruct s; [contradiction | lia]. }
  unfold Symbolic.CoarseGrain, Notions.methods, Notions.alphabet.
  cbn [existsb In].
  destruct (String.eqb_spec howtocg "updown") as [-> | Hu].
  { cbn [negb orb]. split; [intro H; exfalso; apply H; left; reflexivity|].
    intros yth H. split; [left; reflexivity|].
    cbn [String.eqb Ascii.eqb Bool.eqb] in *.
    destruct (np_diff y) as [|d ds] eqn:Ed; [discriminate|].
    apply EmbedProps.check_assigned_inv in H. destruct H as [-> H0].
    split.
    - rewrite CoarseGrainProps.quantile_symbols_length, <- Ed,
        MotifProps.np_diff_length. lia.
    - apply Hnz; [exact H0|]. rewrite CoarseGrainProps.quantile_symbols_map.
      apply Forall_forall. intros s Hs. apply in_map_iff in Hs.
      destruct Hs as (v & <- & _). apply CoarseGrainProps.symbol_of_le. }
  destruct (String.eqb_spec howtocg "quantile") as [-> | Hq].
  { cbn [negb orb]. split; [intro H; exfalso; apply H; right; left; reflexivity|].
    intros yth H. split; [right; left; reflexivity|].
    cbn [String.eqb Ascii.eqb Bool.eqb] in *.
    destruct y as [|y0 y'] eqn:Ey; [discriminate|]. rewrite <- Ey in *.
    apply EmbedProps.check_assigned_inv in H. destruct H as [-> H0].
    split.
    - rewrite CoarseGrainProps.quantile_symbols_length. lia.
    - apply Hnz; [exact H0|]. rewrite CoarseGrainProps.quantile_symbols_map.
      apply Forall_forall. intros s Hs. apply in_map_iff in Hs.
      destruct Hs as (v & <- & _). apply CoarseGrainProps.symbol_of_le. }
  assert (Hm1 : forall tau,
             (length (match tau with
                      | O => []
                      | S _ => firstn (length y - tau) y
                      end) <= length y)%nat).
  { intros [|tau]; [simpl; lia|]. rewrite length_firstn. lia. }
  destruct (String.eqb_spec howtocg "embed2quadrants") as [-> | H4].
  { cbn [negb orb]. split; [intro H; exfalso; apply H; do 2 right; left; reflexivity|].
    intros yth H. split; [do 2 right; left; reflexivity|].
    match type of H with
    | (if ?c then _ else _) = _ => destruct c; [discriminate|]
    end.
    cbn [String.eqb Ascii.eqb Bool.eqb] in H.
    apply EmbedProps.check_assigned_inv in H. destruct H as [-> H0].
    match goal with
    | |- context [Symbolic.assign_regions ?r ?n ?a ?b] =>
        destruct (EmbedProps.assign_regions_bound r n a b) as [Hl Hf]
    end.
    split; [rewrite Hl; apply Hm1 | apply Hnz; assumption]. }
  destruct (String.eqb_spec howtocg "embed2octants") as [-> | H8].
  { cbn [negb orb]. split; [intro H; exfalso; apply H; do 3 right; left; reflexivity|].
    intros yth H. split; [do 3 right; left; reflexivity|].
    match type of H with
    | (if ?c then _ else _) = _ => destruct c; [discriminate|]
    end.
    cbn [String.eqb Ascii.eqb Bool.eqb] in H.
    apply EmbedProps.check_assigned_inv in H. destruct H as [-> H0].
    match goal with
    | |- context [Symbolic.assign_regions ?r ?n ?a ?b] =>
        destruct (EmbedProps.assign_regions_bound r n a b) as [Hl Hf]
    end.
    split; [rewrite Hl; apply Hm1 | apply Hnz; assumption]. }
  cbn [negb orb]. split; [intros _; eexists; reflexivity | intros yth H; discriminate].
Qed.

Lemma CoarseGrain_postcondition_witness :
  ~ In "mean" Notions.methods /\
  (exists msg, Symbolic.CoarseGrain [3; 1; 2] "mean" 2 = Raise (ValueError msg)) /\
  Symbolic.CoarseGrain [3; 1; 2] "quantile" 2 = Ok [2; 1; 1]%nat /\
  Forall (fun s => (1 <= s <= Notions.alphabet "quantile" 2)%nat) [2; 1; 1]%nat.
Proof.
  assert (Hno : ~ In "mean" Notions.methods).
  { intro H. repeat (destruct H as [H | H]; [discriminate H|]). exact H. }
  assert (Hok : Symbolic.CoarseGrain [3; 1; 2] "quantile" 2 = Ok [2; 1; 1]%nat)
    by (vm_compute; reflexivity).
  split; [exact Hno|]. split.
  - exact (proj1 (CoarseGrain_postcondition [3; 1; 2] "mean" 2) Hno).
  - split; [exact Hok|].
    exact (proj2 (proj2 (proj2 (CoarseGrain_postcondition [3; 1; 2] "quantile" 2)
                           [2; 1; 1]%nat Hok))).
Defined.



(** ** TransitionMatrix: the reported features *)

Module FeatureProps.
Import Notions CoarseGrainProps TransitionProps Symbolic.

Lemma dict_get_app_skip {V : Type} (key : string) (d rest : dict V) :
  Forall (fun kv => String.eqb key (fst kv) = false) d ->
  dict_get key (d ++ rest)%list = dict_get key rest.
Proof.
  induction 1 as [|[k' v] d Hk _ IH]; [reflexivity|].
  cbn [app dict_get]. cbn [fst] in Hk. rewrite Hk. exact IH.
Qed.

(** The matrix of a series of at least two samples has only finite entries. *)
Lemma T_finite (yth : list nat) (k N : nat) :
  (2 <= N)%nat ->
  forallb (forallb is_finite) (normalize (transition_counts yth k) N) = true.
Proof.
  intro HN. rewrite (normalize_Fin yth k N HN).
  apply forallb_forall. intros row Hrow. apply in_map_iff in Hrow.
  destruct Hrow as (r & <- & _). apply forallb_forall. intros v Hv.
  apply in_map_iff in Hv. destruct Hv as (c & <- & _). reflexivity.
Qed.

(** On a single sample every entry is a division by zero. *)
Lemma T_single (yth : list nat) (k : nat) :
  (1 <= k)%nat ->
  forallb (forallb is_finite) (normalize (transition_counts yth k) 1) = false.
Proof.
  intro Hk. destruct k as [|k]; [lia|].
  unfold normalize, transition_counts.
  change (seq 0 (S k)) with (0%nat :: seq 1 k). cbn [map forallb].
  rewrite transition_row_counts.
  change (seq 0 (S k)) with (0%nat :: seq 1 k). cbn [map forallb].
  unfold np_div. change (Qeqb (Qnat 1 - 1) 0) with true. cbv iota.
  destruct (Qeqb (Qnat (count_pairs 1 1 yth)) 0); [reflexivity|].
  destruct (Qltb 0 (Qnat (count_pairs 1 1 yth))); reflexivity.
Qed.

Lemma diag_Fin (yth : list nat) (k N : nat) :
  (2 <= N)%nat ->
  map (fun i => entry (normalize (transition_counts yth k) N) i i) (seq 0 k)
  = map Fin (map (fun c => c / (Qnat N - 1))
                 (map (fun i => Qnat (count_pairs (S i) (S i) yth)) (seq 0 k))).
Proof.
  intro HN. rewrite !map_map. apply map_ext_in. intros i Hi.
  apply in_seq in Hi. apply (T_entry yth k N HN); lia.
Qed.

Lemma repeats_by_symbol (yth : list nat) (k : nat) :
  Forall (fun s => (1 <= s <= k)%nat) yth ->
  list_sum (map (fun i => count_pairs (S i) (S i) yth) (seq 0 k)) = count_repeats yth.
Proof.
  intro Hr. unfold count_repeats.
  rewrite <- (sum_by_key fst k (filter (fun p => Nat.eqb (fst p) (snd p)) (adjacent yth))).
  - f_equal. apply map_ext. intro i. unfold count_pairs. rewrite filter_filter.
    f_equal. apply filter_ext. intros [a b]. cbn [fst snd].
    destruct (Nat.eqb_spec (S i) a) as [<- | Ha]; cbn [andb].
    + rewrite andb_true_r. reflexivity.
    + rewrite andb_false_r. reflexivity.
  - apply Forall_forall. intros p Hp. apply filter_In in Hp. destruct Hp as [Hp _].
    destruct (adjacent_fst_in yth p Hp) as [Hf _].
    rewrite Forall_forall in Hr. apply Hr, Hf.
Qed.

Lemma count_repeats_le (yth : list nat) : (count_repeats yth <= length yth - 1)%nat.
Proof.
  unfold count_repeats. rewrite <- adjacent_length. apply filter_length_le.
Qed.

(** The trace is the fraction of adjacent pairs that repeat their symbol. *)
Lemma trace_value (yth : list nat) (k N : nat) :
  (2 <= N)%nat -> Forall (fun s => (1 <= s <= k)%nat) yth ->
  exists q,
    fsum (map (fun i => entry (normalize (transition_counts yth k) N) i i) (seq 0 k))
    = Fin q /\
    q == Qnat (count_repeats yth) / (Qnat N - 1).
Proof.
  intros HN Hr. rewrite (diag_Fin yth k N HN), fsum_Fin.
  eexists. split; [reflexivity|].
  rewrite np_sum_scale, np_sum_Qnat, repeats_by_symbol by exact Hr. reflexivity.
Qed.

(** *** Two symbols: the two kinds of change alternate *)

Lemma adjacent_cons (a b : nat) (l : list nat) :
  adjacent (a :: b :: l) = (a, b) :: adjacent (b :: l).
Proof. reflexivity. Qed.

Lemma count_pairs_cons (u v a b : nat) (l : list nat) :
  count_pairs u v (a :: b :: l)
  = ((if Nat.eqb u a && Nat.eqb v b then 1 else 0) + count_pairs u v (b :: l))%nat.
Proof.
  unfold count_pairs. rewrite adjacent_cons. cbn [filter fst snd].
  destruct (Nat.eqb u a && Nat.eqb v b); reflexivity.
Qed.

(** In a sequence over [{1, 2}] the changes [1 -> 2] and [2 -> 1]
    alternate: their numbers differ by what the two ends tell. *)
Lemma changes_balance (l : list nat) (a : nat) :
  Forall (fun s => (1 <= s <= 2)%nat) (a :: l) ->
  (Z.of_nat (count_pairs 1 2 (a :: l)) - Z.of_nat (count_pairs 2 1 (a :: l))
   = (if Nat.eqb a 1 then 1 else 0) - (if Nat.eqb (last l a) 1 then 1 else 0))%Z.
Proof.
  revert a. induction l as [|b l IH]; intros a Hr.
  - cbn. destruct (Nat.eqb a 1); reflexivity.
  - inversion Hr as [|? ? Ha Hr']; subst. specialize (IH b Hr').
    rewrite !count_pairs_cons.
    assert (Hl : last (b :: l) a = last l b).
    { clear. revert a b. induction l as [|c l IHl]; intros a b; [reflexivity|].
      change (last (b :: c :: l) a) with (last (c :: l) a).
      rewrite (IHl a c). symmetry. apply IHl. }
    rewrite Hl.
    inversion Hr' as [|? ? Hb _]; subst.
    assert (Ea : a = 1%nat \/ a = 2%nat) by lia.
    assert (Eb : b = 1%nat \/ b = 2%nat) by lia.
    destruct Ea as [-> | ->], Eb as [-> | ->];
      cbn [Nat.eqb andb] in *; lia.
Qed.

Lemma changes_differ_by_one (yth : list nat) :
  Forall (fun s => (1 <= s <= 2)%nat) yth ->
  (Z.abs (Z.of_nat (count_pairs 2 1 yth) - Z.of_nat (count_pairs 1 2 yth)) <= 1)%Z.
Proof.
  intro Hr. destruct yth as [|a l]; [cbn; lia|].
  pose proof (changes_balance l a Hr) as H.
  destruct (Nat.eqb a 1), (Nat.eqb (last l a) 1); lia.
Qed.

Section Returned.

Variable ssre : list Q -> nat -> list Q.
Variable np_sqrt : Q -> Q.
Variables (y : list Q) (k tau : nat).
Hypothesis HN : (2 <= length y)%nat.
Hypothesis Hk : (2 <= k)%nat.
Hypothesis Htau : (tau <= 1)%nat.
Hypothesis Hinc : first_point_included y.

Let yth := quantile_symbols y k.
Let T := normalize (transition_counts yth k) (length y).

Lemma TransitionMatrix_T_value :
  TransitionMatrix_T ssre y "quantile" k tau = Ok T.
Proof.
  unfold TransitionMatrix_T.
  rewrite (proj2 (Nat.ltb_ge k 2)) by lia.
  rewrite (proj2 (Nat.ltb_ge 1 tau)) by lia.
  rewrite CoarseGrain_quantile_ok;
    [reflexivity | destruct y; [simpl in HN; lia | discriminate] | lia | exact Hinc].
Qed.

Lemma TransitionMatrix_features :
  exists out,
    TransitionMatrix ssre np_sqrt y "quantile" k tau = Ok out /\
    dict_get "ondiag" out = Some (fsum (map (fun i => entry T i i) (seq 0 k))) /\
    dict_get "symsumdiff" out
    = Some (fsub (fsum (map (fun p => entry T (fst p) (snd p))
                            (filter (fun p => (snd p <? fst p)%nat)
                                    (list_prod (seq 0 k) (seq 0 k)))))
                 (fsum (map (fun p => entry T (fst p) (snd p))
                            (filter (fun p => (fst p <? snd p)%nat)
                                    (list_prod (seq 0 k) (seq 0 k)))))).
Proof.
  unfold TransitionMatrix. rewrite TransitionMatrix_T_value. cbn [bind].
  unfold T at 1. rewrite (T_finite yth k (length y) HN).
  eexists. split; [reflexivity|].
  assert (Hskip : forall (key : string) (entries rest : dict fval),
             Forall (fun kv => String.eqb key (fst kv) = false) entries ->
             dict_get key (entries ++ rest)%list = dict_get key rest)
    by (intros; apply dict_get_app_skip; assumption).
  split.
  - rewrite Hskip; [reflexivity|].
    destruct (k <=? 3)%nat; apply Forall_forall; intros kv Hin;
      apply in_map_iff in Hin; destruct Hin as (i & <- & _); reflexivity.
  - rewrite Hskip; [reflexivity|].
    destruct (k <=? 3)%nat; apply Forall_forall; intros kv Hin;
      apply in_map_iff in Hin; destruct Hin as (i & <- & _); reflexivity.
Qed.

End Returned.

End FeatureProps.



(** X12. On a series of at least two samples on which [th[0] -= 1]
    puts the lowest threshold below the smallest sample
    ([numGroups >= 2], the quantile method, no resampling) the feature
    [ondiag], the trace of the transition matrix, is the fraction of
    adjacent pairs of symbols that repeat their symbol; it lies between
    0 and 1. *)
Theorem TransitionMatrix_ondiag
    (ssre : list Q -> nat -> list Q) (np_sqrt : Q -> Q)
    (y : list Q) (numGroups tau : nat) :
  (2 <= length y)%nat -> (2 <= numGroups)%nat -> (tau <= 1)%nat ->
  Notions.first_point_included y ->
  exists yth out q,
    Symbolic.CoarseGrain y "quantile" numGroups = Ok yth /\
    Symbolic.TransitionMatrix ssre np_sqrt y "quantile" numGroups tau = Ok out /\
    dict_get "ondiag" out = Some (Fin q) /\
    q == Qnat (Notions.count_repeats yth) / (Qnat (length y) - 1) /\
    0 <= q /\ q <= 1.
Proof.
  intros HN Hk Htau Hinc.
  assert (Hy : y <> []) by (destruct y; [simpl in HN; lia | discriminate]).
  pose proof (CoarseGrainProps.quantile_symbols_range y numGroups ltac:(lia) Hinc) as Hr.
  pose proof (CoarseGrainProps.quantile_symbols_length y numGroups) as Hlen.
  destruct (FeatureProps.TransitionMatrix_features ssre np_sqrt y numGroups tau
              HN Hk Htau Hinc) as (out & Hout & Hd & _).
  destruct (FeatureProps.trace_value _ numGroups (length y) HN Hr) as (q & Hq & Eq).
  exists (Symbolic.quantile_symbols y numGroups), out, q.
  split; [apply CoarseGrainProps.CoarseGrain_quantile_ok; [exact Hy | lia | exact Hinc]|].
  split; [exact Hout|]. split; [rewrite Hd, Hq; reflexivity|].
  split; [exact Eq|].
  pose proof (TransitionProps.D_pos (length y) HN) as HD.
  pose proof (FeatureProps.count_repeats_le (Symbolic.quantile_symbols y numGroups)) as Hle.
  rewrite Hlen in Hle.
  assert (Hc : Qnat (Notions.count_repeats (Symbolic.quantile_symbols y numGroups))
               <= Qnat (length y) - 1).
  { assert (H := Qnat_le _ _ Hle).
    pose proof (Qnat_S (length y - 1)) as HS.
    replace (S (length y - 1)) with (length y) in HS by lia. lra. }
  rewrite Eq. split.
  - apply Qle_shift_div_l; [exact HD|]. rewrite Qmult_0_l. apply Qnat_nonneg.
  - apply Qle_shift_div_r; [exact HD|]. lra.
Qed.

Lemma TransitionMatrix_ondiag_witness :
  (2 <= length [1; 5; 2; 4; 3; 7; 6]%Q)%nat /\ (2 <= 3)%nat /\ (1 <= 1)%nat /\
  Notions.first_point_included [1; 5; 2; 4; 3; 7; 6] /\
  exists yth out q,
    Symbolic.CoarseGrain [1; 5; 2; 4; 3; 7; 6] "quantile" 3 = Ok yth /\
    Symbolic.TransitionMatrix (fun y _ => y) (fun v => v)
      [1; 5; 2; 4; 3; 7; 6] "quantile" 3 1 = Ok out /\
    dict_get "ondiag" out = Some (Fin q) /\ 0 <= q /\ q <= 1.
Proof.
  assert (Hinc : Notions.first_point_included [1; 5; 2; 4; 3; 7; 6])
    by (vm_compute; reflexivity).
  split; [simpl; lia|]. split; [lia|]. split; [lia|]. split; [exact Hinc|].
  destruct (TransitionMatrix_ondiag (fun y _ => y) (fun v => v)
              [1; 5; 2; 4; 3; 7; 6] 3 1)
    as (yth & out & q & H1 & H2 & H3 & _ & H4 & H5);
    [simpl; lia | lia | lia | exact Hinc |].
  exists yth, out, q. repeat split; assumption.
Defined.

(** X13. With two groups, on a series of at least two samples on which
    [th[0] -= 1] puts the lowest threshold below the smallest sample
    (quantile method, no resampling), the feature [symsumdiff] is the number of
    changes [2 -> 1] minus the number of changes [1 -> 2], over
    [N - 1]. The two kinds of change alternate along the sequence, so
    their numbers differ by at most one and
    [|symsumdiff| <= 1 / (N - 1)]. *)
Theorem TransitionMatrix_two_groups_balanced
    (ssre : list Q -> nat -> list Q) (np_sqrt : Q -> Q) (y : list Q) (tau : nat) :
  (2 <= length y)%nat -> (tau <= 1)%nat ->
  Notions.first_point_included y ->
  exists yth out d,
    Symbolic.CoarseGrain y "quantile" 2 = Ok yth /\
    Symbolic.TransitionMatrix ssre np_sqrt y "quantile" 2 tau = Ok out /\
    dict_get "symsumdiff" out = Some (Fin d) /\
    d == (Qnat (Notions.count_pairs 2 1 yth) - Qnat (Notions.count_pairs 1 2 yth))
         / (Qnat (length y) - 1) /\
    Qabs d <= 1 / (Qnat (length y) - 1).
Proof.
  intros HN Htau Hinc.
  assert (Hy : y <> []) by (destruct y; [simpl in HN; lia | discriminate]).
  pose proof (CoarseGrainProps.quantile_symbols_range y 2 ltac:(lia) Hinc) as Hr.
  destruct (FeatureProps.TransitionMatrix_features ssre np_sqrt y 2 tau
              HN ltac:(lia) Htau Hinc) as (out & Hout & _ & Hd).
  set (yth := Symbolic.quantile_symbols y 2) in *.
  cbn [seq list_prod map app filter fst snd Nat.ltb Nat.leb] in Hd.
  rewrite !(TransitionProps.T_entry yth 2 (length y) HN) in Hd by lia.
  cbn [Symbolic.fsum fold_right fadd fsub fneg] in Hd.
  pose proof (TransitionProps.D_pos (length y) HN) as HD.
  set (D := Qnat (length y) - 1) in *.
  set (c21 := Notions.count_pairs 2 1 yth) in *.
  set (c12 := Notions.count_pairs 1 2 yth) in *.
  assert (Ed : Qnat c21 / D + 0 + - (Qnat c12 / D + 0) == (Qnat c21 - Qnat c12) / D).
  { unfold Qdiv. ring. }
  exists yth, out. eexists.
  split; [apply CoarseGrainProps.CoarseGrain_quantile_ok; [exact Hy | lia | exact Hinc]|].
  split; [exact Hout|]. split; [exact Hd|]. split; [exact Ed|].
  rewrite Ed.
  pose proof (FeatureProps.changes_differ_by_one yth Hr) as Hz.
  fold c21 c12 in Hz.
  assert (Hx : -1 <= Qnat c21 - Qnat c12 /\ Qnat c21 - Qnat c12 <= 1).
  { assert (E : Qnat c21 - Qnat c12
                 == inject_Z (Z.of_nat c21 - Z.of_nat c12)).
    { unfold Qnat, Qminus, Z.sub. rewrite inject_Z_plus, inject_Z_opp. reflexivity. }
    assert (H1 : inject_Z (-1) <= inject_Z (Z.of_nat c21 - Z.of_nat c12))
      by (rewrite <- Zle_Qle; lia).
    assert (H2 : inject_Z (Z.of_nat c21 - Z.of_nat c12) <= inject_Z 1)
      by (rewrite <- Zle_Qle; lia).
    change (inject_Z (-1)) with (-1) in H1. change (inject_Z 1) with 1 in H2.
    rewrite E. split; assumption. }
  destruct Hx as [Hx1 Hx2].
  assert (Hi : 0 < / D) by (apply Qinv_lt_0_compat; exact HD).
  apply Qabs_Qle_condition. unfold Qdiv. split.
  - setoid_replace (- (1 * / D)) with ((-1) * / D) by ring.
    apply Qmult_le_compat_r; [exact Hx1 | lra].
  - apply Qmult_le_compat_r; [exact Hx2 | lra].
Qed.

Lemma TransitionMatrix_two_groups_balanced_witness :
  (2 <= length [1; 5; 2; 4; 3; 7; 6]%Q)%nat /\ (1 <= 1)%nat /\
  Notions.first_point_included [1; 5; 2; 4; 3; 7; 6] /\
  exists yth out d,
    Symbolic.CoarseGrain [1; 5; 2; 4; 3; 7; 6] "quantile" 2 = Ok yth /\
    Symbolic.TransitionMatrix (fun y _ => y) (fun v => v)
      [1; 5; 2; 4; 3; 7; 6] "quantile" 2 1 = Ok out /\
    dict_get "symsumdiff" out = Some (Fin d) /\
    Qabs d <= 1 / (Qnat (length [1; 5; 2; 4; 3; 7; 6]%Q) - 1).
Proof.
  assert (Hinc : Notions.first_point_included [1; 5; 2; 4; 3; 7; 6])
    by (vm_compute; reflexivity).
  split; [simpl; lia|]. split; [lia|]. split; [exact Hinc|].
  destruct (TransitionMatrix_two_groups_balanced (fun y _ => y) (fun v => v)
              [1; 5; 2; 4; 3; 7; 6] 1)
    as (yth & out & d & H1 & H2 & H3 & _ & H4); [simpl; lia | lia | exact Hinc |].
  exists yth, out, d. repeat split; assumption.
Defined.

(** ** MotifTwo: words of every length *)

Module WordProps.
Import Notions TransitionProps MotifProps Symbolic.

Lemma logical_and_length (a b : list bool) :
  length (logical_and a b) = Nat.min (length a) (length b).
Proof. unfold logical_and. rewrite length_map. apply length_combine. Qed.

Lemma logical_and_nth (a b : list bool) (t : nat) :
  length a = length b ->
  nth t (logical_and a b) false = nth t a false && nth t b false.
Proof.
  intro Hl. unfold logical_and.
  change false with ((fun p : bool * bool => fst p && snd p) (false, false)) at 1.
  rewrite map_nth, combine_nth by exact Hl. reflexivity.
Qed.

Lemma removelast_length {A : Type} (m : list A) :
  length (removelast m) = (length m - 1)%nat.
Proof. rewrite removelast_firstn_len, length_firstn. lia. Qed.

Lemma removelast_nth {A : Type} (m : list A) (d : A) (t : nat) :
  (t < length m - 1)%nat -> nth t (removelast m) d = nth t m d.
Proof.
  intro Ht. rewrite removelast_firstn_len, nth_firstn.
  assert (E : (t <? Nat.pred (length m))%nat = true) by (apply Nat.ltb_lt; lia).
  rewrite E. reflexivity.
Qed.

Lemma count_true_nth (m : list bool) :
  count_true m = list_sum (map (fun t => b2n (nth t m false)) (seq 0 (length m))).
Proof.
  induction m as [|b m IH]; [reflexivity|].
  cbn [length]. rewrite <- cons_seq, <- seq_shift, map_cons, map_map, list_sum_cons.
  cbn [nth]. rewrite <- IH. unfold count_true. cbn [filter].
  destruct b; reflexivity.
Qed.

Lemma list_sum_swap {A : Type} (f : A -> nat -> nat) (ms : list A) (ts : list nat) :
  list_sum (map (fun m => list_sum (map (f m) ts)) ms)
  = list_sum (map (fun t => list_sum (map (fun m => f m t) ms)) ts).
Proof.
  induction ms as [|m ms IH]; cbn [map].
  - cbn [list_sum fold_right]. symmetry. apply list_sum_zero.
  - rewrite list_sum_cons, IH.
    rewrite <- (list_sum_add (f m) (fun t => list_sum (map (fun m => f m t) ms))).
    f_equal.
Qed.

Lemma list_sum_ones (ts : list nat) (g : nat -> nat) :
  (forall t, In t ts -> g t = 1%nat) -> list_sum (map g ts) = length ts.
Proof.
  induction ts as [|t ts IH]; intro H; [reflexivity|].
  cbn [map length]. rewrite list_sum_cons, H, IH; [reflexivity | | left; reflexivity].
  intros u Hu. apply H. right. exact Hu.
Qed.

(** Masks that split the positions hold, together, once per position. *)
Lemma partition_count (n : nat) (masks : list (list bool)) :
  partition_of n masks -> list_sum (map count_true masks) = n.
Proof.
  intros [Hl Hp].
  transitivity (list_sum (map (fun m => list_sum (map (fun t => b2n (nth t m false))
                                                      (seq 0 n))) masks)).
  - f_equal. apply map_ext_in. intros m Hm.
    rewrite Forall_forall in Hl. rewrite <- (Hl m Hm). apply count_true_nth.
  - rewrite (list_sum_swap (fun m t => b2n (nth t m false))).
    rewrite list_sum_ones; [apply length_seq|].
    intros t Ht. apply in_seq in Ht. apply Hp. lia.
Qed.

Lemma partition_base (yBin : list nat) :
  Forall binary yBin ->
  partition_of (length yBin) [map (Nat.eqb 0) yBin; map (Nat.eqb 1) yBin].
Proof.
  intro Hb. split.
  - repeat constructor; apply length_map.
  - intros t Ht. unfold holders. cbn [map list_sum fold_right].
    change false with (Nat.eqb 0 2) at 1. rewrite map_nth.
    change false with (Nat.eqb 1 2). rewrite map_nth.
    rewrite Forall_forall in Hb.
    destruct (Hb (nth t yBin 2%nat) (nth_In _ _ Ht)) as [-> | ->]; reflexivity.
Qed.

Lemma extend_words_masks (w : string * list bool) (ws : list (string * list bool))
    (ynext : list nat) :
  map snd (extend_words (w :: ws) ynext)
  = logical_and (removelast (snd w)) (map (Nat.eqb 0) ynext)
    :: logical_and (removelast (snd w)) (map (Nat.eqb 1) ynext)
    :: map snd (extend_words ws ynext).
Proof. reflexivity. Qed.

(** Extending the words by one symbol splits every mask in two and
    keeps the positions split. *)
Lemma partition_extend (n : nat) (words : list (string * list bool))
    (ynext : list nat) :
  partition_of (S n) (map snd words) -> length ynext = n -> Forall binary ynext ->
  partition_of n (map snd (extend_words words ynext)).
Proof.
  intros [Hl Hp] Hn Hb.
  assert (Hstep : forall t, (t < n)%nat ->
            holders (map snd (extend_words words ynext)) t = holders (map snd words) t).
  { intros t Ht. clear Hp. induction words as [|w ws IH]; [reflexivity|].
    inversion Hl as [|? ? Hw Hl']; subst. specialize (IH Hl').
    rewrite extend_words_masks. unfold holders in *. cbn [map].
    rewrite !list_sum_cons, IH.
    rewrite !logical_and_nth
      by (rewrite removelast_length, length_map; lia).
    rewrite removelast_nth by lia.
    change false with (Nat.eqb 0 2) at 2. rewrite map_nth.
    change false with (Nat.eqb 1 2) at 3. rewrite map_nth.
    rewrite Forall_forall in Hb.
    assert (Hin : In (nth t ynext 2%nat) ynext) by (apply nth_In; lia).
    destruct (Hb _ Hin) as [-> | ->]; destruct (nth t (snd w) false); reflexivity. }
  split.
  - clear Hp Hstep. induction words as [|w ws IH]; [constructor|].
    inversion Hl as [|? ? Hw Hl']; subst. rewrite extend_words_masks.
    constructor; [|constructor; [|apply IH; exact Hl']];
      rewrite logical_and_length, removelast_length, length_map; lia.
  - intros t Ht. rewrite Hstep by exact Ht. apply Hp. lia.
Qed.

Lemma mean_masks_Fin (n : nat) (masks : list (list bool)) :
  (1 <= n)%nat -> Forall (fun m => length m = n) masks ->
  map mean_mask masks = map Fin (map (fun m => Qnat (count_true m) / Qnat n) masks).
Proof.
  intros Hn Hl. rewrite map_map. apply map_ext_in. intros m Hm.
  rewrite Forall_forall in Hl. rewrite mean_mask_Fin by (rewrite (Hl m Hm); exact Hn).
  rewrite (Hl m Hm). reflexivity.
Qed.

(** The probabilities of the words of one length are fractions that add up to 1. *)
Lemma partition_probabilities (n : nat) (masks : list (list bool)) :
  (1 <= n)%nat -> partition_of n masks ->
  let ps := map (fun m => Qnat (count_true m) / Qnat n) masks in
  map mean_mask masks = map Fin ps /\
  Forall (fun p => 0 <= p /\ p <= 1) ps /\
  np_sum ps == 1.
Proof.
  intros Hn Hp ps. pose proof (CoarseGrainProps.Qnat_pos n Hn) as Hq.
  split; [apply mean_masks_Fin; [exact Hn | apply Hp]|]. split.
  - apply Forall_forall. intros p Hin. apply in_map_iff in Hin.
    destruct Hin as (m & <- & Hm). destruct Hp as [Hl _].
    rewrite Forall_forall in Hl. split.
    + apply Qle_shift_div_l; [exact Hq|]. rewrite Qmult_0_l. apply Qnat_nonneg.
    + apply CountProps.frac_le_1; [exact Hn|]. rewrite <- (Hl m Hm).
      unfold count_true. apply filter_length_le.
  - unfold ps.
    rewrite <- (map_map (fun m => Qnat (count_true m)) (fun c => c / Qnat n)).
    rewrite np_sum_scale.
    rewrite <- (map_map count_true Qnat), (np_sum_Qnat (fun c => c)), map_id.
    rewrite (partition_count n masks Hp). apply CoarseGrainProps.frac_1, Hn.
Qed.

Section Entropy.

Variable np_log : Q -> Q.
Hypothesis log_nonpos : forall q, 0 < q -> q <= 1 -> np_log q <= 0.

(** The entropy of fractions is finite and not negative. *)
Lemma f_entropy_nonneg (ps : list Q) :
  Forall (fun p => 0 <= p /\ p <= 1) ps ->
  exists h, f_entropy np_log (map Fin ps) = Fin h /\ 0 <= h.
Proof.
  intro Hp. unfold f_entropy.
  assert (H : exists s,
             fsum (map (fun v => match v with
                                 | Fin q => Fin (q * np_log q)
                                 | other => other
                                 end) (filter fpos (map Fin ps))) = Fin s /\ s <= 0).
  { induction Hp as [|p ps [Hp0 Hp1] _ IH].
    - exists 0. split; [reflexivity | lra].
    - destruct IH as (s & Es & Hs). cbn [map filter fpos].
      destruct (Qltb 0 p) eqn:E.
      + apply Qltb_true in E. cbn [map fsum fold_right].
        change (fold_right fadd (Fin 0)) with fsum. rewrite Es. cbn [fadd].
        eexists. split; [reflexivity|].
        pose proof (log_nonpos p E Hp1) as Hl.
        assert (0 <= p * (- np_log p)) by (apply Qmult_le_0_compat; lra).
        lra.
      + exists s. split; assumption. }
  destruct H as (s & Es & Hs). rewrite Es. cbn [fneg].
  eexists. split; [reflexivity | lra].
Qed.

End Entropy.

End WordProps.

Module MotifLevels.
Import Notions WordProps Symbolic.

Section Levels.

Variable np_log : Q -> Q.
Variables (y : list Q) (binarizeHow : string) (yBin : list nat).
Hypothesis Hbin : binarize y binarizeHow = Ok yBin.
Hypothesis HN : (5 <= length yBin)%nat.

Lemma skipn_binary (j : nat) : Forall binary (skipn j yBin).
Proof.
  pose proof (MotifProps.binarize_binary y binarizeHow yBin Hbin) as Hb.
  rewrite Forall_forall in *. intros s Hs. apply Hb.
  rewrite <- (firstn_skipn j yBin). apply in_or_app. right. exact Hs.
Qed.

(** The masks of the words of length [L] split the [N - L + 1] start positions. *)
Lemma words_partition (L : nat) :
  (1 <= L <= 4)%nat -> partition_of (length yBin + 1 - L) (map snd (motif_words yBin L)).
Proof.
  intro HL. unfold motif_words.
  set (w1 := [("d", map (Nat.eqb 0) yBin); ("u", map (Nat.eqb 1) yBin)]).
  set (w2 := extend_words w1 (skipn 1 yBin)).
  set (w3 := extend_words w2 (skipn 2 yBin)).
  set (w4 := extend_words w3 (skipn 3 yBin)).
  assert (H1 : partition_of (length yBin) (map snd w1)).
  { apply partition_base. apply (MotifProps.binarize_binary y binarizeHow yBin Hbin). }
  assert (H2 : partition_of (length yBin - 1) (map snd w2)).
  { apply partition_extend; [|rewrite length_skipn; lia | apply skipn_binary].
    replace (S (length yBin - 1)) with (length yBin) by lia. exact H1. }
  assert (H3 : partition_of (length yBin - 2) (map snd w3)).
  { apply partition_extend; [|rewrite length_skipn; lia | apply skipn_binary].
    replace (S (length yBin - 2)) with (length yBin - 1)%nat by lia. exact H2. }
  assert (H4 : partition_of (length yBin - 3) (map snd w4)).
  { apply partition_extend; [|rewrite length_skipn; lia | apply skipn_binary].
    replace (S (length yBin - 3)) with (length yBin - 2)%nat by lia. exact H3. }
  destruct L as [|[|[|[|[|L]]]]]; try lia; cbv iota.
  - replace (length yBin + 1 - 1)%nat with (length yBin) by lia. exact H1.
  - replace (length yBin + 1 - 2)%nat with (length yBin - 1)%nat by lia. exact H2.
  - replace (length yBin + 1 - 3)%nat with (length yBin - 2)%nat by lia. exact H3.
  - replace (length yBin + 1 - 4)%nat with (length yBin - 3)%nat by lia. exact H4.
Qed.

Lemma MotifTwo_values :
  exists out,
    MotifTwo np_log y binarizeHow = Ok (Mapping out) /\
    (forall L, (1 <= L <= 4)%nat ->
       map (fun key => dict_get key out) (word_keys L)
       = map Some (map mean_mask (map snd (motif_words yBin L)))) /\
    (forall L, (1 <= L <= 4)%nat ->
       dict_get (entropy_key L) out
       = Some (f_entropy np_log (map mean_mask (map snd (motif_words yBin L))))).
Proof.
  unfold MotifTwo. rewrite Hbin. cbn [bind].
  rewrite (proj2 (Nat.ltb_ge (length yBin) 5)) by lia.
  eexists. split; [reflexivity|].
  split; intros L HL; destruct L as [|[|[|[|[|L]]]]]; try lia; reflexivity.
Qed.

End Levels.

End MotifLevels.

(** X14. Whenever the binarized sequence has at least 5 symbols,
    [MotifTwo] returns a mapping in which, for every word length [L]
    from 1 to 4, the [2^L] word probabilities are fractions between 0
    and 1 that add up to 1: the masks of the words of one length split
    the [N - L + 1] start positions. *)
Theorem MotifTwo_word_probabilities
    (np_log : Q -> Q) (y : list Q) (binarizeHow : string) (yBin : list nat) :
  Symbolic.binarize y binarizeHow = Ok yBin ->
  (5 <= length yBin)%nat ->
  exists out,
    Symbolic.MotifTwo np_log y binarizeHow = Ok (Symbolic.Mapping out) /\
    forall L, (1 <= L <= 4)%nat ->
      exists ps,
        map (fun key => dict_get key out) (Notions.word_keys L)
        = map (fun p => Some (Fin p)) ps /\
        length ps = (2 ^ L)%nat /\
        Forall (fun p => 0 <= p /\ p <= 1) ps /\
        np_sum ps == 1.
Proof.
  intros Hb HN.
  destruct (MotifLevels.MotifTwo_values np_log y binarizeHow yBin Hb HN)
    as (out & Hout & Hw & _).
  exists out. split; [exact Hout|]. intros L HL.
  pose proof (MotifLevels.words_partition y binarizeHow yBin Hb HN L HL) as Hp.
  assert (Hn : (1 <= length yBin + 1 - L)%nat) by lia.
  destruct (WordProps.partition_probabilities _ _ Hn Hp) as (E & Hr & Hs).
  eexists. split; [|split; [|split; [exact Hr | exact Hs]]].
  - rewrite (Hw L HL), E, map_map. reflexivity.
  - rewrite length_map.
    destruct L as [|[|[|[|[|L]]]]]; try lia; reflexivity.
Qed.

Lemma MotifTwo_word_probabilities_witness :
  Symbolic.binarize [1; 2; 1; 4; 5; 3] "diff" = Ok [1; 0; 1; 1; 0]%nat /\
  (5 <= length [1; 0; 1; 1; 0]%nat)%nat /\
  exists out,
    Symbolic.MotifTwo (fun q => q - 1) [1; 2; 1; 4; 5; 3] "diff"
    = Ok (Symbolic.Mapping out) /\
    exists ps,
      map (fun key => dict_get key out) (Notions.word_keys 3)
      = map (fun p => Some (Fin p)) ps /\
      np_sum ps == 1.
Proof.
  split; [vm_compute; reflexivity|]. split; [simpl; lia|].
  destruct (MotifTwo_word_probabilities (fun q => q - 1)
              [1; 2; 1; 4; 5; 3] "diff" [1; 0; 1; 1; 0]%nat)
    as (out & H1 & H2); [vm_compute; reflexivity | simpl; lia |].
  exists out. split; [exact H1|].
  destruct (H2 3%nat ltac:(lia)) as (ps & E & _ & _ & Hs).
  exists ps. split; assumption.
Defined.

(** X15. With a logarithm that is not positive on [(0, 1]] (as the
    natural logarithm is), the four entropies [h], [hh], [hhh] and
    [hhhh] that [MotifTwo] reports are finite and not negative. *)
Theorem MotifTwo_entropies_nonneg
    (np_log : Q -> Q) (y : list Q) (binarizeHow : string) (yBin : list nat) :
  (forall q, 0 < q -> q <= 1 -> np_log q <= 0) ->
  Symbolic.binarize y binarizeHow = Ok yBin ->
  (5 <= length yBin)%nat ->
  exists out,
    Symbolic.MotifTwo np_log y binarizeHow = Ok (Symbolic.Mapping out) /\
    forall L, (1 <= L <= 4)%nat ->
      exists h, dict_get (Notions.entropy_key L) out = Some (Fin h) /\ 0 <= h.
Proof.
  intros Hlog Hb HN.
  destruct (MotifLevels.MotifTwo_values np_log y binarizeHow yBin Hb HN)
    as (out & Hout & _ & Hv).
  exists out. split; [exact Hout|]. intros L HL. rewrite (Hv L HL).
  pose proof (MotifLevels.words_partition y binarizeHow yBin Hb HN L HL) as Hp.
  assert (Hn : (1 <= length yBin + 1 - L)%nat) by lia.
  destruct (WordProps.partition_probabilities _ _ Hn Hp) as (E & Hr & _).
  rewrite E.
  destruct (WordProps.f_entropy_nonneg np_log Hlog _ Hr) as (h & -> & Hh).
  exists h. split; [reflexivity | exact Hh].
Qed.

Lemma MotifTwo_entropies_nonneg_witness :
  (forall q, 0 < q -> q <= 1 -> q - 1 <= 0) /\
  Symbolic.binarize [1; 2; 1; 4; 5; 3] "diff" = Ok [1; 0; 1; 1; 0]%nat /\
  (5 <= length [1; 0; 1; 1; 0]%nat)%nat /\
  exists out,
    Symbolic.MotifTwo (fun q => q - 1) [1; 2; 1; 4; 5; 3] "diff"
    = Ok (Symbolic.Mapping out) /\
    exists h, dict_get "hhh" out = Some (Fin h) /\ 0 <= h.
Proof.
  split; [intros; lra|]. split; [vm_compute; reflexivity|]. split; [simpl; lia|].
  destruct (MotifTwo_entropies_nonneg (fun q => q - 1)
              [1; 2; 1; 4; 5; 3] "diff" [1; 0; 1; 1; 0]%nat)
    as (out & H1 & H2);
    [intros; lra | vm_compute; reflexivity | simpl; lia |].
  exists out. split; [exact H1|].
  apply (H2 3%nat). lia.
Defined.

(** ** MotifThree: words of every length *)

Module PositionProps.
Import Notions TransitionProps WordProps IndexBounds Symbolic.

Lemma count_occ_where_from (mask : list bool) (i t : nat) :
  count_occ Nat.eq_dec (where_from i mask) t
  = if (i <=? t)%nat then b2n (nth (t - i) mask false) else 0%nat.
Proof.
  revert i. induction mask as [|b mask IH]; intro i; cbn [where_from].
  - cbn [count_occ]. destruct (i <=? t)%nat; [destruct (t - i)%nat|]; reflexivity.
  - assert (Hrest : count_occ Nat.eq_dec (where_from (S i) mask) t
                    = if (S i <=? t)%nat then b2n (nth (t - S i) mask false) else 0%nat)
      by apply IH.
    destruct (Nat.leb_spec i t) as [Hle | Hgt].
    + destruct (Nat.eq_dec i t) as [-> | Hne].
      * rewrite Nat.sub_diag. cbn [nth].
        rewrite (proj2 (Nat.leb_gt (S t) t)) in Hrest by lia.
        destruct b; [rewrite count_occ_cons_eq by reflexivity|];
          rewrite Hrest; reflexivity.
      * rewrite (proj2 (Nat.leb_le (S i) t)) in Hrest by lia.
        replace (t - i)%nat with (S (t - S i)) by lia. cbn [nth].
        destruct b; [rewrite count_occ_cons_neq by exact Hne|]; exact Hrest.
    + rewrite (proj2 (Nat.leb_gt (S i) t)) in Hrest by lia.
      destruct b; [rewrite count_occ_cons_neq by lia|]; exact Hrest.
Qed.

Lemma count_occ_where (mask : list bool) (t : nat) :
  count_occ Nat.eq_dec (np_where mask) t = b2n (nth t mask false).
Proof.
  unfold np_where. rewrite count_occ_where_from. cbn [Nat.leb].
  rewrite Nat.sub_0_r. reflexivity.
Qed.

Lemma count_occ_filter (f : nat -> bool) (r : list nat) (t : nat) :
  count_occ Nat.eq_dec (filter f r) t
  = if f t then count_occ Nat.eq_dec r t else 0%nat.
Proof.
  induction r as [|a r IH]; cbn [filter].
  - cbn [count_occ]. destruct (f t); reflexivity.
  - destruct (Nat.eq_dec a t) as [-> | Hne].
    + destruct (f t) eqn:E.
      * rewrite !count_occ_cons_eq by reflexivity. rewrite IH. reflexivity.
      * exact IH.
    + destruct (f a).
      * rewrite !count_occ_cons_neq by exact Hne. exact IH.
      * rewrite count_occ_cons_neq by exact Hne. exact IH.
Qed.

(** Trimming removes at most the position [N - L]. *)
Lemma count_occ_trim (N L : nat) (r : list nat) (t : nat) :
  (t + S L <= N)%nat ->
  count_occ Nat.eq_dec (trim_last N L r) t = count_occ Nat.eq_dec r t.
Proof.
  intro Ht. unfold trim_last. destruct r as [|a r]; [reflexivity|].
  destruct (Z.eqb_spec (Z.of_nat (last (a :: r) 0%nat)) (Z.of_nat N - Z.of_nat L))
    as [E | _]; [|reflexivity].
  rewrite (app_removelast_last 0%nat (l := a :: r)) at 2 by discriminate.
  rewrite count_occ_app. cbn [count_occ].
  destruct (Nat.eq_dec (last (a :: r) 0%nat) t) as [E' | _]; [lia | lia].
Qed.

Lemma three_way (c s : nat) :
  (1 <= s <= 3)%nat ->
  list_sum (map (fun j => if (s =? S j)%nat then c else 0%nat) (seq 0 3)) = c.
Proof.
  intro Hs. cbn [seq map]. rewrite !list_sum_cons. cbn [list_sum fold_right].
  assert (E : s = 1%nat \/ s = 2%nat \/ s = 3%nat) by lia.
  destruct E as [-> | [-> | ->]]; cbn [Nat.eqb]; lia.
Qed.

Lemma extend_positions_lists (yt : list nat) (N L : nat) (w : string * list nat)
    (ws : list (string * list nat)) :
  map snd (extend_positions yt N L (w :: ws))
  = (map (fun j => filter (fun idx => (nth (idx + L) yt 0 =? S j)%nat)
                          (trim_last N L (snd w))) (seq 0 3)
     ++ map snd (extend_positions yt N L ws))%list.
Proof.
  unfold extend_positions. cbn [flat_map]. rewrite map_app, map_map. reflexivity.
Qed.

Lemma occupants_app (rs rs' : list (list nat)) (t : nat) :
  occupants (rs ++ rs') t = (occupants rs t + occupants rs' t)%nat.
Proof. unfold occupants. rewrite map_app. apply list_sum_app. Qed.

(** A longer word starts where its prefix starts: extending the words
    keeps each start position (with room for the longer word) in
    exactly as many lists as before. *)
Lemma occupants_extend (yt : list nat) (L : nat) (words : list (string * list nat))
    (t : nat) :
  Forall (fun s => (1 <= s <= 3)%nat) yt ->
  (t + S L <= length yt)%nat ->
  occupants (map snd (extend_positions yt (length yt) L words)) t
  = occupants (map snd words) t.
Proof.
  intros Hr Ht. induction words as [|w ws IH]; [reflexivity|].
  rewrite extend_positions_lists, occupants_app, IH.
  cbn [map]. unfold occupants at 3. cbn [map]. rewrite list_sum_cons.
  fold (occupants (map snd ws) t). f_equal.
  unfold occupants. rewrite map_map.
  rewrite <- (count_occ_trim (length yt) L (snd w) t Ht).
  rewrite <- (three_way (count_occ Nat.eq_dec (trim_last (length yt) L (snd w)) t)
                        (nth (t + L) yt 0%nat)).
  - f_equal. apply map_ext. intro j.
    apply (count_occ_filter (fun idx => (nth (idx + L) yt 0 =? S j)%nat)).
  - rewrite Forall_forall in Hr. apply Hr, nth_In. lia.
Qed.

Lemma cover_base (yt : list nat) :
  Forall (fun s => (1 <= s <= 3)%nat) yt ->
  cover_of (length yt) 1 (map snd (position_words yt 1)).
Proof.
  intro Hr. unfold position_words. cbv iota. rewrite map_map. cbn [snd]. split.
  - apply Forall_forall. intros r Hin. apply in_map_iff in Hin.
    destruct Hin as (i & <- & _). apply first_positions_ok.
  - intros t Ht. unfold occupants. rewrite map_map.
    transitivity (list_sum (map (fun j => if (nth t yt 0 =? S j)%nat
                                          then 1%nat else 0%nat) (seq 0 3))).
    + apply f_equal. apply map_ext. intro i. rewrite count_occ_where.
      change false with (Nat.eqb (S i) 0). rewrite map_nth.
      rewrite Nat.eqb_sym. destruct (nth t yt 0 =? S i)%nat; reflexivity.
    + apply three_way. rewrite Forall_forall in Hr. apply Hr, nth_In. lia.
Qed.

Lemma cover_extend (yt : list nat) (L : nat) (words : list (string * list nat)) :
  Forall (fun s => (1 <= s <= 3)%nat) yt ->
  cover_of (length yt) L (map snd words) ->
  cover_of (length yt) (S L) (map snd (extend_positions yt (length yt) L words)).
Proof.
  intros Hr [Hok Hone]. split.
  - assert (H : Forall (fun w => positions_ok (length yt) L (snd w)) words).
    { rewrite Forall_forall in *. intros w Hw. apply Hok, in_map, Hw. }
    destruct (extend_positions_ok yt (length yt) L words H) as [_ H'].
    rewrite Forall_forall in *. intros r Hin. apply in_map_iff in Hin.
    destruct Hin as (w & <- & Hw). apply H', Hw.
  - intros t Ht. rewrite occupants_extend by assumption. apply Hone. lia.
Qed.

Lemma position_words_cover (yt : list nat) (L : nat) :
  Forall (fun s => (1 <= s <= 3)%nat) yt -> (1 <= L <= 4)%nat ->
  cover_of (length yt) L (map snd (position_words yt L)).
Proof.
  intros Hr HL.
  pose proof (cover_base yt Hr) as H1.
  pose proof (cover_extend yt 1 _ Hr H1) as H2.
  pose proof (cover_extend yt 2 _ Hr H2) as H3.
  pose proof (cover_extend yt 3 _ Hr H3) as H4.
  destruct L as [|[|[|[|[|L]]]]]; try lia; assumption.
Qed.

Lemma indicator_none (a n i : nat) :
  (a < i)%nat ->
  list_sum (map (fun t => count_occ Nat.eq_dec [a] t) (seq i n)) = 0%nat.
Proof.
  revert i. induction n as [|n IH]; intros i Hi; [reflexivity|].
  cbn [seq map]. rewrite list_sum_cons, IH by lia.
  rewrite count_occ_cons_neq by lia. reflexivity.
Qed.

Lemma indicator_one (a n i : nat) :
  (i <= a < i + n)%nat ->
  list_sum (map (fun t => count_occ Nat.eq_dec [a] t) (seq i n)) = 1%nat.
Proof.
  revert i. induction n as [|n IH]; intros i Hi; [lia|].
  cbn [seq map]. rewrite list_sum_cons.
  destruct (Nat.eq_dec a i) as [-> | Hne].
  - rewrite count_occ_cons_eq by reflexivity. rewrite indicator_none by lia. reflexivity.
  - rewrite count_occ_cons_neq by exact Hne. rewrite IH by lia. reflexivity.
Qed.

Lemma length_by_position (n : nat) (r : list nat) :
  Forall (fun i => (i < n)%nat) r ->
  length r = list_sum (map (fun t => count_occ Nat.eq_dec r t) (seq 0 n)).
Proof.
  induction 1 as [|a r Ha _ IH]; cbn [length].
  - symmetry. apply list_sum_zero.
  - rewrite IH.
    transitivity (list_sum (map (fun t => count_occ Nat.eq_dec [a] t) (seq 0 n))
                  + list_sum (map (fun t => count_occ Nat.eq_dec r t) (seq 0 n)))%nat;
      [rewrite indicator_one by lia; reflexivity|].
    rewrite <- (list_sum_add (fun t => count_occ Nat.eq_dec [a] t)
                             (fun t => count_occ Nat.eq_dec r t)).
    f_equal. apply map_ext. intro t.
    change (a :: r) with ([a] ++ r)%list. symmetry. apply count_occ_app.
Qed.

(** Position lists that cover the start positions hold, together,
    every start position once. *)
Lemma cover_count (N L : nat) (rs : list (list nat)) :
  (L <= N)%nat -> cover_of N L rs -> list_sum (map (@length nat) rs) = (N + 1 - L)%nat.
Proof.
  intros HL [Hok Hone].
  transitivity (list_sum (map (fun r => list_sum (map (fun t => count_occ Nat.eq_dec r t)
                                                      (seq 0 (N + 1 - L)))) rs)).
  - f_equal. apply map_ext_in. intros r Hr.
    rewrite Forall_forall in Hok. destruct (Hok r Hr) as [_ Hb].
    apply length_by_position. rewrite Forall_forall in *. intros i Hi.
    specialize (Hb i Hi). lia.
  - rewrite (list_sum_swap (fun r t => count_occ Nat.eq_dec r t)).
    rewrite list_sum_ones; [apply length_seq|].
    intros t Ht. apply in_seq in Ht. apply Hone. lia.
Qed.

Lemma cover_lengths (N L : nat) (rs : list (list nat)) (r : list nat) :
  (L <= N)%nat -> cover_of N L rs -> In r rs -> (length r <= N + 1 - L)%nat.
Proof.
  intros HL Hc Hin. rewrite <- (cover_count N L rs HL Hc).
  clear Hc. induction rs as [|r' rs IH]; [destruct Hin|].
  cbn [map]. rewrite list_sum_cons. destruct Hin as [-> | Hin]; [lia|].
  specialize (IH Hin). lia.
Qed.

(** The recorded values when the denominator is not zero. *)
Lemma record_positions_value (N L : nat) (words : list (string * list nat)) :
  (L < N)%nat ->
  record_positions N L words
  = Ok (map (fun w => (fst w, Fin (Qnat (length (snd w)) / Qnat (N - L)))) words).
Proof.
  intro H. unfold record_positions.
  assert (E : inject_Z (Z.of_nat N - Z.of_nat L) = Qnat (N - L)).
  { unfold Qnat. rewrite Nat2Z.inj_sub by lia. reflexivity. }
  rewrite E.
  assert (Hd : Qeqb (Qnat (N - L)) 0 = false).
  { apply Qeqb_false. pose proof (CoarseGrainProps.Qnat_pos (N - L) ltac:(lia)). lra. }
  induction words as [|w words IH]; cbn [mapM map]; [reflexivity|].
  unfold py_div at 1. rewrite Hd. cbn [bind]. rewrite IH. reflexivity.
Qed.

(** The probabilities of the words of length [L] are fractions that add up to 1. *)
Lemma cover_probabilities (N L : nat) (rs : list (list nat)) :
  (1 <= L <= N)%nat -> cover_of N L rs ->
  let ps := map (fun r => Qnat (length r) / Qnat (N - (L - 1))) rs in
  Forall (fun p => 0 <= p /\ p <= 1) ps /\ np_sum ps == 1.
Proof.
  intros HL Hc ps.
  assert (Hn : (1 <= N - (L - 1))%nat) by lia.
  pose proof (CoarseGrainProps.Qnat_pos _ Hn) as Hq. split.
  - apply Forall_forall. intros p Hin. apply in_map_iff in Hin.
    destruct Hin as (r & <- & Hr). split.
    + apply Qle_shift_div_l; [exact Hq|]. rewrite Qmult_0_l. apply Qnat_nonneg.
    + apply CountProps.frac_le_1; [exact Hn|].
      pose proof (cover_lengths N L rs r ltac:(lia) Hc Hr). lia.
  - unfold ps.
    rewrite <- (map_map (fun r => Qnat (length r)) (fun c => c / Qnat (N - (L - 1)))).
    rewrite np_sum_scale.
    rewrite <- (map_map (@length nat) Qnat), (np_sum_Qnat (fun c => c)), map_id.
    rewrite (cover_count N L rs ltac:(lia) Hc).
    replace (N + 1 - L)%nat with (N - (L - 1))%nat by lia.
    apply CoarseGrainProps.frac_1, Hn.
Qed.

Section Values.

Variable np_log : Q -> Q.
Variables (y : list Q) (cgHow : string) (yt : list nat).
Hypothesis Hcg :
  (if String.eqb cgHow "quantile" then CoarseGrain y "quantile" 3
   else if String.eqb cgHow "diffquant" then CoarseGrain (np_diff y) "quantile" 3
   else Raise (ValueError "Unknown coarse-graining method")) = Ok yt.
Hypothesis HN : (4 <= length yt)%nat.

Lemma MotifThree_values :
  exists out,
    MotifThree np_log y cgHow = Ok out /\
    length out = 124%nat /\
    forall L, (1 <= L <= 4)%nat ->
      map (fun key => dict_get key out) (letter_keys L)
      = map (fun r => Some (Fin (Qnat (length r) / Qnat (length yt - (L - 1)))))
            (map snd (position_words yt L)).
Proof.
  unfold MotifThree. rewrite Hcg. cbn [bind].
  rewrite !record_positions_value by lia. cbn [bind].
  eexists. split; [reflexivity|]. split; [reflexivity|].
  intros L HL. destruct L as [|[|[|[|[|L]]]]]; try lia; reflexivity.
Qed.

End Values.

End PositionProps.

Module MotifThreeOutcome.
Import Notions Symbolic.

(** The symbol sequence that [MotifThree] works on. *)
Lemma MotifThree_symbols (y : list Q) (cgHow : string) :
  (cgHow = "quantile" /\ (4 <= length y)%nat /\ first_point_included y) \/
  (cgHow = "diffquant" /\ (5 <= length y)%nat /\ first_point_included (np_diff y)) ->
  exists yt,
    (if String.eqb cgHow "quantile" then CoarseGrain y "quantile" 3
     else if String.eqb cgHow "diffquant" then CoarseGrain (np_diff y) "quantile" 3
     else Raise (ValueError "Unknown coarse-graining method")) = Ok yt /\
    (4 <= length yt)%nat /\ Forall (fun s => (1 <= s <= 3)%nat) yt.
Proof.
  intros [(-> & HN & Hinc) | (-> & HN & Hinc)].
  - exists (quantile_symbols y 3). split; [|split].
    + apply CoarseGrainProps.CoarseGrain_quantile_ok; [|lia|exact Hinc].
      destruct y; [simpl in HN; lia | discriminate].
    + rewrite CoarseGrainProps.quantile_symbols_length. exact HN.
    + apply CoarseGrainProps.quantile_symbols_range; [lia | exact Hinc].
  - pose proof (MotifProps.np_diff_length y) as Hl.
    exists (quantile_symbols (np_diff y) 3). split; [|split].
    + apply CoarseGrainProps.CoarseGrain_quantile_ok; [|lia|exact Hinc].
      intro E. rewrite E in Hl. simpl in Hl. lia.
    + rewrite CoarseGrainProps.quantile_symbols_length. lia.
    + apply CoarseGrainProps.quantile_symbols_range; [lia | exact Hinc].
Qed.

(** With 1, 2 or 3 symbols a denominator [N - L] is zero. *)
Lemma MotifThree_few_symbols (np_log : Q -> Q) (y : list Q) (cgHow : string)
    (yt : list nat) :
  (if String.eqb cgHow "quantile" then CoarseGrain y "quantile" 3
   else if String.eqb cgHow "diffquant" then CoarseGrain (np_diff y) "quantile" 3
   else Raise (ValueError "Unknown coarse-graining method")) = Ok yt ->
  (1 <= length yt <= 3)%nat ->
  MotifThree np_log y cgHow = Raise ZeroDivisionError.
Proof.
  intros Hcg HN. unfold MotifThree. rewrite Hcg. cbn [bind].
  set (N := length yt) in *.
  set (w1 := map (fun i => (letter i, np_where (map (Nat.eqb (S i)) yt))) (seq 0 3)).
  assert (H1 : w1 <> []) by (unfold w1; cbn [seq map]; discriminate).
  pose proof (ShortSeries.extend_positions_nonempty yt N 1 w1 H1) as H2.
  pose proof (ShortSeries.extend_positions_nonempty yt N 2 _ H2) as H3.
  pose proof (ShortSeries.extend_positions_nonempty yt N 3 _ H3) as H4.
  rewrite PositionProps.record_positions_value by lia. cbn [bind].
  destruct (Nat.eq_dec N 1) as [-> | N1].
  { rewrite ShortSeries.record_positions_raises by exact H2. reflexivity. }
  rewrite PositionProps.record_positions_value by lia. cbn [bind].
  destruct (Nat.eq_dec N 2) as [-> | N2].
  { rewrite ShortSeries.record_positions_raises by exact H3. reflexivity. }
  rewrite PositionProps.record_positions_value by lia. cbn [bind].
  assert (N = 3%nat) as -> by lia.
  rewrite ShortSeries.record_positions_raises by exact H4. reflexivity.
Qed.

End MotifThreeOutcome.





(** ** BinaryStats: the runs account for every symbol *)

Module RunProps.
Import Notions BinaryStatsProps Symbolic.

Lemma np_diff_nat_cons (a b : nat) (l : list nat) :
  np_diff_nat (a :: b :: l) = (Z.of_nat b - Z.of_nat a)%Z :: np_diff_nat (b :: l).
Proof. reflexivity. Qed.

(** The gaps between consecutive marks, each less one, count the
    unmarked positions between the first and the last mark. *)
Lemma gaps_sum (m : list bool) :
  forall i p, (p < i)%nat ->
    zsum (map (fun d => (d - 1)%Z) (np_diff_nat (p :: where_from i (m ++ [true]))))
    = (Z.of_nat i - Z.of_nat p - 1 + Z.of_nat (count_false m))%Z.
Proof.
  unfold count_false.
  induction m as [|b m IH]; intros i p Hp.
  - cbn [app where_from]. rewrite np_diff_nat_cons. cbn. lia.
  - cbn [app where_from]. destruct b; cbn [filter negb].
    + rewrite np_diff_nat_cons. cbn [map zsum fold_right].
      fold (zsum (map (fun d => (d - 1)%Z)
                      (np_diff_nat (i :: where_from (S i) (m ++ [true]))))).
      rewrite IH by lia. lia.
    + rewrite IH by lia. cbn [length]. lia.
Qed.

Lemma zsum_drop_ones (l : list Z) :
  zsum (map (fun d => (d - 1)%Z) (filter (fun v => negb (v =? 1)%Z) l))
  = zsum (map (fun d => (d - 1)%Z) l).
Proof.
  induction l as [|d l IH]; [reflexivity|]. cbn [filter map].
  destruct (Z.eqb_spec d 1) as [-> | _]; cbn [negb map].
  - rewrite IH. unfold zsum. cbn [fold_right]. lia.
  - unfold zsum in *. cbn [fold_right]. rewrite IH. reflexivity.
Qed.

Lemma np_sum_inject (l : list Z) : np_sum (map inject_Z l) == inject_Z (zsum l).
Proof.
  induction l as [|d l IH]; [reflexivity|]. cbn [map np_sum zsum fold_right].
  fold (np_sum (map inject_Z l)). fold (zsum l).
  rewrite IH, inject_Z_plus. reflexivity.
Qed.

(** The run lengths add up to the number of positions off the boundary. *)
Lemma stretches_sum (m : list bool) :
  np_sum (stretches (true :: m ++ [true])) == Qnat (count_false m).
Proof.
  unfold stretches, np_where. cbn [where_from].
  rewrite <- (map_map (fun v => (v - 1)%Z) inject_Z), np_sum_inject.
  rewrite zsum_drop_ones, gaps_sum by lia. unfold Qnat. apply inject_Z_injective. lia.
Qed.

Lemma count_false_zero_mask (yBin : list nat) :
  Forall binary yBin ->
  count_false (map (fun b => (b =? 0)%nat) yBin) = count_true (map (Nat.eqb 1) yBin).
Proof.
  unfold count_false, count_true.
  induction 1 as [|b l Hb _ IH]; [reflexivity|]. cbn [map filter].
  destruct Hb as [-> | ->]; cbn [Nat.eqb negb length]; rewrite IH; reflexivity.
Qed.

Lemma count_false_one_mask (yBin : list nat) :
  count_false (map (fun b => negb (b =? 0)%nat) yBin) = count_true (map (Nat.eqb 0) yBin).
Proof.
  unfold count_false, count_true.
  induction yBin as [|b l IH]; [reflexivity|]. cbn [map filter].
  destruct b as [|b]; cbn [Nat.eqb negb length]; rewrite IH; reflexivity.
Qed.

Lemma count_true_pos (s : nat) (l : list nat) :
  In s l -> (1 <= count_true (map (Nat.eqb s) l))%nat.
Proof.
  unfold count_true. induction l as [|a l IH]; intros []; cbn [map filter].
  - subst a. rewrite Nat.eqb_refl. cbn [length]. lia.
  - specialize (IH H). destruct (s =? a)%nat; cbn [length]; lia.
Qed.

Lemma count_true_none (s : nat) (l : list nat) :
  ~ In s l -> count_true (map (Nat.eqb s) l) = 0%nat.
Proof.
  unfold count_true. induction l as [|a l IH]; intro H; [reflexivity|].
  cbn [map filter]. destruct (Nat.eqb_spec s a) as [-> | _].
  - exfalso. apply H. left. reflexivity.
  - apply IH. intro Hin. apply H. right. exact Hin.
Qed.

(** There is a run of 1s exactly when the symbol 1 occurs. *)
Lemma stretch1_empty_iff (yBin : list nat) :
  Forall binary yBin ->
  stretches (true :: map (fun b => (b =? 0)%nat) yBin ++ [true]) = [] <-> ~ In 1%nat yBin.
Proof.
  intro Hb. split.
  - intros E Hin. pose proof (stretches_sum (map (fun b => (b =? 0)%nat) yBin)) as Hs.
    rewrite E, (count_false_zero_mask yBin Hb) in Hs.
    pose proof (count_true_pos 1 yBin Hin) as Hp.
    pose proof (Qnat_le _ _ Hp) as Hq. change (np_sum []) with 0 in Hs.
    change (Qnat 1) with 1 in Hq. lra.
  - apply stretch1_none, Hb.
Qed.

End RunProps.

(** X18. On a non-empty binarization the run lengths of [BinaryStats]
    account for every symbol: those of the 0s add up to the number of
    0s and those of the 1s to the number of 1s. Hence the reported
    [pstretch1 * meanstretch1] is the proportion of 1s in the sequence,
    and the key [stdstretch1norm] is missing from the mapping exactly
    when the symbol 1 does not occur. *)
Theorem BinaryStats_runs_account
    (np_sqrt : Q -> Q) (y : list Q) (binaryMethod : string) (yBin : list nat) :
  Symbolic.binarize y binaryMethod = Ok yBin -> yBin <> [] ->
  let stretch0 :=
    Symbolic.stretches (true :: map (fun b => negb (b =? 0)%nat) yBin ++ [true]) in
  let stretch1 :=
    Symbolic.stretches (true :: map (fun b => (b =? 0)%nat) yBin ++ [true]) in
  np_sum stretch0 == Qnat (count_true (map (Nat.eqb 0) yBin)) /\
  np_sum stretch1 == Qnat (count_true (map (Nat.eqb 1) yBin)) /\
  exists out p m,
    Symbolic.BinaryStats np_sqrt y binaryMethod = Ok out /\
    dict_get "pstretch1" out = Some (Fin p) /\
    dict_get "meanstretch1" out = Some (Fin m) /\
    p * m == Qnat (count_true (map (Nat.eqb 1) yBin)) / Qnat (length yBin) /\
    (dict_get "stdstretch1norm" out = None <-> ~ In 1%nat yBin).
Proof.
  intros Hb Hne stretch0 stretch1.
  pose proof (MotifProps.binarize_binary y binaryMethod yBin Hb) as Hbin.
  assert (H0 : np_sum stretch0 == Qnat (count_true (map (Nat.eqb 0) yBin))).
  { unfold stretch0. rewrite RunProps.stretches_sum, RunProps.count_false_one_mask.
    reflexivity. }
  assert (H1 : np_sum stretch1 == Qnat (count_true (map (Nat.eqb 1) yBin))).
  { unfold stretch1. rewrite RunProps.stretches_sum, RunProps.count_false_zero_mask
      by exact Hbin. reflexivity. }
  split; [exact H0|]. split; [exact H1|].
  assert (HN : ~ Qnat (length yBin) == 0).
  { apply BinaryStatsProps.Qnat_nonzero. destruct yBin; [congruence | simpl; lia]. }
  pose proof (RunProps.stretch1_empty_iff yBin Hbin) as Hiff. fold stretch1 in Hiff.
  unfold Symbolic.BinaryStats. rewrite Hb. cbn [bind].
  rewrite (BinaryStatsProps.py_div_ok _ _ HN). cbn [bind].
  fold stretch0 stretch1. clearbody stretch0 stretch1.
  destruct stretch1 as [|s1 r1].
  - destruct stretch0; eexists; eexists; eexists;
      (split; [reflexivity|]); (split; [reflexivity|]); (split; [reflexivity|]);
      (split; [rewrite <- H1; cbn; unfold Qdiv; ring|]);
      (split; [intros _; apply Hiff; reflexivity | reflexivity]).
  - assert (Hl : ~ Qnat (length (s1 :: r1)) == 0)
      by (apply BinaryStatsProps.Qnat_nonzero; simpl; lia).
    assert (Em : np_mean (s1 :: r1)
                 = Fin (np_sum (s1 :: r1) / Qnat (length (s1 :: r1)))).
    { unfold np_mean. apply TransitionProps.np_div_nonzero, Hl. }
    destruct stretch0; eexists; eexists; eexists;
      (split; [reflexivity|]); (split; [reflexivity|]);
      (split; [cbn [dict_get app String.eqb Ascii.eqb Bool.eqb]; rewrite Em; reflexivity|]);
      (split; [rewrite <- H1; field; split; assumption|]);
      (split; [intro E; discriminate E
              | intro Hno; exfalso; apply Hiff in Hno; discriminate Hno]).
Qed.

Lemma BinaryStats_runs_account_witness :
  Symbolic.binarize [1; 2; 1; 4; 5; 3] "diff" = Ok [1; 0; 1; 1; 0]%nat /\
  [1; 0; 1; 1; 0]%nat <> [] /\
  exists out p m,
    Symbolic.BinaryStats (fun v => v) [1; 2; 1; 4; 5; 3] "diff" = Ok out /\
    dict_get "pstretch1" out = Some (Fin p) /\
    dict_get "meanstretch1" out = Some (Fin m) /\
    p * m == Qnat (count_true (map (Nat.eqb 1) [1; 0; 1; 1; 0]%nat))
             / Qnat (length [1; 0; 1; 1; 0]%nat).
Proof.
  split; [vm_compute; reflexivity|]. split; [discriminate|].
  destruct (BinaryStats_runs_account (fun v => v) [1; 2; 1; 4; 5; 3] "diff"
              [1; 0; 1; 1; 0]%nat)
    as (_ & _ & out & p & m & H1 & H2 & H3 & H4 & _);
    [vm_compute; reflexivity | discriminate |].
  exists out, p, m. repeat split; assumption.
Defined.

(** X19. [BinaryStats] passes on the error of the binarizer; on an
    empty binarization (for instance a single sample under ['diff']) the
    division [len(stretch1) / N] of Python integers raises
    [ZeroDivisionError]; otherwise it returns, and the ratio [pupstat2],
    a division of numpy integers, is finite exactly when the first half
    of the sequence holds a 1. *)
Theorem BinaryStats_outcome (np_sqrt : Q -> Q) (y : list Q) (binaryMethod : string) :
  match Symbolic.binarize y binaryMethod with
  | Raise e => Symbolic.BinaryStats np_sqrt y binaryMethod = Raise e
  | Ok [] => Symbolic.BinaryStats np_sqrt y binaryMethod = Raise ZeroDivisionError
  | Ok yBin =>
      exists out v,
        Symbolic.BinaryStats np_sqrt y binaryMethod = Ok out /\
        (length out = 17%nat \/ length out = 18%nat) /\
        dict_get "pupstat2" out = Some v /\
        (Symbolic.is_finite v = true <-> In 1%nat (firstn (length yBin / 2) yBin))
  end.
Proof.
  unfold Symbolic.BinaryStats.
  destruct (Symbolic.binarize y binaryMethod) as [yBin | e]; [|reflexivity].
  cbn [bind]. destruct yBin as [|b yBin]; [reflexivity|].
  assert (HN : ~ Qnat (length (b :: yBin)) == 0)
    by (apply BinaryStatsProps.Qnat_nonzero; simpl; lia).
  rewrite (BinaryStatsProps.py_div_ok _ _ HN). cbn [bind].
  set (half := firstn (length (b :: yBin) / 2) (b :: yBin)).
  assert (Hfin : Symbolic.is_finite
                   (np_div (Qnat (count_true (map (Nat.eqb 1)
                              (skipn (length (b :: yBin) / 2) (b :: yBin)))))
                           (Qnat (count_true (map (Nat.eqb 1) half)))) = true
                 <-> In 1%nat half).
  { unfold np_div. split.
    - intro H. destruct (in_dec Nat.eq_dec 1%nat half) as [Hin | Hno]; [exact Hin|].
      rewrite (RunProps.count_true_none 1 half Hno) in H.
      change (Qeqb (Qnat 0) 0) with true in H. cbv iota in H.
      destruct (Qeqb _ 0); [discriminate H|].
      destruct (Qltb 0 _); discriminate H.
    - intro Hin. pose proof (RunProps.count_true_pos 1 half Hin) as Hp.
      rewrite (proj2 (Qeqb_false _ 0)); [reflexivity|].
      apply BinaryStatsProps.Qnat_nonzero, Hp. }
  destruct (Symbolic.stretches (true :: map (fun b0 => negb (b0 =? 0)%nat) (b :: yBin) ++ [true]));
    destruct (Symbolic.stretches (true :: map (fun b0 => (b0 =? 0)%nat) (b :: yBin) ++ [true]));
    eexists; eexists; (split; [reflexivity|]);
    (split; [cbn [length app]; lia|]); (split; [reflexivity | exact Hfin]).
Qed.

(** ** Surprise: the memory, the errors and the empty sample *)

Module MemoryProps.
Import Notions Symbolic RoundingProps.

Lemma round_half_even_zero (x : Q) :
  0 <= x -> (round_half_even x = 0%Z <-> x <= 1 # 2).
Proof.
  intro Hx. destruct (round_half_even_near x) as [Hlo Hhi].
  split.
  - intro E. rewrite E in Hlo. change (inject_Z 0) with 0 in Hlo. lra.
  - intro Hle. unfold round_half_even.
    assert (Hf : Qfloor x = 0%Z).
    { destruct (floor_bounds x) as [H1 H2].
      assert (Ha : inject_Z (Qfloor x) < inject_Z 1) by (change (inject_Z 1) with 1; lra).
      assert (Hb : inject_Z (-1) < inject_Z (Qfloor x))
        by (change (inject_Z (-1)) with (-1); lra).
      rewrite <- Zlt_Qlt in Ha, Hb. lia. }
    rewrite Hf. change (inject_Z 0) with 0.
    destruct (Qltb (x - 0) (1 # 2)) eqn:E1; [reflexivity|].
    destruct (Qltb (1 # 2) (x - 0)) eqn:E2; [|reflexivity].
    apply Qltb_true in E2. lra.
Qed.

Lemma round_half_even_bounds (x : Q) (n : nat) :
  0 <= x -> x <= Qnat n ->
  (0 <= round_half_even x <= Z.of_nat n)%Z.
Proof.
  intros H0 Hn. destruct (round_half_even_near x) as [Hlo Hhi].
  assert (Ha : inject_Z (-1) < inject_Z (round_half_even x))
    by (change (inject_Z (-1)) with (-1); lra).
  assert (Hb : inject_Z (round_half_even x) < inject_Z (Z.of_nat n + 1)).
  { rewrite inject_Z_plus. change (inject_Z 1) with 1. fold (Qnat n). lra. }
  rewrite <- Zlt_Qlt in Ha, Hb. lia.
Qed.

End MemoryProps.



Module EmptySample.
Import Notions Symbolic.

Section WithNumerics.

Variables np_log np_sqrt : Q -> Q.

(** With at most one feasible index nothing is sampled: the loop body
    is never run and the gains are those of the array of zeros. *)
Lemma Surprise_from_draw_empty (yth : list nat) (whatPrior : string)
    (memory : memory_t) (numIters : nat) (perm : list nat) :
  (length perm <= 1)%nat ->
  Surprise_from_draw np_log np_sqrt yth whatPrior memory numIters perm
  = summarize np_sqrt (repeat (info_gain np_log (Fin 1)) numIters) numIters.
Proof.
  intro Hp.
  assert (Hg : gains np_log [] numIters = repeat (info_gain np_log (Fin 1)) numIters).
  { unfold gains. cbn [app length]. rewrite Nat.sub_0_r.
    induction numIters as [|n IH]; [reflexivity|].
    cbn [repeat map]. rewrite IH. reflexivity. }
  unfold Surprise_from_draw. destruct memory as [m | p].
  - unfold sampled_indices. rewrite length_map.
    replace (Nat.min numIters (length perm - 1)) with 0%nat by lia.
    cbn [firstn sort_nat sort_by mapM bind]. rewrite Hg. reflexivity.
  - replace (Nat.min numIters (length perm - 1)) with 0%nat by lia.
    rewrite Hg. reflexivity.
Qed.

Lemma summarize_returns (store : list fval) (numIters : nat) :
  store <> [] -> returns (summarize np_sqrt store numIters).
Proof.
  intro H. destruct store as [|v store]; [congruence|].
  eexists. reflexivity.
Qed.

Lemma summarize_empty (numIters : nat) :
  exists msg, summarize np_sqrt [] numIters = Raise (ValueError msg).
Proof. eexists. reflexivity. Qed.

End WithNumerics.

End EmptySample.

(** X21. Errors before the sampling leave the global generator as it
    was: [Surprise] passes on the error of [CoarseGrain], and after a
    successful coarse-graining refuses a seed outside [0, 2^32) with a
    [ValueError], in both cases without touching the generator. Once a
    valid seed is set, the state the call leaves behind no longer
    depends on the state it found. With [numIters = 0] the array of
    gains is empty and its maximum raises a [ValueError], whatever the
    prior and the memory. *)
Theorem Surprise_errors_and_state
    (np_log np_sqrt : Q -> Q)
    (rng : Type) (np_random_seed : Z -> rng)
    (np_random_permutation : nat -> rng -> list nat * rng)
    (y : list Q) (whatPrior : string) (memory : Symbolic.memory_t)
    (numGroups : nat) (coarseGrainMethod : string) (numIters : nat)
    (randomSeed : option Z) (g : rng) :
  let call := Symbolic.Surprise np_log np_sqrt rng np_random_seed
                np_random_permutation y whatPrior memory numGroups
                coarseGrainMethod in
  (forall e, Symbolic.CoarseGrain y coarseGrainMethod numGroups = Raise e ->
     call numIters randomSeed g = (Raise e, g)) /\
  (forall s, (s < 0 \/ 2 ^ 32 <= s)%Z ->
     returns (Symbolic.CoarseGrain y coarseGrainMethod numGroups) ->
     exists msg, call numIters (Some s) g = (Raise (ValueError msg), g)) /\
  (forall s g', (0 <= s < 2 ^ 32)%Z ->
     returns (Symbolic.CoarseGrain y coarseGrainMethod numGroups) ->
     call numIters (Some s) g = call numIters (Some s) g') /\
  (returns (Symbolic.CoarseGrain y coarseGrainMethod numGroups) ->
   match randomSeed with Some s => (0 <= s < 2 ^ 32)%Z | None => True end ->
   exists msg, fst (call 0%nat randomSeed g) = Raise (ValueError msg)).
Proof.
  intro call. subst call. unfold Symbolic.Surprise.
  split; [|split; [|split]].
  - intros e He. rewrite He. reflexivity.
  - intros s Hs [yth Hy]. rewrite Hy.
    assert (E : ((0 <=? s) && (s <? 2 ^ 32))%Z = false).
    { destruct Hs as [Hs | Hs].
      - rewrite (proj2 (Z.leb_gt 0 s)) by lia. reflexivity.
      - rewrite (proj2 (Z.ltb_ge s (2 ^ 32))) by lia. apply andb_false_r. }
    rewrite E. eexists. reflexivity.
  - intros s g' Hs [yth Hy]. rewrite Hy.
    rewrite (proj2 (Z.leb_le 0 s)), (proj2 (Z.ltb_lt s (2 ^ 32))) by lia.
    reflexivity.
  - intros [yth Hy] Hs. rewrite Hy.
    assert (Hdraw : forall mem perm,
              exists msg,
                Symbolic.Surprise_from_draw np_log np_sqrt yth whatPrior mem 0 perm
                = Raise (ValueError msg)).
    { intros mem perm. unfold Symbolic.Surprise_from_draw.
      destruct mem as [m | p]; cbn [Nat.min];
        [unfold Symbolic.sampled_indices; cbn [Nat.min firstn]|];
        apply (EmptySample.summarize_empty np_sqrt 0). }
    destruct randomSeed as [s |].
    + rewrite (proj2 (Z.leb_le 0 s)), (proj2 (Z.ltb_lt s (2 ^ 32))) by lia.
      cbn [andb]. destruct (np_random_permutation _ _) as [perm g2]. cbn [fst].
      apply Hdraw.
    + destruct (np_random_permutation _ _) as [perm g2]. cbn [fst]. apply Hdraw.
Qed.

Lemma Surprise_errors_and_state_witness :
  ((-1 < 0)%Z \/ (2 ^ 32 <= -1)%Z) /\
  returns (Symbolic.CoarseGrain [1; 2; 3] "quantile" 3) /\
  exists msg,
    Symbolic.Surprise (fun q => q - 1) (fun v => v) nat (fun s => Z.to_nat s)
      (fun n g => (seq 0 n, S g)) [1; 2; 3] "dist" (Symbolic.MemInt 1) 3 "quantile"
      5 (Some (-1)%Z) 7%nat
    = (Raise (ValueError msg), 7%nat).
Proof.
  assert (Hs : (-1 < 0)%Z \/ (2 ^ 32 <= -1)%Z) by (left; lia).
  assert (Hr : returns (Symbolic.CoarseGrain [1; 2; 3] "quantile" 3))
    by (eexists; vm_compute; reflexivity).
  split; [exact Hs|]. split; [exact Hr|].
  exact (proj1 (proj2 (Surprise_errors_and_state (fun q => q - 1) (fun v => v) nat
                         (fun s => Z.to_nat s) (fun n g => (seq 0 n, S g))
                         [1; 2; 3] "dist" (Symbolic.MemInt 1) 3 "quantile" 5
                         (Some (-1)%Z) 7%nat))
           (-1)%Z Hs Hr).
Defined.

(** X22. When the memory leaves at most one feasible index
    ([N - m <= 1]) nothing is sampled, since the slice of the
    permutation always drops one index: for [numIters >= 1] the call
    returns the summary of [numIters] untouched zeros, whatever the
    prior is. In particular an unknown prior is not reported, the
    check being inside the loop. The permutation of [n] has [n] entries. *)
Theorem Surprise_nothing_sampled
    (np_log np_sqrt : Q -> Q)
    (rng : Type) (np_random_seed : Z -> rng)
    (np_random_permutation : nat -> rng -> list nat * rng)
    (y : list Q) (m numGroups : nat) (coarseGrainMethod : string)
    (numIters : nat) (g : rng) (yth : list nat) :
  (forall n g0, length (fst (np_random_permutation n g0)) = n) ->
  Symbolic.CoarseGrain y coarseGrainMethod numGroups = Ok yth ->
  (length yth <= m + 1)%nat -> (1 <= numIters)%nat ->
  forall whatPrior,
    fst (Symbolic.Surprise np_log np_sqrt rng np_random_seed np_random_permutation
           y whatPrior (Symbolic.MemInt m) numGroups coarseGrainMethod
           numIters (Some 0%Z) g)
    = Symbolic.summarize np_sqrt
        (repeat (Symbolic.info_gain np_log (Fin 1)) numIters) numIters /\
    returns (Symbolic.summarize np_sqrt
               (repeat (Symbolic.info_gain np_log (Fin 1)) numIters) numIters).
Proof.
  intros Hperm Hy HN Hit whatPrior. split.
  - unfold Symbolic.Surprise. rewrite Hy. cbn [Symbolic.resolve_memory].
    change ((0 <=? 0) && (0 <? 2 ^ 32))%Z with true. cbv iota.
    pose proof (Hperm (Symbolic.draw_size (length yth) (Symbolic.MemInt m))
                      (np_random_seed 0%Z)) as Hl.
    destruct (np_random_permutation _ _) as [perm g2]. cbn [fst] in *.
    apply EmptySample.Surprise_from_draw_empty.
    rewrite Hl. cbn [Symbolic.draw_size]. lia.
  - apply EmptySample.summarize_returns.
    destruct numIters; [lia | discriminate].
Qed.

Lemma Surprise_nothing_sampled_witness :
  (forall (n : nat) (g0 : unit), length (fst (seq 0 n, g0)) = n) /\
  Symbolic.CoarseGrain [1; 2; 3] "quantile" 3 = Ok [1; 2; 3]%nat /\
  (length [1; 2; 3]%nat <= 2 + 1)%nat /\ (1 <= 5)%nat /\
  fst (Symbolic.Surprise (fun q => q - 1) (fun v => v) unit (fun _ => tt)
         (fun n g0 => (seq 0 n, g0)) [1; 2; 3] "no such prior"
         (Symbolic.MemInt 2) 3 "quantile" 5 (Some 0%Z) tt)
  = Symbolic.summarize (fun v => v)
      (repeat (Symbolic.info_gain (fun q => q - 1) (Fin 1)) 5) 5.
Proof.
  assert (H1 : forall (n : nat) (g0 : unit), length (fst (seq 0 n, g0)) = n)
    by (intros; apply length_seq).
  assert (H2 : Symbolic.CoarseGrain [1; 2; 3] "quantile" 3 = Ok [1; 2; 3]%nat)
    by (vm_compute; reflexivity).
  split; [exact H1|]. split; [exact H2|]. split; [simpl; lia|]. split; [lia|].
  refine (proj1 (Surprise_nothing_sampled (fun q => q - 1) (fun v => v) unit
                   (fun _ => tt) (fun n g0 => (seq 0 n, g0)) [1; 2; 3] 2 3
                   "quantile" 5 tt [1; 2; 3]%nat H1 H2 _ _ "no such prior"));
    [simpl; lia | lia].
Defined.

(** *** The one-point prior *)

Module PriorProps.
Import Notions TransitionProps Symbolic.

Lemma where_from_shift (mask : list bool) (i : nat) :
  where_from (S i) mask = map S (where_from i mask).
Proof.
  revert i. induction mask as [|b mask IH]; intro i; [reflexivity|].
  cbn [where_from]. rewrite (IH (S i)). destruct b; reflexivity.
Qed.

(** The positions found in the window, read as adjacent pairs. *)
Lemma inmem_pairs (f : nat -> bool) (md : list nat) :
  map (fun i => (nth i md 0%nat, nth (i + 1) md 0%nat))
      (np_where (map f (removelast md)))
  = filter (fun p => f (fst p)) (adjacent md).
Proof.
  unfold np_where. induction md as [|a md IH]; [reflexivity|].
  destruct md as [|b md]; [reflexivity|].
  change (removelast (a :: b :: md)) with (a :: removelast (b :: md)).
  change (adjacent (a :: b :: md)) with ((a, b) :: adjacent (b :: md)).
  cbn [map where_from filter fst]. rewrite where_from_shift.
  assert (Hrest : map (fun i => (nth i (a :: b :: md) 0%nat,
                                 nth (i + 1) (a :: b :: md) 0%nat))
                      (map S (where_from 0 (map f (removelast (b :: md)))))
                  = filter (fun p => f (fst p)) (adjacent (b :: md))).
  { rewrite map_map. rewrite <- IH. apply map_ext. intro i. reflexivity. }
  destruct (f a); cbn [map]; rewrite Hrest; reflexivity.
Qed.

Lemma prob_T1_estimate (yth : list nat) (m t : nat) :
  (1 <= t)%nat -> prob_T1 yth m t = T1_estimate yth m t.
Proof.
  intro Ht. unfold prob_T1, T1_estimate, count_from, count_pairs.
  assert (Eg : py_get yth (Z.of_nat t - 1) = nth (t - 1) yth 0%nat).
  { unfold py_get. rewrite (proj2 (Z.ltb_ge (Z.of_nat t - 1) 0)) by lia.
    f_equal. lia. }
  rewrite Eg.
  set (md := memory_window yth m t). set (s1 := nth (t - 1) yth 0%nat).
  set (s := nth t yth 0%nat).
  set (inmem := np_where (map (Nat.eqb s1) (removelast md))).
  pose proof (inmem_pairs (Nat.eqb s1) md) as Hp. fold inmem in Hp.
  assert (Hlen : length inmem
                 = length (filter (fun p => Nat.eqb s1 (fst p)) (adjacent md))).
  { rewrite <- Hp, length_map. reflexivity. }
  assert (Hcount : count_true (map (fun i => (nth (i + 1) md 0 =? s)%nat) inmem)
                   = length (filter (fun p => Nat.eqb s1 (fst p) && Nat.eqb s (snd p))
                                    (adjacent md))).
  { rewrite <- filter_filter, <- Hp.
    unfold count_true. clear. induction inmem as [|i l IH]; [reflexivity|].
    cbn [map filter snd]. rewrite (Nat.eqb_sym s).
    destruct (nth (i + 1) md 0 =? s)%nat; cbn [length]; rewrite IH; reflexivity. }
  unfold mean_mask. rewrite Hcount, length_map, Hlen.
  destruct inmem as [|i l]; cbn [length] in Hlen; rewrite <- Hlen; reflexivity.
Qed.

End PriorProps.

(** X23. The stored probability of the [T1] prior is the empirical
    first-order transition estimate on the memory window: among the
    adjacent pairs of the window that start with the symbol at [t - 1],
    the fraction continued by the symbol at [t], and 0 when no pair
    starts with it. (The [T2] prior has no such reading.) *)
Theorem prob_T1_is_transition_estimate (yth : list nat) (m t : nat) :
  (1 <= t)%nat ->
  Symbolic.prob "T1" yth m t = Ok (Notions.T1_estimate yth m t) /\
  Notions.unit_prob (Notions.T1_estimate yth m t).
Proof.
  intro Ht. rewrite <- (PriorProps.prob_T1_estimate yth m t Ht).
  split; [reflexivity | apply GainProps.prob_T1_unit].
Qed.

Lemma prob_T1_is_transition_estimate_witness :
  (1 <= 5)%nat /\
  Symbolic.prob "T1" [1; 2; 1; 2; 2; 1; 2]%nat 4 5
  = Ok (Notions.T1_estimate [1; 2; 1; 2; 2; 1; 2]%nat 4 5).
Proof.
  split; [lia|].
  refine (proj1 (prob_T1_is_transition_estimate [1; 2; 1; 2; 2; 1; 2]%nat 4 5 _)). lia.
Defined.

(** *** The quartiles of the gains *)

Module QuartileProps.
Import Notions SortProps QuantileProps GainProps Symbolic.

Lemma floor_unique (x : Q) (z : Z) :
  inject_Z z <= x -> x < inject_Z z + 1 -> Qfloor x = z.
Proof.
  intros H1 H2. destruct (RoundingProps.floor_bounds x) as [F1 F2].
  assert (Ha : inject_Z (Qfloor x) < inject_Z (z + 1))
    by (rewrite inject_Z_plus; change (inject_Z 1) with 1; lra).
  assert (Hb : inject_Z z < inject_Z (Qfloor x + 1))
    by (rewrite inject_Z_plus; change (inject_Z 1) with 1; lra).
  rewrite <- Zlt_Qlt in Ha, Hb. lia.
Qed.

Lemma floor_nat (x : Q) (k : nat) :
  Qnat k <= x -> x < Qnat k + 1 -> Z.to_nat (Qfloor x) = k.
Proof.
  intros H1 H2. rewrite (floor_unique x (Z.of_nat k)) by assumption.
  apply Nat2Z.id.
Qed.

Lemma clip_low (x lo hi : Q) : x < lo -> clip x lo hi = lo.
Proof. intro H. unfold clip. rewrite (proj2 (Qltb_true x lo) H). reflexivity. Qed.

Lemma clip_high (x lo hi : Q) : lo <= x -> hi < x -> clip x lo hi = hi.
Proof.
  intros H1 H2. unfold clip.
  rewrite (proj2 (Qltb_false x lo) H1), (proj2 (Qltb_true hi x) H2). reflexivity.
Qed.

Lemma clip_mid (x lo hi : Q) : lo <= x -> x <= hi -> clip x lo hi = x.
Proof.
  intros H1 H2. unfold clip.
  rewrite (proj2 (Qltb_false x lo) H1), (proj2 (Qltb_false hi x) H2). reflexivity.
Qed.

Lemma finite_part_Fin (l : list Q) : finite_part (map Fin l) = l.
Proof.
  unfold finite_part. induction l as [|a l IH]; [reflexivity|].
  cbn [map flat_map app]. rewrite IH. reflexivity.
Qed.

Lemma fsort_Fin (l : list Q) : fsort (map Fin l) = map Fin (sort l).
Proof.
  unfold fsort. rewrite finite_part_Fin, length_map, Nat.sub_diag.
  cbn [repeat]. apply app_nil_r.
Qed.

(** The plotting positions [alphap = betap = 1/2] are those of Hazen:
    on a sorted array of at least two values the two estimators agree. *)
Lemma mquantile_sorted_Hazen (s : list Q) (p : Q) :
  (2 <= length s)%nat ->
  let n := length s in
  let aleph := Qnat n * p + (1 # 2) in
  let k := Z.to_nat (Qfloor (clip aleph 1 (Qnat n - 1))) in
  let gamma := clip (aleph - Qnat k) 0 1 in
  (1 <= k < n)%nat /\
  (1 - gamma) * nth (k - 1) s 0 + gamma * nth k s 0 == quantile_sorted s p.
Proof.
  intros Hn n aleph k gamma.
  assert (En : length s = n) by reflexivity. clearbody n. subst aleph k gamma.
  rewrite En in Hn. set (aleph := Qnat n * p + (1 # 2)).
  set (k := Z.to_nat (Qfloor (clip aleph 1 (Qnat n - 1)))).
  set (gamma := clip (aleph - Qnat k) 0 1).
  assert (Hn2 : 2 <= Qnat n).
  { change 2 with (Qnat 2). apply Qnat_le. exact Hn. }
  assert (Hh : hazen_index n p == aleph - 1).
  { unfold hazen_index, aleph. ring. }
  pose proof (quantile_regime s p) as R. rewrite En in R.
  destruct R as [Htop E | Hneg _ E | j H0 Hj1 Hj2 Hlen _ E]; rewrite E; clear E;
    rewrite ?En in *.
  - (* at or above the last order statistic *)
    assert (Ha : Qnat n <= aleph) by lra.
    assert (Ec : clip aleph 1 (Qnat n - 1) = Qnat n - 1) by (apply clip_high; lra).
    assert (Ek : k = (n - 1)%nat).
    { unfold k. rewrite Ec. apply floor_nat.
      - replace n with (S (n - 1)) at 2 by lia. rewrite Qnat_S. lra.
      - replace n with (S (n - 1)) at 1 by lia. rewrite Qnat_S. lra. }
    assert (Eq : Qnat k == Qnat n - 1).
    { rewrite Ek. replace n with (S (n - 1)) at 2 by lia. rewrite Qnat_S. lra. }
    assert (Eg : gamma == 1).
    { unfold gamma. destruct (Qlt_le_dec 1 (aleph - Qnat k)) as [Hgt | Hle].
      - rewrite clip_high by lra. reflexivity.
      - rewrite clip_mid by lra. lra. }
    split; [lia|]. rewrite Eg, last_nth, Ek, En. ring.
  - (* below the first order statistic *)
    assert (Ha : aleph < 1) by lra.
    assert (Ec : clip aleph 1 (Qnat n - 1) = 1) by (apply clip_low; exact Ha).
    assert (Ek : k = 1%nat).
    { unfold k. rewrite Ec. apply floor_nat; change (Qnat 1) with 1; lra. }
    assert (Eg : gamma = 0).
    { unfold gamma. rewrite Ek. change (Qnat 1) with 1. apply clip_low. lra. }
    split; [lia|]. rewrite Eg, Ek, hd_nth. cbn [Nat.sub]. ring.
  - (* between two order statistics *)
    assert (Hj : Qnat (S j) <= Qnat n - 1).
    { assert (H : Qnat (S (S j)) <= Qnat n) by (apply Qnat_le; lia).
      rewrite Qnat_S in H. lra. }
    rewrite Qnat_S in Hj.
    assert (Ek : k = S j).
    { unfold k. apply floor_nat; rewrite Qnat_S.
      - destruct (Qlt_le_dec (Qnat n - 1) aleph) as [Hgt | Hle].
        + rewrite clip_high by lra. lra.
        + rewrite clip_mid by lra. lra.
      - destruct (Qlt_le_dec (Qnat n - 1) aleph) as [Hgt | Hle].
        + rewrite clip_high by lra. lra.
        + rewrite clip_mid by lra. lra. }
    assert (Eg : gamma == hazen_index n p - Qnat j).
    { pose proof (Qnat_S j) as HS. unfold gamma. rewrite Ek.
      rewrite clip_mid by lra. lra. }
    split; [lia|]. rewrite Eg, Ek. cbn [Nat.sub]. rewrite Nat.sub_0_r. ring.
Qed.

Lemma mquantile_Hazen (l : list Q) (p : Q) :
  l <> [] ->
  exists q, mquantile (map Fin l) p = Fin q /\ q == np_quantile_hazen l p.
Proof.
  intro Hne. unfold mquantile, np_quantile_hazen.
  rewrite fsort_Fin, length_map.
  assert (Hlen : length (sort l) = length l) by apply sort_length.
  destruct (length (sort l)) as [|[|n]] eqn:En.
  - destruct l; [congruence | simpl in Hlen; lia].
  - rewrite nth_map_Fin by lia. eexists. split; [reflexivity|].
    destruct (sort l) as [|a [|b s]] eqn:Es; try discriminate En.
    cbn [nth]. unfold quantile_sorted. cbn [length last hd].
    destruct (Qle_bool (Qnat 1 - 1) (hazen_index 1 p)) eqn:E1; [reflexivity|].
    apply Qle_bool_false in E1. change (Qnat 1 - 1) with (1 - 1) in E1.
    rewrite (proj2 (Qltb_true (hazen_index 1 p) 0)) by lra. reflexivity.
  - rewrite <- En.
    destruct (mquantile_sorted_Hazen (sort l) p ltac:(lia)) as [Hk Hq].
    cbv zeta in Hk, Hq.
    rewrite !nth_map_Fin by lia. cbn [fmulq fadd].
    eexists. split; [reflexivity | exact Hq].
Qed.

Lemma np_max_ge (l : list Q) (v : Q) : In v l -> v <= np_max l.
Proof.
  unfold np_max. destruct l as [|a l]; [intros []|].
  assert (H : forall l m, m <= fold_left (fun m b => if Qltb m b then b else m) l m /\
                          forall v, In v l ->
                            v <= fold_left (fun m b => if Qltb m b then b else m) l m).
  { clear. induction l as [|b l IH]; intro m; cbn [fold_left].
    - split; [lra | intros v []].
    - destruct (IH (if Qltb m b then b else m)) as [H1 H2].
      destruct (Qltb m b) eqn:E;
        [apply Qltb_true in E | apply Qltb_false in E];
        (split; [lra|]); intros v [<- | Hv]; try lra; apply H2, Hv. }
  destruct (H l a) as [H1 H2]. intros [<- | Hv]; [exact H1 | apply H2, Hv].
Qed.

(** The quartiles of finite gains: Hazen quantiles, in order below the maximum. *)
Lemma summarize_quartiles (np_sqrt : Q -> Q) (l : list Q) (numIters : nat) :
  l <> [] ->
  exists out lq uq,
    summarize np_sqrt (map Fin l) numIters = Ok out /\
    dict_get "lq" out = Some (Fin lq) /\
    dict_get "uq" out = Some (Fin uq) /\
    dict_get "max" out = Some (Fin (np_max l)) /\
    lq == np_quantile_hazen l (1 # 4) /\
    uq == np_quantile_hazen l (3 # 4) /\
    lq <= uq /\ uq <= np_max l.
Proof.
  intro Hne.
  destruct (mquantile_Hazen l (1 # 4) Hne) as (lq & Elq & Hlq).
  destruct (mquantile_Hazen l (3 # 4) Hne) as (uq & Euq & Huq).
  assert (Hfin : forallb is_finite (map Fin l) = true).
  { clear. induction l as [|a l IH]; [reflexivity | exact IH]. }
  assert (Hs : sort l <> []).
  { intro E. apply Hne. apply Permutation_nil. rewrite <- E. apply sort_perm. }
  exists [ ("min", match filter fpos (map Fin l) with
                   | [] => NaN
                   | _ => Fin (np_min (finite_part (filter fpos (map Fin l))))
                   end);
           ("max", Fin (np_max l));
           ("mean", np_mean l);
           ("sum", Fin (np_sum l));
           ("median", np_median l);
           ("lq", Fin lq);
           ("uq", Fin uq);
           ("std", np_std1 np_sqrt l);
           ("tstat",
             if match np_std1 np_sqrt l with Fin sd => Qeqb sd 0 | _ => false end
             then NaN
             else fabs (fdiv (fsub (np_mean l) (Fin 1))
                             (fdivq (np_std1 np_sqrt l) (np_sqrt (Qnat numIters))))) ],
         lq, uq.
  split.
  - unfold summarize. destruct l as [|a l']; [congruence|].
    unfold reduce. rewrite Hfin, finite_part_Fin, Elq, Euq. reflexivity.
  - split; [reflexivity|]. split; [reflexivity|]. split; [reflexivity|].
    split; [exact Hlq|]. split; [exact Huq|]. rewrite Hlq, Huq. split.
    + apply quantile_mono; [apply sort_sorted | exact Hs | lra].
    + destruct (quantile_bounds (sort l) (3 # 4) (sort_sorted l) Hs) as [_ Hb].
      eapply Qle_trans; [exact Hb|]. apply np_max_ge.
      apply sort_In. rewrite last_nth. apply nth_In.
      destruct (sort l); [congruence | simpl; lia].
Qed.


End QuartileProps.

(** X24. The quartiles that [Surprise] reports use the plotting
    positions [alphap = betap = 1/2], which are those of the Hazen
    quantile of [CoarseGrain]: on finite gains [lq] and [uq] are the
    Hazen quantiles at 1/4 and 3/4, the thresholds that the quantile
    method with four groups would put on the same values, and
    [lq <= uq <= max]. *)
Theorem Surprise_quartiles_are_Hazen (np_sqrt : Q -> Q) (l : list Q) (numIters : nat) :
  l <> [] ->
  exists out lq uq,
    Symbolic.summarize np_sqrt (map Fin l) numIters = Ok out /\
    dict_get "lq" out = Some (Fin lq) /\
    dict_get "uq" out = Some (Fin uq) /\
    dict_get "max" out = Some (Fin (np_max l)) /\
    lq == nth 1 (Symbolic.quantile_thresholds l 4) 0 /\
    uq == nth 3 (Symbolic.quantile_thresholds l 4) 0 /\
    lq <= uq /\ uq <= np_max l.
Proof.
  intro Hne.
  destruct (QuartileProps.summarize_quartiles np_sqrt l numIters Hne)
    as (out & lq & uq & H1 & H2 & H3 & H4 & H5 & H6 & H7 & H8).
  exists out, lq, uq.
  rewrite (CoarseGrainProps.thresholds_nth_S l 4 0) by lia.
  rewrite (CoarseGrainProps.thresholds_nth_S l 4 2) by lia.
  change (Qnat 1 / Qnat 4) with (1 # 4). change (Qnat 3 / Qnat 4) with (3 # 4).
  repeat split; assumption.
Qed.

Lemma Surprise_quartiles_are_Hazen_witness :
  [2; 0; 1; 5; 3]%Q <> [] /\
  exists out lq uq,
    Symbolic.summarize (fun v => v) (map Fin [2; 0; 1; 5; 3]) 5 = Ok out /\
    dict_get "lq" out = Some (Fin lq) /\
    dict_get "uq" out = Some (Fin uq) /\
    lq <= uq.
Proof.
  split; [discriminate|].
  destruct (Surprise_quartiles_are_Hazen (fun v => v) [2; 0; 1; 5; 3] 5)
    as (out & lq & uq & H1 & H2 & H3 & _ & _ & _ & H4 & _); [discriminate|].
  exists out, lq, uq. repeat split; assumption.
Defined.

(** ** BinaryStretch *)

Module StretchProps.
Import Notions Symbolic.

Lemma binarized_opposite (x : list Q) :
  Forall (fun v => ~ v == 0) x ->
  map (fun b => (b =? 0)%nat) (map (fun v => if Qltb 0 v then 1%nat else 0%nat)
                                   (map Qopp x))
  = map (fun b => (b =? 1)%nat) (map (fun v => if Qltb 0 v then 1%nat else 0%nat) x).
Proof.
  induction 1 as [|v x Hv _ IH]; [reflexivity|].
  cbn [map]. rewrite IH. f_equal.
  destruct (Qltb 0 (- v)) eqn:E1; destruct (Qltb 0 v) eqn:E2; try reflexivity; exfalso.
  - apply Qltb_true in E1, E2. lra.
  - apply Qltb_false in E1, E2. apply Hv. lra.
Qed.

Lemma opposite_nonzero (x : list Q) :
  Forall (fun v => ~ v == 0) x -> Forall (fun v => ~ v == 0) (map Qopp x).
Proof.
  induction 1 as [|v x Hv _ IH]; constructor; [|exact IH].
  intro E. apply Hv. lra.
Qed.

Lemma opposite_twice (x : list Q) :
  map (fun v => if Qltb 0 v then 1%nat else 0%nat) (map Qopp (map Qopp x))
  = map (fun v => if Qltb 0 v then 1%nat else 0%nat) x.
Proof.
  rewrite !map_map. apply map_ext. intro v.
  destruct (Qltb 0 (- - v)) eqn:E1; destruct (Qltb 0 v) eqn:E2; try reflexivity; exfalso.
  - apply Qltb_true in E1. apply Qltb_false in E2. lra.
  - apply Qltb_false in E1. apply Qltb_true in E2. lra.
Qed.

End StretchProps.

(** X25. [BinaryStretch] sees the series only through the signs
    [x > 0] and its length: two series of the same length with the same
    positive samples give the same outcome, so multiplying the series
    by a positive constant changes nothing. It raises a [ValueError]
    for an option other than ['lseq1'] and ['lseq0'], and returns
    otherwise. *)
Theorem BinaryStretch_sign_pattern
    (signChange : list Q -> list Z) (x x' : list Q) (c : Q) (stretchWhat : string) :
  (map (Qltb 0) x = map (Qltb 0) x' ->
   Symbolic.BinaryStretch signChange x stretchWhat
   = Symbolic.BinaryStretch signChange x' stretchWhat) /\
  (0 < c ->
   Symbolic.BinaryStretch signChange (map (Qmult c) x) stretchWhat
   = Symbolic.BinaryStretch signChange x stretchWhat) /\
  (returns (Symbolic.BinaryStretch signChange x stretchWhat)
   <-> stretchWhat = "lseq1" \/ stretchWhat = "lseq0") /\
  (stretchWhat <> "lseq1" -> stretchWhat <> "lseq0" ->
   exists msg, Symbolic.BinaryStretch signChange x stretchWhat = Raise (ValueError msg)).
Proof.
  assert (Hsame : forall a b : list Q,
             map (Qltb 0) a = map (Qltb 0) b ->
             Symbolic.BinaryStretch signChange a stretchWhat
             = Symbolic.BinaryStretch signChange b stretchWhat).
  { intros a b H. unfold Symbolic.BinaryStretch.
    assert (Hl : length a = length b).
    { rewrite <- (length_map (Qltb 0) a), H. apply length_map. }
    assert (Hb : map (fun v => if Qltb 0 v then 1%nat else 0%nat) a
                 = map (fun v => if Qltb 0 v then 1%nat else 0%nat) b).
    { rewrite <- (map_map (Qltb 0) (fun t : bool => if t then 1%nat else 0%nat) a).
      rewrite <- (map_map (Qltb 0) (fun t : bool => if t then 1%nat else 0%nat) b).
      rewrite H. reflexivity. }
    rewrite Hl, Hb. reflexivity. }
  split; [apply Hsame|]. split; [|split].
  - intro Hc. apply Hsame. rewrite map_map. apply map_ext. intro v.
    destruct (Qltb 0 (c * v)) eqn:E1; destruct (Qltb 0 v) eqn:E2; try reflexivity; exfalso.
    + apply Qltb_true in E1. apply Qltb_false in E2.
      assert (0 <= c * (- v)) by (apply Qmult_le_0_compat; lra). lra.
    + apply Qltb_false in E1. apply Qltb_true in E2.
      assert (0 < c * v) by (apply Qmult_lt_0_compat; assumption). lra.
  - unfold Symbolic.BinaryStretch, returns.
    destruct (String.eqb_spec stretchWhat "lseq1") as [-> | H1].
    { split; [intros _; left; reflexivity | intros _; eexists; reflexivity]. }
    destruct (String.eqb_spec stretchWhat "lseq0") as [-> | H0].
    { split; [intros _; right; reflexivity | intros _; eexists; reflexivity]. }
    split; [intros [v Hv]; discriminate Hv | intros [E | E]; contradiction].
  - intros H1 H0. unfold Symbolic.BinaryStretch.
    destruct (String.eqb_spec stretchWhat "lseq1") as [E | _]; [contradiction|].
    destruct (String.eqb_spec stretchWhat "lseq0") as [E | _]; [contradiction|].
    eexists. reflexivity.
Qed.

Lemma BinaryStretch_sign_pattern_witness :
  0 < 2 /\
  Symbolic.BinaryStretch (fun d => map (fun v => Qfloor v) d)
    (map (Qmult 2) [1; -2; 3; 4; -1]) "lseq1"
  = Symbolic.BinaryStretch (fun d => map (fun v => Qfloor v) d)
      [1; -2; 3; 4; -1] "lseq1".
Proof.
  split; [lra|].
  refine (proj1 (proj2 (BinaryStretch_sign_pattern (fun d => map (fun v => Qfloor v) d)
                          [1; -2; 3; 4; -1] [] 2 "lseq1")) _).
  lra.
Defined.

(** X26. On a series without a zero sample the two options of
    [BinaryStretch] mirror each other: the statistic of the 0s of the
    series is the statistic of the 1s of the negated series, and the
    other way round. *)
Theorem BinaryStretch_mirror (signChange : list Q -> list Z) (x : list Q) :
  Forall (fun v => ~ v == 0) x ->
  Symbolic.BinaryStretch signChange (map Qopp x) "lseq0"
  = Symbolic.BinaryStretch signChange x "lseq1" /\
  Symbolic.BinaryStretch signChange (map Qopp x) "lseq1"
  = Symbolic.BinaryStretch signChange x "lseq0".
Proof.
  intro H. unfold Symbolic.BinaryStretch, Symbolic.stretch_statistic.
  cbn [String.eqb Ascii.eqb Bool.eqb]. rewrite !length_map. split.
  - rewrite (StretchProps.binarized_opposite x H). reflexivity.
  - rewrite <- (StretchProps.binarized_opposite (map Qopp x)
                  (StretchProps.opposite_nonzero x H)).
    rewrite StretchProps.opposite_twice. reflexivity.
Qed.

Lemma BinaryStretch_mirror_witness :
  Forall (fun v => ~ v == 0) [1; -2; 3; 4; -1] /\
  Symbolic.BinaryStretch (fun d => map (fun v => Qfloor v) d)
    (map Qopp [1; -2; 3; 4; -1]) "lseq0"
  = Symbolic.BinaryStretch (fun d => map (fun v => Qfloor v) d)
      [1; -2; 3; 4; -1] "lseq1".
Proof.
  assert (H : Forall (fun v => ~ v == 0) [1; -2; 3; 4; -1])
    by (repeat constructor; intro E; discriminate E).
  split; [exact H|].
  exact (proj1 (BinaryStretch_mirror (fun d => map (fun v => Qfloor v) d)
                  [1; -2; 3; 4; -1] H)).
Defined.

(** ** MovingThreshold: the statistics of the barrier *)

Module BarrierStats.
Import Notions SortProps QuantileProps ExtremeEvents.

Lemma np_min_le (l : list Q) (v : Q) : In v l -> np_min l <= v.
Proof.
  unfold np_min. destruct l as [|a l]; [intros []|].
  assert (H : forall l m, fold_left (fun m b => if Qltb b m then b else m) l m <= m /\
                          forall v, In v l ->
                            fold_left (fun m b => if Qltb b m then b else m) l m <= v).
  { clear. induction l as [|b l IH]; intro m; cbn [fold_left].
    - split; [lra | intros v []].
    - destruct (IH (if Qltb b m then b else m)) as [H1 H2].
      destruct (Qltb b m) eqn:E;
        [apply Qltb_true in E | apply Qltb_false in E];
        (split; [lra|]); intros v [<- | Hv]; try lra; apply H2, Hv. }
  destruct (H l a) as [H1 H2]. intros [<- | Hv]; [exact H1 | apply H2, Hv].
Qed.

Lemma np_sum_between (l : list Q) (lo hi : Q) :
  Forall (fun v => lo <= v /\ v <= hi) l ->
  Qnat (length l) * lo <= np_sum l /\ np_sum l <= Qnat (length l) * hi.
Proof.
  induction 1 as [|v l [H1 H2] _ [IH1 IH2]].
  - change (Qnat (length (@nil Q))) with 0. change (np_sum []) with 0. split; lra.
  - cbn [length]. rewrite Qnat_S.
    change (np_sum (v :: l)) with (v + np_sum l). split; lra.
Qed.

(** The mean of a non-empty array lies between its minimum and its maximum. *)
Lemma np_mean_between (l : list Q) :
  l <> [] ->
  exists m, np_mean l = Fin m /\ np_min l <= m /\ m <= np_max l.
Proof.
  intro Hne.
  assert (Hn : (1 <= length l)%nat) by (destruct l; [congruence | simpl; lia]).
  pose proof (CoarseGrainProps.Qnat_pos _ Hn) as Hp.
  unfold np_mean. rewrite TransitionProps.np_div_nonzero by lra.
  eexists. split; [reflexivity|].
  destruct (np_sum_between l (np_min l) (np_max l)) as [H1 H2].
  { apply Forall_forall. intros v Hv.
    split; [apply np_min_le | apply QuartileProps.np_max_ge]; exact Hv. }
  split.
  - apply Qle_shift_div_l; [exact Hp | lra].
  - apply Qle_shift_div_r; [exact Hp | lra].
Qed.

Lemma quantile_spread (l : list Q) (p p' : Q) :
  l <> [] -> p <= p' -> 0 <= np_quantile_hazen l p' - np_quantile_hazen l p.
Proof.
  intros Hne Hp. unfold np_quantile_hazen.
  assert (Hs : sort l <> []).
  { intro E. apply Hne. apply Permutation_nil. rewrite <- E. apply sort_perm. }
  pose proof (quantile_mono (sort l) p p' (sort_sorted l) Hs Hp). lra.
Qed.

End BarrierStats.

(** X27. Whenever [MovingThreshold] returns (a valid [b], a non-empty
    series, any [a]), the reported statistics of the barrier are in
    order: [minq <= meanq <= maxq], and the interquartile range [iqrq]
    is not negative. *)
Theorem MovingThreshold_statistics_ordered
    (np_sqrt : Q -> Q) (y : list Q) (a b : Q) :
  0 <= b -> b <= 1 -> y <> [] ->
  exists out lo m hi iqr,
    ExtremeEvents.MovingThreshold np_sqrt y a b = Ok out /\
    dict_get "minq" out = Some (Fin lo) /\
    dict_get "meanq" out = Some (Fin m) /\
    dict_get "maxq" out = Some (Fin hi) /\
    dict_get "iqrq" out = Some (Fin iqr) /\
    lo <= m /\ m <= hi /\ 0 <= iqr.
Proof.
  intros Hb0 Hb1 Hy. unfold ExtremeEvents.MovingThreshold.
  rewrite (proj2 (Qltb_false b 0) Hb0), (proj2 (Qltb_false 1 b) Hb1).
  cbn [orb]. destruct y as [|y0 y']; [congruence|]. cbn [length].
  assert (Hq : fst (ExtremeEvents.trajectory a b (map Qabs (y0 :: y'))) <> []).
  { unfold ExtremeEvents.trajectory.
    destruct (ExtremeEvents.barrier a b 1 (tl (map Qabs (y0 :: y')))).
    discriminate. }
  destruct (ExtremeEvents.trajectory a b (map Qabs (y0 :: y'))) as [q kicks].
  cbn [fst] in Hq.
  destruct (BarrierStats.np_mean_between q Hq) as (m & Em & Hlo & Hhi).
  pose proof (BarrierStats.quantile_spread q (25 # 100) (75 # 100) Hq ltac:(lra)) as Hi.
  eexists. exists (np_min q), m, (np_max q). eexists.
  split; [reflexivity|]. split; [reflexivity|].
  split; [cbn [dict_set dict_get String.eqb Ascii.eqb Bool.eqb]; rewrite Em; reflexivity|].
  split; [reflexivity|]. split; [reflexivity|].
  split; [exact Hlo|]. split; [exact Hhi | exact Hi].
Qed.

Lemma MovingThreshold_statistics_ordered_witness :
  0 <= 1 # 10 /\ 1 # 10 <= 1 /\ [0; 3; -(1 # 2); 7] <> [] /\
  exists out lo m hi iqr,
    ExtremeEvents.MovingThreshold (fun v => v) [0; 3; -(1 # 2); 7] 1 (1 # 10) = Ok out /\
    dict_get "minq" out = Some (Fin lo) /\
    dict_get "meanq" out = Some (Fin m) /\
    dict_get "maxq" out = Some (Fin hi) /\
    dict_get "iqrq" out = Some (Fin iqr) /\
    lo <= m /\ m <= hi /\ 0 <= iqr.
Proof.
  split; [lra|]. split; [lra|]. split; [discriminate|].
  apply (MovingThreshold_statistics_ordered (fun v => v) [0; 3; -(1 # 2); 7] 1 (1 # 10));
    [lra | lra | discriminate].
Defined.
